(** * The JACK engine (jackd/engine.c): port table, graph sort and cycle runner

    A shallow embedding of the request handlers, the graph sorter and the
    audio-cycle entry points of [jackd/engine.c], with the properties the
    specification states about them.

    Conventions of the embedding.
    - The engine is one record threaded through every function.  Pointers
      to [jack_port_internal_t] are indices into [internal_ports], pointers
      to [jack_port_shared_t] indices into the shared port table, pointers
      to [jack_client_internal_t] indices into the client memory
      [client_mem].  A [JSList] is a Rocq list, [NULL] the empty list.
    - A function returns an [outcome]: [Done] with its C result and the new
      engine, [Undefined] where the C code reads or writes outside an
      object (an index past the end of a table, a dangling pointer), and
      [OutOfFuel] where the call depth allowed by the fuel argument is
      used up.  Only the two recursive functions consume fuel.
    - The operating system, the driver and the client processes are an
      oracle: the engine carries a stream of replies [os] and a position
      [clock]; every system call, driver call and look at memory shared
      with a client process consumes one reply.
    - What the engine sends out is appended to [trace].
    - The mutexes are not modelled: the embedding runs one thread. *)

From Stdlib Require Import ZArith QArith Lia.
From stdpp Require Import base option list strings.

Local Open Scope Z_scope.

(** ** Outcomes *)

Inductive outcome (A : Type) : Type :=
| Done (a : A)
| Undefined
| OutOfFuel.

Arguments Done {A} a.
Arguments Undefined {A}.
Arguments OutOfFuel {A}.

#[global] Instance outcome_ret : MRet outcome := fun A a => Done a.

#[global] Instance outcome_bind : MBind outcome := fun A B f m =>
  match m with
  | Done a => f a
  | Undefined => Undefined
  | OutOfFuel => OutOfFuel
  end.

(** [table[i]]: reading past the end of a table is undefined. *)
Definition fetch {A : Type} (l : list A) (i : nat) : outcome A :=
  match l !! i with
  | Some x => Done x
  | None => Undefined
  end.

(** [table[i] = v]. *)
Definition store {A : Type} (l : list A) (i : nat) (v : A) : outcome (list A) :=
  match l !! i with
  | Some _ => Done (<[i := v]> l)
  | None => Undefined
  end.

(** ** Constants of the missing headers *)

(** The port flag bits of [enum JackPortFlags] (jack/types.h, not among the
    sources).  The functions below only test single bits. *)
Definition JackPortIsInput : Z := 1.
Definition JackPortIsOutput : Z := 2.
Definition JackPortIsPhysical : Z := 4.
Definition JackPortCanMonitor : Z := 8.
Definition JackPortIsTerminal : Z := 16.

(** [POLLIN] of <poll.h>. *)
Definition POLLIN : Z := 1.

(** [jack_nframes_t] is a 32-bit unsigned integer; sums wrap. *)
Definition nframes_modulus : Z := 2 ^ 32.
Definition nframes_add (a b : Z) : Z := (a + b) mod nframes_modulus.

(** [x & bit] as a C truth value. *)
Definition has_flag (flags bit : Z) : bool := negb (Z.land flags bit =? 0).

Inductive ClientType : Type := ClientInternal | ClientDriver | ClientExternal.

Inductive jack_client_state_t : Type := NotTriggered | Triggered | Running | Finished.

Inductive EventType : Type :=
| BufferSizeChange | SampleRateChange | NewPortType
| PortConnected | PortDisconnected | GraphReordered
| PortRegistered | PortUnregistered | XRun.

#[global] Instance ClientType_eq_dec : EqDecision ClientType.
Proof. solve_decision. Defined.

#[global] Instance EventType_eq_dec : EqDecision EventType.
Proof. solve_decision. Defined.

(** A [jack_event_t].  A field the sender never assigned is [None]. *)
Record jack_event_t : Type := {
  ev_type : EventType;
  ev_x : option Z;
  ev_y : option Z
}.

(** ** Ports *)

Record jack_port_buffer_info_t : Type := {
  bi_offset : Z
}.

Record jack_port_type_info_t : Type := {
  type_name : string;
  type_id : nat;
  mixdown : bool;                       (* the mixdown function pointer is not NULL *)
  buffer_freelist : list jack_port_buffer_info_t
}.

Record jack_port_shared_t : Type := {
  id : nat;
  name : string;
  type_info : jack_port_type_info_t;
  client_id : Z;
  flags : Z;
  in_use : bool;
  locked : bool;
  latency : Z;
  total_latency : Z;
  offset : Z;
  monitor_requests : Z
}.

(** A [jack_connection_internal_t]; [conn_addr] is the address [malloc]
    returned for it, which is what list removal compares. *)
Record jack_connection_internal_t : Type := {
  conn_addr : nat;
  source : nat;
  destination : nat
}.

Record jack_port_internal_t : Type := {
  shared : nat;
  connections : list jack_connection_internal_t;
  buffer_info : option jack_port_buffer_info_t
}.

(** ** Clients *)

Record jack_client_control_t : Type := {
  c_id : Z;
  c_name : string;
  c_type : ClientType;
  active : bool;
  dead : bool;
  state : jack_client_state_t;
  c_nframes : Z;
  timed_out : Z;
  signalled_at : Z;
  awake_at : Z;
  finished_at : Z;
  process : bool;                       (* callback pointers: set or NULL *)
  xrun : bool;
  port_register : bool;
  graph_order : bool;
  bufsize : bool;
  srate : bool
}.

Record jack_client_internal_t : Type := {
  control : jack_client_control_t;
  request_fd : Z;
  event_fd : Z;
  subgraph_start_fd : Z;
  subgraph_wait_fd : Z;
  ports : list nat;
  fed_by : list nat;
  execution_order : Z;
  next_client : option nat;
  error : Z
}.

(** ** The environment *)

(** One reply of the environment.  Each call reads the fields it needs. *)
Record os_reply : Type := {
  ok : bool;              (* the call succeeded / transferred the whole record *)
  ret : Z;                (* its return value: a descriptor, a count, a status *)
  enoent : bool;          (* errno == ENOENT after a failed stat *)
  is_fifo : bool;         (* S_ISFIFO (statbuf.st_mode) *)
  byte : Z;               (* the status byte an event socket hands back *)
  revents : Z;            (* poll's revents *)
  wait_status : Z;        (* the status driver->wait stores *)
  client_awake_at : Z     (* awake_at as the client process left it *)
}.

(** What leaves the engine. *)
Inductive io_event : Type :=
| EventWritten (client : nat) (ev : jack_event_t)    (* write on an event socket *)
| Callback (client : nat) (ev : jack_event_t)        (* handler of an in-process client *)
| SubgraphStart (fd : Z)                             (* the byte written to a FIFO *)
| ProcessCall (client : nat) (nframes : Z)           (* process callback of an in-process client *)
| DriverStop
| DriverStart
| DriverNullCycle
| DriverRead
| DriverWrite
| DriverWait (fd : Z)
| PollWait (fd : Z) (timeout : Z).

(** ** The engine *)

Record jack_frame_timer_t : Type := {
  guard1 : Z;
  frames : Z;
  stamp : Z;
  guard2 : Z
}.

Record jack_control_t : Type := {
  ctl_port_max : nat;
  shared_ports : list jack_port_shared_t;
  port_types : list jack_port_type_info_t;     (* the first n_port_types entries *)
  real_time : bool;
  frame_timer : jack_frame_timer_t
}.

Record jack_engine_t : Type := {
  ectl : jack_control_t;
  port_max : nat;
  internal_ports : list jack_port_internal_t;
  clients : list nat;
  client_mem : list jack_client_internal_t;
  fifo : list Z;                               (* fifo_size is its length *)
  process_errors : Z;
  spare_usecs : Q;
  asio_mode : bool;
  client_timeout_msecs : Z;
  period_usecs : Z;                            (* driver->period_usecs *)
  current_client : option nat;
  next_conn_addr : nat;                        (* the next address malloc hands out *)
  watchdog_check : Z;
  last_wait_ust : Z;                           (* driver->last_wait_ust *)
  os : nat -> os_reply;
  clock : nat;
  trace : list io_event
}.

(** ** Field updates *)

Definition set_ectl (e : jack_engine_t) (v : jack_control_t) : jack_engine_t :=
  {| ectl := v; port_max := port_max e; internal_ports := internal_ports e;
     clients := clients e; client_mem := client_mem e; fifo := fifo e;
     process_errors := process_errors e; spare_usecs := spare_usecs e;
     asio_mode := asio_mode e; client_timeout_msecs := client_timeout_msecs e;
     period_usecs := period_usecs e; current_client := current_client e;
     next_conn_addr := next_conn_addr e; watchdog_check := watchdog_check e;
     last_wait_ust := last_wait_ust e; os := os e; clock := clock e;
     trace := trace e |}.

Definition set_internal_ports (e : jack_engine_t) (v : list jack_port_internal_t) : jack_engine_t :=
  {| ectl := ectl e; port_max := port_max e; internal_ports := v;
     clients := clients e; client_mem := client_mem e; fifo := fifo e;
     process_errors := process_errors e; spare_usecs := spare_usecs e;
     asio_mode := asio_mode e; client_timeout_msecs := client_timeout_msecs e;
     period_usecs := period_usecs e; current_client := current_client e;
     next_conn_addr := next_conn_addr e; watchdog_check := watchdog_check e;
     last_wait_ust := last_wait_ust e; os := os e; clock := clock e;
     trace := trace e |}.

Definition set_clients (e : jack_engine_t) (v : list nat) : jack_engine_t :=
  {| ectl := ectl e; port_max := port_max e; internal_ports := internal_ports e;
     clients := v; client_mem := client_mem e; fifo := fifo e;
     process_errors := process_errors e; spare_usecs := spare_usecs e;
     asio_mode := asio_mode e; client_timeout_msecs := client_timeout_msecs e;
     period_usecs := period_usecs e; current_client := current_client e;
     next_conn_addr := next_conn_addr e; watchdog_check := watchdog_check e;
     last_wait_ust := last_wait_ust e; os := os e; clock := clock e;
     trace := trace e |}.

Definition set_client_mem (e : jack_engine_t) (v : list jack_client_internal_t) : jack_engine_t :=
  {| ectl := ectl e; port_max := port_max e; internal_ports := internal_ports e;
     clients := clients e; client_mem := v; fifo := fifo e;
     process_errors := process_errors e; spare_usecs := spare_usecs e;
     asio_mode := asio_mode e; client_timeout_msecs := client_timeout_msecs e;
     period_usecs := period_usecs e; current_client := current_client e;
     next_conn_addr := next_conn_addr e; watchdog_check := watchdog_check e;
     last_wait_ust := last_wait_ust e; os := os e; clock := clock e;
     trace := trace e |}.

Definition set_fifo (e : jack_engine_t) (v : list Z) : jack_engine_t :=
  {| ectl := ectl e; port_max := port_max e; internal_ports := internal_ports e;
     clients := clients e; client_mem := client_mem e; fifo := v;
     process_errors := process_errors e; spare_usecs := spare_usecs e;
     asio_mode := asio_mode e; client_timeout_msecs := client_timeout_msecs e;
     period_usecs := period_usecs e; current_client := current_client e;
     next_conn_addr := next_conn_addr e; watchdog_check := watchdog_check e;
     last_wait_ust := last_wait_ust e; os := os e; clock := clock e;
     trace := trace e |}.

Definition set_process_errors (e : jack_engine_t) (v : Z) : jack_engine_t :=
  {| ectl := ectl e; port_max := port_max e; internal_ports := internal_ports e;
     clients := clients e; client_mem := client_mem e; fifo := fifo e;
     process_errors := v; spare_usecs := spare_usecs e;
     asio_mode := asio_mode e; client_timeout_msecs := client_timeout_msecs e;
     period_usecs := period_usecs e; current_client := current_client e;
     next_conn_addr := next_conn_addr e; watchdog_check := watchdog_check e;
     last_wait_ust := last_wait_ust e; os := os e; clock := clock e;
     trace := trace e |}.

Definition set_current_client (e : jack_engine_t) (v : option nat) : jack_engine_t :=
  {| ectl := ectl e; port_max := port_max e; internal_ports := internal_ports e;
     clients := clients e; client_mem := client_mem e; fifo := fifo e;
     process_errors := process_errors e; spare_usecs := spare_usecs e;
     asio_mode := asio_mode e; client_timeout_msecs := client_timeout_msecs e;
     period_usecs := period_usecs e; current_client := v;
     next_conn_addr := next_conn_addr e; watchdog_check := watchdog_check e;
     last_wait_ust := last_wait_ust e; os := os e; clock := clock e;
     trace := trace e |}.

Definition set_next_conn_addr (e : jack_engine_t) (v : nat) : jack_engine_t :=
  {| ectl := ectl e; port_max := port_max e; internal_ports := internal_ports e;
     clients := clients e; client_mem := client_mem e; fifo := fifo e;
     process_errors := process_errors e; spare_usecs := spare_usecs e;
     asio_mode := asio_mode e; client_timeout_msecs := client_timeout_msecs e;
     period_usecs := period_usecs e; current_client := current_client e;
     next_conn_addr := v; watchdog_check := watchdog_check e;
     last_wait_ust := last_wait_ust e; os := os e; clock := clock e;
     trace := trace e |}.

Definition set_clock (e : jack_engine_t) (v : nat) : jack_engine_t :=
  {| ectl := ectl e; port_max := port_max e; internal_ports := internal_ports e;
     clients := clients e; client_mem := client_mem e; fifo := fifo e;
     process_errors := process_errors e; spare_usecs := spare_usecs e;
     asio_mode := asio_mode e; client_timeout_msecs := client_timeout_msecs e;
     period_usecs := period_usecs e; current_client := current_client e;
     next_conn_addr := next_conn_addr e; watchdog_check := watchdog_check e;
     last_wait_ust := last_wait_ust e; os := os e; clock := v;
     trace := trace e |}.

Definition set_trace (e : jack_engine_t) (v : list io_event) : jack_engine_t :=
  {| ectl := ectl e; port_max := port_max e; internal_ports := internal_ports e;
     clients := clients e; client_mem := client_mem e; fifo := fifo e;
     process_errors := process_errors e; spare_usecs := spare_usecs e;
     asio_mode := asio_mode e; client_timeout_msecs := client_timeout_msecs e;
     period_usecs := period_usecs e; current_client := current_client e;
     next_conn_addr := next_conn_addr e; watchdog_check := watchdog_check e;
     last_wait_ust := last_wait_ust e; os := os e; clock := clock e;
     trace := v |}.

Definition set_watchdog_check (e : jack_engine_t) (v : Z) : jack_engine_t :=
  {| ectl := ectl e; port_max := port_max e; internal_ports := internal_ports e;
     clients := clients e; client_mem := client_mem e; fifo := fifo e;
     process_errors := process_errors e; spare_usecs := spare_usecs e;
     asio_mode := asio_mode e; client_timeout_msecs := client_timeout_msecs e;
     period_usecs := period_usecs e; current_client := current_client e;
     next_conn_addr := next_conn_addr e; watchdog_check := v;
     last_wait_ust := last_wait_ust e; os := os e; clock := clock e;
     trace := trace e |}.

Definition set_frame_timer (c : jack_control_t) (v : jack_frame_timer_t) : jack_control_t :=
  {| ctl_port_max := ctl_port_max c; shared_ports := shared_ports c;
     port_types := port_types c; real_time := real_time c; frame_timer := v |}.

Definition set_shared_ports (c : jack_control_t) (v : list jack_port_shared_t) : jack_control_t :=
  {| ctl_port_max := ctl_port_max c; shared_ports := v;
     port_types := port_types c; real_time := real_time c;
     frame_timer := frame_timer c |}.

Definition set_port_types (c : jack_control_t) (v : list jack_port_type_info_t) : jack_control_t :=
  {| ctl_port_max := ctl_port_max c; shared_ports := shared_ports c;
     port_types := v; real_time := real_time c;
     frame_timer := frame_timer c |}.

Definition set_buffer_freelist (t : jack_port_type_info_t)
    (v : list jack_port_buffer_info_t) : jack_port_type_info_t :=
  {| type_name := type_name t; type_id := type_id t; mixdown := mixdown t;
     buffer_freelist := v |}.

Definition set_in_use (p : jack_port_shared_t) (v : bool) : jack_port_shared_t :=
  {| id := id p; name := name p; type_info := type_info p; client_id := client_id p;
     flags := flags p; in_use := v; locked := locked p; latency := latency p;
     total_latency := total_latency p; offset := offset p;
     monitor_requests := monitor_requests p |}.

Definition set_total_latency (p : jack_port_shared_t) (v : Z) : jack_port_shared_t :=
  {| id := id p; name := name p; type_info := type_info p; client_id := client_id p;
     flags := flags p; in_use := in_use p; locked := locked p; latency := latency p;
     total_latency := v; offset := offset p;
     monitor_requests := monitor_requests p |}.

Definition set_offset (p : jack_port_shared_t) (v : Z) : jack_port_shared_t :=
  {| id := id p; name := name p; type_info := type_info p; client_id := client_id p;
     flags := flags p; in_use := in_use p; locked := locked p; latency := latency p;
     total_latency := total_latency p; offset := v;
     monitor_requests := monitor_requests p |}.

Definition set_monitor_requests (p : jack_port_shared_t) (v : Z) : jack_port_shared_t :=
  {| id := id p; name := name p; type_info := type_info p; client_id := client_id p;
     flags := flags p; in_use := in_use p; locked := locked p; latency := latency p;
     total_latency := total_latency p; offset := offset p;
     monitor_requests := v |}.

Definition set_connections (p : jack_port_internal_t)
    (v : list jack_connection_internal_t) : jack_port_internal_t :=
  {| shared := shared p; connections := v; buffer_info := buffer_info p |}.

Definition set_buffer_info (p : jack_port_internal_t)
    (v : option jack_port_buffer_info_t) : jack_port_internal_t :=
  {| shared := shared p; connections := connections p; buffer_info := v |}.

Definition set_control (c : jack_client_internal_t) (v : jack_client_control_t) : jack_client_internal_t :=
  {| control := v; request_fd := request_fd c; event_fd := event_fd c;
     subgraph_start_fd := subgraph_start_fd c; subgraph_wait_fd := subgraph_wait_fd c;
     ports := ports c; fed_by := fed_by c; execution_order := execution_order c;
     next_client := next_client c; error := error c |}.

Definition set_subgraph_start_fd (c : jack_client_internal_t) (v : Z) : jack_client_internal_t :=
  {| control := control c; request_fd := request_fd c; event_fd := event_fd c;
     subgraph_start_fd := v; subgraph_wait_fd := subgraph_wait_fd c;
     ports := ports c; fed_by := fed_by c; execution_order := execution_order c;
     next_client := next_client c; error := error c |}.

Definition set_subgraph_wait_fd (c : jack_client_internal_t) (v : Z) : jack_client_internal_t :=
  {| control := control c; request_fd := request_fd c; event_fd := event_fd c;
     subgraph_start_fd := subgraph_start_fd c; subgraph_wait_fd := v;
     ports := ports c; fed_by := fed_by c; execution_order := execution_order c;
     next_client := next_client c; error := error c |}.

Definition set_ports (c : jack_client_internal_t) (v : list nat) : jack_client_internal_t :=
  {| control := control c; request_fd := request_fd c; event_fd := event_fd c;
     subgraph_start_fd := subgraph_start_fd c; subgraph_wait_fd := subgraph_wait_fd c;
     ports := v; fed_by := fed_by c; execution_order := execution_order c;
     next_client := next_client c; error := error c |}.

Definition set_fed_by (c : jack_client_internal_t) (v : list nat) : jack_client_internal_t :=
  {| control := control c; request_fd := request_fd c; event_fd := event_fd c;
     subgraph_start_fd := subgraph_start_fd c; subgraph_wait_fd := subgraph_wait_fd c;
     ports := ports c; fed_by := v; execution_order := execution_order c;
     next_client := next_client c; error := error c |}.

(** [client->execution_order = n; client->next_client = next_client;] *)
Definition set_order_and_next (c : jack_client_internal_t) (n : Z) (nxt : option nat)
    : jack_client_internal_t :=
  {| control := control c; request_fd := request_fd c; event_fd := event_fd c;
     subgraph_start_fd := subgraph_start_fd c; subgraph_wait_fd := subgraph_wait_fd c;
     ports := ports c; fed_by := fed_by c; execution_order := n;
     next_client := nxt; error := error c |}.

Definition set_error (c : jack_client_internal_t) (v : Z) : jack_client_internal_t :=
  {| control := control c; request_fd := request_fd c; event_fd := event_fd c;
     subgraph_start_fd := subgraph_start_fd c; subgraph_wait_fd := subgraph_wait_fd c;
     ports := ports c; fed_by := fed_by c; execution_order := execution_order c;
     next_client := next_client c; error := v |}.

(** [ctl->state = Triggered; ctl->signalled_at = now; ctl->awake_at = 0;
    ctl->finished_at = 0;] *)
Definition trigger_control (c : jack_client_control_t) (now : Z) : jack_client_control_t :=
  {| c_id := c_id c; c_name := c_name c; c_type := c_type c; active := active c;
     dead := dead c; state := Triggered; c_nframes := c_nframes c;
     timed_out := timed_out c; signalled_at := now; awake_at := 0; finished_at := 0;
     process := process c; xrun := xrun c; port_register := port_register c;
     graph_order := graph_order c; bufsize := bufsize c; srate := srate c |}.

Definition set_awake_at (c : jack_client_control_t) (v : Z) : jack_client_control_t :=
  {| c_id := c_id c; c_name := c_name c; c_type := c_type c; active := active c;
     dead := dead c; state := state c; c_nframes := c_nframes c;
     timed_out := timed_out c; signalled_at := signalled_at c; awake_at := v;
     finished_at := finished_at c;
     process := process c; xrun := xrun c; port_register := port_register c;
     graph_order := graph_order c; bufsize := bufsize c; srate := srate c |}.

Definition set_timed_out (c : jack_client_control_t) (v : Z) : jack_client_control_t :=
  {| c_id := c_id c; c_name := c_name c; c_type := c_type c; active := active c;
     dead := dead c; state := state c; c_nframes := c_nframes c;
     timed_out := v; signalled_at := signalled_at c; awake_at := awake_at c;
     finished_at := finished_at c;
     process := process c; xrun := xrun c; port_register := port_register c;
     graph_order := graph_order c; bufsize := bufsize c; srate := srate c |}.

(** ** The environment and the trace *)

(** One call into the environment: the reply at the clock, and the clock
    advanced. *)
Definition os_call (e : jack_engine_t) : os_reply * jack_engine_t :=
  (os e (clock e), set_clock e (S (clock e))).

Definition emit (ev : io_event) (e : jack_engine_t) : jack_engine_t :=
  set_trace e (trace e ++ [ev]).

(** ** JSList (jslist.h) *)

(** [jack_slist_remove]: unlink the first node whose data is the pointer
    looked for. *)
Fixpoint jack_slist_remove {A : Type} (same : A -> A -> bool) (l : list A) (x : A) : list A :=
  match l with
  | [] => []
  | y :: l' => if same y x then l' else y :: jack_slist_remove same l' x
  end.

(** [jack_slist_find (l, x) != NULL] for a list of client pointers. *)
Definition jack_slist_find (l : list nat) (x : nat) : bool :=
  existsb (Nat.eqb x) l.

Definition same_conn (a b : jack_connection_internal_t) : bool :=
  Nat.eqb (conn_addr a) (conn_addr b).

Definition same_buffer (a b : jack_port_buffer_info_t) : bool :=
  bi_offset a =? bi_offset b.

(** ** Clients *)

Definition jack_client_is_internal (client : jack_client_internal_t) : bool :=
  match c_type (control client) with
  | ClientInternal | ClientDriver => true
  | ClientExternal => false
  end.

(** [*client], and [*client = v]. *)
Definition get_client (e : jack_engine_t) (c : nat) : outcome jack_client_internal_t :=
  fetch (client_mem e) c.

Definition put_client (e : jack_engine_t) (c : nat) (v : jack_client_internal_t)
    : outcome jack_engine_t :=
  mem ← store (client_mem e) c v;
  mret (set_client_mem e mem).

(** [client->error++] *)
Definition client_error_incr (e : jack_engine_t) (c : nat) : outcome jack_engine_t :=
  client ← get_client e c;
  put_client e c (set_error client (error client + 1)).

(** [for (node = l; node; node = jack_slist_next (node)) body] *)
Fixpoint for_each {A S : Type} (body : S -> A -> outcome S) (l : list A) (s : S) : outcome S :=
  match l with
  | [] => mret s
  | x :: l' => s' ← body s x; for_each body l' s'
  end.

(** [jack_client_internal_by_id]: the first client of the list with that id. *)
Fixpoint client_by_id_from (e : jack_engine_t) (node : list nat) (cid : Z) : outcome (option nat) :=
  match node with
  | [] => mret None
  | c :: node' =>
      client ← get_client e c;
      if c_id (control client) =? cid then mret (Some c)
      else client_by_id_from e node' cid
  end.

Definition jack_client_internal_by_id (e : jack_engine_t) (cid : Z) : outcome (option nat) :=
  client_by_id_from e (clients e) cid.

(** ** FIFOs *)

(** The tail of [jack_get_fifo_fd], from the test of [fifo_size] on.  When
    [which_fifo >= fifo_size] the C code asks [realloc] for
    [sizeof (int) * fifo_size + 16] bytes, room for four more descriptors,
    and then stores sixteen: it writes past the block. *)
Definition fifo_fd_open (e : jack_engine_t) (which_fifo : nat) : outcome (Z * jack_engine_t) :=
  if (length (fifo e) <=? which_fifo)%nat then Undefined
  else
    cur ← fetch (fifo e) which_fifo;
    if cur <? 0 then
      let '(op, e) := os_call e in                      (* open *)
      let e := set_fifo e (<[which_fifo := ret op]> (fifo e)) in
      if ret op <? 0 then mret (-1, e) else mret (ret op, e)
    else mret (cur, e).

Definition jack_get_fifo_fd (e : jack_engine_t) (which_fifo : nat) : outcome (Z * jack_engine_t) :=
  let '(st, e) := os_call e in                          (* stat *)
  if negb (ok st) then
    if enoent st then
      let '(mk, e) := os_call e in                      (* mknod *)
      if negb (ok mk) then mret (-1, e) else fifo_fd_open e which_fifo
    else mret (-1, e)
  else
    if negb (is_fifo st) then mret (-1, e) else fifo_fd_open e which_fifo.

(** [jack_clear_fifos]: one read on every open FIFO. *)
Definition jack_clear_fifos (e : jack_engine_t) : jack_engine_t :=
  fold_left (fun e fd => if 0 <=? fd then snd (os_call e) else e) (fifo e) e.

(** ** Event delivery *)

(** The [switch] of [jack_deliver_event] for an in-process client: does
    the event reach a handler of the client? *)
Definition internal_handles (ctl : jack_client_control_t) (t : EventType) : bool :=
  match t with
  | PortConnected | PortDisconnected => true
  | BufferSizeChange => true
  | SampleRateChange => srate ctl
  | GraphReordered => graph_order ctl
  | XRun => xrun ctl
  | NewPortType => true
  | PortRegistered | PortUnregistered => false
  end.

Definition jack_deliver_event (e : jack_engine_t) (c : nat) (event : jack_event_t)
    : outcome (Z * jack_engine_t) :=
  client ← get_client e c;
  if dead (control client) then mret (0, e)
  else if jack_client_is_internal client then
    if internal_handles (control client) (ev_type event)
    then mret (0, emit (Callback c event) e)
    else mret (0, e)
  else
    let '(w, e) := os_call e in                         (* write (client->event_fd, ...) *)
    let e := emit (EventWritten c event) e in
    e ← (if negb (ok w) then client_error_incr e c else mret e);
    client ← get_client e c;
    (* the read; where it is skipped or fails, status is what the
       environment left in it *)
    let '(r, e) := os_call e in
    e ← (if (error client =? 0) && negb (ok r) then client_error_incr e c else mret e);
    e ← (if negb (byte r =? 0) then client_error_incr e c else mret e);
    mret (0, e).

(** ** Port slots and buffers *)

(** The scan of [jack_get_free_port]: slots [i], [i+1], ... [i+n-1]. *)
Fixpoint first_free_port (tbl : list jack_port_shared_t) (i n : nat) : outcome (option nat) :=
  match n with
  | O => mret None
  | S n' =>
      p ← fetch tbl i;
      if in_use p then first_free_port tbl (S i) n' else mret (Some i)
  end.

(** [jack_get_free_port]; [None] is [(jack_port_id_t) -1]. *)
Definition jack_get_free_port (e : jack_engine_t) : outcome (option nat * jack_engine_t) :=
  r ← first_free_port (shared_ports (ectl e)) 0 (port_max e);
  match r with
  | Some i =>
      p ← fetch (shared_ports (ectl e)) i;
      mret (Some i, set_ectl e (set_shared_ports (ectl e)
                                  (<[i := set_in_use p true]> (shared_ports (ectl e)))))
  | None => mret (None, e)
  end.

(** [jack_global_port_type_info]: the index of the engine's copy. *)
Definition jack_global_port_type_info (e : jack_engine_t) (port : nat) : outcome nat :=
  ip ← fetch (internal_ports e) port;
  sh ← fetch (shared_ports (ectl e)) (shared ip);
  mret (type_id (type_info sh)).

Definition jack_port_release (e : jack_engine_t) (port : nat) : outcome jack_engine_t :=
  ip ← fetch (internal_ports e) port;
  sh ← fetch (shared_ports (ectl e)) (shared ip);
  let e := set_ectl e (set_shared_ports (ectl e)
                         (<[shared ip := set_in_use sh false]> (shared_ports (ectl e)))) in
  match buffer_info ip with
  | Some bi =>
      ti ← jack_global_port_type_info e port;
      info ← fetch (port_types (ectl e)) ti;
      let info := set_buffer_freelist info (bi :: buffer_freelist info) in
      let e := set_ectl e (set_port_types (ectl e) (<[ti := info]> (port_types (ectl e)))) in
      mret (set_internal_ports e (<[port := set_buffer_info ip None]> (internal_ports e)))
  | None => mret e
  end.

Definition jack_port_assign_buffer (e : jack_engine_t) (port : nat) : outcome (Z * jack_engine_t) :=
  ti ← jack_global_port_type_info e port;
  port_type ← fetch (port_types (ectl e)) ti;
  ip ← fetch (internal_ports e) port;
  sh ← fetch (shared_ports (ectl e)) (shared ip);
  if has_flag (flags sh) JackPortIsInput then
    mret (0, set_ectl e (set_shared_ports (ectl e)
                           (<[shared ip := set_offset sh 0]> (shared_ports (ectl e)))))
  else
    match buffer_freelist port_type with
    | [] => mret (-1, e)
    | bi :: _ =>
        let port_type := set_buffer_freelist port_type
                           (jack_slist_remove same_buffer (buffer_freelist port_type) bi) in
        let e := set_ectl e (set_port_types (ectl e) (<[ti := port_type]> (port_types (ectl e)))) in
        let e := set_ectl e (set_shared_ports (ectl e)
                               (<[shared ip := set_offset sh (bi_offset bi)]> (shared_ports (ectl e)))) in
        mret (0, set_internal_ports e (<[port := set_buffer_info ip (Some bi)]> (internal_ports e)))
    end.

(** The scan of [jack_get_port_by_name]. *)
Fixpoint port_by_name_from (tbl : list jack_port_shared_t) (nm : string) (i n : nat)
    : outcome (option nat) :=
  match n with
  | O => mret None
  | S n' =>
      p ← fetch tbl i;
      if in_use p && String.eqb (name p) nm then mret (Some i)
      else port_by_name_from tbl nm (S i) n'
  end.

Definition jack_get_port_by_name (e : jack_engine_t) (nm : string) : outcome (option nat) :=
  port_by_name_from (shared_ports (ectl e)) nm 0 (port_max e).

(** ** Notifications *)

Definition jack_port_registration_notify (e : jack_engine_t) (port_id : nat) (yn : bool)
    : outcome jack_engine_t :=
  let event := {| ev_type := if yn then PortRegistered else PortUnregistered;
                  ev_x := Some (Z.of_nat port_id); ev_y := None |} in
  for_each (fun e c =>
    client ← get_client e c;
    if negb (active (control client)) then mret e
    else if port_register (control client) then
      '(_, e) ← jack_deliver_event e c event; mret e
    else mret e) (clients e) e.

Definition jack_send_connection_notification (e : jack_engine_t) (cid : Z)
    (self_id other_id : nat) (connected : bool) : outcome (Z * jack_engine_t) :=
  r ← jack_client_internal_by_id e cid;
  match r with
  | None => mret (-1, e)
  | Some c =>
      client ← get_client e c;
      if active (control client) then
        let event := {| ev_type := if connected then PortConnected else PortDisconnected;
                        ev_x := Some (Z.of_nat self_id);
                        ev_y := Some (Z.of_nat other_id) |} in
        '(r, e) ← jack_deliver_event e c event;
        if negb (r =? 0) then mret (-1, e) else mret (0, e)
      else mret (0, e)
  end.

(** ** Rechaining the FIFOs *)

(** The locals of [jack_rechain_graph]: [n], [subgraph_client], [event]. *)
Record rechain_state : Type := {
  rc_n : Z;
  rc_subgraph_client : option nat;
  rc_event : jack_event_t;
  rc_engine : jack_engine_t
}.

(** The inner [while (next)]: how many nodes it steps over before it
    stands on an active client or on [NULL]. *)
Fixpoint count_inactive (e : jack_engine_t) (next : list nat) : outcome nat :=
  match next with
  | [] => mret O
  | c :: next' =>
      client ← get_client e c;
      if active (control client) then mret O
      else k ← count_inactive e next'; mret (S k)
  end.

(** The body of the loop for an active client [c]. *)
Definition rechain_client (s : rechain_state) (c : nat) (next_client : option nat)
    : outcome rechain_state :=
  let n := rc_n s in
  let e := rc_engine s in
  client ← get_client e c;
  e ← put_client e c (set_order_and_next client n next_client);
  if jack_client_is_internal client then
    '(n, e) ← match rc_subgraph_client s with
              | Some sg =>
                  '(fd, e) ← jack_get_fifo_fd e (Z.to_nat n);
                  sgc ← get_client e sg;
                  e ← put_client e sg (set_subgraph_wait_fd sgc fd);
                  mret (n + 1, e)
              | None => mret (n, e)
              end;
    '(_, e) ← jack_deliver_event e c (rc_event s);
    mret {| rc_n := n; rc_subgraph_client := None; rc_event := rc_event s; rc_engine := e |}
  else
    '(sg, e) ← match rc_subgraph_client s with
               | None =>
                   '(fd, e) ← jack_get_fifo_fd e (Z.to_nat n);
                   cl ← get_client e c;
                   e ← put_client e c (set_subgraph_start_fd cl fd);
                   mret (c, e)
               | Some sg =>
                   sgc ← get_client e sg;
                   e ← put_client e sg (set_subgraph_wait_fd sgc (-1));
                   mret (sg, e)
               end;
    cl ← get_client e c;
    '(_, e) ← jack_get_fifo_fd e (Z.to_nat (execution_order cl + 1));
    cl ← get_client e c;
    let event := {| ev_type := ev_type (rc_event s);
                    ev_x := Some (execution_order cl);
                    ev_y := ev_y (rc_event s) |} in
    '(_, e) ← jack_deliver_event e c event;
    mret {| rc_n := n + 1; rc_subgraph_client := Some sg; rc_event := event; rc_engine := e |}.

(** The [for] loop.  [skip] counts the nodes that [node = next] jumps
    over: the inner [while] has already found them inactive. *)
Fixpoint rechain_loop (node : list nat) (skip : nat) (s : rechain_state) : outcome rechain_state :=
  match node with
  | [] => mret s
  | c :: rest =>
      match skip with
      | S k => rechain_loop rest k s
      | O =>
          client ← get_client (rc_engine s) c;
          if active (control client) then
            k ← count_inactive (rc_engine s) rest;
            s' ← rechain_client s c (rest !! k);
            rechain_loop rest k s'
          else rechain_loop rest O s
      end
  end.

Definition jack_rechain_graph (e : jack_engine_t) : outcome (Z * jack_engine_t) :=
  let e := jack_clear_fifos e in
  s ← rechain_loop (clients e) O
        {| rc_n := 0; rc_subgraph_client := None;
           rc_event := {| ev_type := GraphReordered; ev_x := None; ev_y := None |};
           rc_engine := e |};
  match rc_subgraph_client s with
  | Some sg =>
      '(fd, e) ← jack_get_fifo_fd (rc_engine s) (Z.to_nat (rc_n s));
      sgc ← get_client e sg;
      e ← put_client e sg (set_subgraph_wait_fd sgc fd);
      mret (0, e)
  | None => mret (0, rc_engine s)
  end.

(** ** The fed-by closure *)

(** The [for] loop of [jack_trace_terminal] over the copy of the fed-by
    list of [c1]; [recurse] is the recursive call. *)
Fixpoint trace_each (recurse : jack_engine_t -> nat -> outcome jack_engine_t)
    (c1 rbase : nat) (node : list nat) (e : jack_engine_t) : outcome jack_engine_t :=
  match node with
  | [] => mret e
  | c2 :: node' =>
      e ← (if negb (Nat.eqb c2 rbase) && negb (Nat.eqb c2 c1) then
             rb ← get_client e rbase;
             e ← (if jack_slist_find (fed_by rb) c2 then mret e
                  else put_client e rbase (set_fed_by rb (c2 :: fed_by rb)));
             cl2 ← get_client e c2;
             if jack_slist_find (fed_by cl2) c1 then mret e
             else recurse e c2
           else mret e);
      trace_each recurse c1 rbase node' e
  end.

Fixpoint jack_trace_terminal (fuel : nat) (e : jack_engine_t) (c1 rbase : nat)
    : outcome jack_engine_t :=
  match fuel with
  | O => OutOfFuel
  | S fuel' =>
      cl1 ← get_client e c1;
      match fed_by cl1 with
      | [] => mret e
      | existing =>
          trace_each (fun e c2 => jack_trace_terminal fuel' e c2 rbase) c1 rbase existing e
      end
  end.

(** ** The comparator of the sort *)

Definition jack_client_sort (e : jack_engine_t) (a b : nat) : outcome Z :=
  ca ← get_client e a;
  cb ← get_client e b;
  if jack_slist_find (fed_by ca) b then
    if jack_slist_find (fed_by cb) a && bool_decide (c_type (control ca) = ClientDriver)
    then mret (-1)
    else mret 1
  else if jack_slist_find (fed_by cb) a then
    if jack_slist_find (fed_by ca) b && bool_decide (c_type (control cb) = ClientDriver)
    then mret 1
    else mret (-1)
  else mret 0.

(** The comparator as [jack_slist_sort] receives it.  Every client of the
    list has been read by then, so the default is never used. *)
Definition client_compare (e : jack_engine_t) (a b : nat) : Z :=
  match jack_client_sort e a b with
  | Done z => z
  | _ => 0
  end.

(** ** Who feeds whom *)

(** The inner loop of [jack_client_feeds] over one port's connections. *)
Fixpoint connection_feeds (e : jack_engine_t) (cnode : list jack_connection_internal_t)
    (might_id target_id : Z) : outcome bool :=
  match cnode with
  | [] => mret false
  | c :: cnode' =>
      src ← fetch (internal_ports e) (source c);
      ssh ← fetch (shared_ports (ectl e)) (shared src);
      if client_id ssh =? might_id then
        dst ← fetch (internal_ports e) (destination c);
        dsh ← fetch (shared_ports (ectl e)) (shared dst);
        if client_id dsh =? target_id then mret true
        else connection_feeds e cnode' might_id target_id
      else connection_feeds e cnode' might_id target_id
  end.

Fixpoint port_feeds (e : jack_engine_t) (pnode : list nat) (might_id target_id : Z)
    : outcome bool :=
  match pnode with
  | [] => mret false
  | p :: pnode' =>
      port ← fetch (internal_ports e) p;
      r ← connection_feeds e (connections port) might_id target_id;
      if (r : bool) then mret true else port_feeds e pnode' might_id target_id
  end.

Definition jack_client_feeds (e : jack_engine_t) (might target : nat) : outcome bool :=
  m ← get_client e might;
  t ← get_client e target;
  port_feeds e (ports m) (c_id (control m)) (c_id (control t)).

(** ** Total latency *)

(** The [for] loop of [jack_get_port_total_latency] over the connections
    of [port]; [recurse] is the recursive call, at [hop_count + 1]. *)
Fixpoint max_over_connections (recurse : nat -> outcome Z) (e : jack_engine_t)
    (port : nat) (ip : jack_port_internal_t) (toward_port : bool)
    (node : list jack_connection_internal_t) (max_latency : Z) : outcome Z :=
  match node with
  | [] => mret max_latency
  | connection :: node' =>
      skip ← (if toward_port then
                s ← fetch (internal_ports e) (source connection);
                mret (Nat.eqb (shared s) (shared ip))
              else
                d ← fetch (internal_ports e) (destination connection);
                mret (Nat.eqb (shared d) (shared ip)));
      if (skip : bool) then max_over_connections recurse e port ip toward_port node' max_latency
      else
        this_latency ←
          (if Nat.eqb (destination connection) port then
             s ← fetch (internal_ports e) (source connection);
             ssh ← fetch (shared_ports (ectl e)) (shared s);
             if has_flag (flags ssh) JackPortIsTerminal then mret (latency ssh)
             else recurse (source connection)
           else
             d ← fetch (internal_ports e) (destination connection);
             dsh ← fetch (shared_ports (ectl e)) (shared d);
             if has_flag (flags dsh) JackPortIsTerminal then mret (latency dsh)
             else recurse (destination connection));
        max_over_connections recurse e port ip toward_port node'
          (if this_latency >? max_latency then this_latency else max_latency)
  end.

Fixpoint jack_get_port_total_latency (fuel : nat) (e : jack_engine_t) (port : nat)
    (hop_count : Z) (toward_port : bool) : outcome Z :=
  match fuel with
  | O => OutOfFuel
  | S fuel' =>
      ip ← fetch (internal_ports e) port;
      sh ← fetch (shared_ports (ectl e)) (shared ip);
      let latency' := latency sh in
      if hop_count >? 8 then mret latency'
      else
        max_latency ←
          max_over_connections
            (fun p => jack_get_port_total_latency fuel' e p (hop_count + 1) toward_port)
            e port ip toward_port (connections ip) 0;
        mret (nframes_add latency' max_latency)
  end.

(** One turn of the loop of [jack_compute_all_port_total_latencies], for
    slot [i] of the port table. *)
Definition relatency (fuel : nat) (e : jack_engine_t) (i : nat) : outcome jack_engine_t :=
  sh ← fetch (shared_ports (ectl e)) i;
  if in_use sh then
    let toward_port := negb (has_flag (flags sh) JackPortIsOutput) in
    v ← jack_get_port_total_latency fuel e i 0 toward_port;
    tbl ← store (shared_ports (ectl e)) i (set_total_latency sh v);
    mret (set_ectl e (set_shared_ports (ectl e) tbl))
  else mret e.

Definition jack_compute_all_port_total_latencies (fuel : nat) (e : jack_engine_t)
    : outcome jack_engine_t :=
  for_each (relatency fuel) (seq 0 (ctl_port_max (ectl e))) e.

(** ** Requests on ports *)

(** The [port_info] arm of a [jack_request_t]. *)
Record jack_request_t : Type := {
  req_name : string;
  req_type : string;
  req_flags : Z;
  req_client_id : Z;
  req_port_id : Z
}.

Definition set_req_port_id (r : jack_request_t) (v : Z) : jack_request_t :=
  {| req_name := req_name r; req_type := req_type r; req_flags := req_flags r;
     req_client_id := req_client_id r; req_port_id := v |}.

(** The first loop of [jack_port_do_register]: the index at which it
    breaks, [length] of the table when it runs to the end. *)
Fixpoint find_port_type (types : list jack_port_type_info_t) (nm : string) (i : nat) : nat :=
  match types with
  | [] => i
  | t :: types' => if String.eqb nm (type_name t) then i else find_port_type types' nm (S i)
  end.

(** The assignments to [*shared] in [jack_port_do_register]. *)
Definition fill_shared (p : jack_port_shared_t) (req : jack_request_t)
    (ti : jack_port_type_info_t) : jack_port_shared_t :=
  {| id := id p; name := req_name req; type_info := ti; client_id := req_client_id req;
     flags := req_flags req; in_use := in_use p; locked := false; latency := 0;
     total_latency := total_latency p; offset := offset p; monitor_requests := 0 |}.

Definition jack_port_do_register (e : jack_engine_t) (req : jack_request_t)
    : outcome (Z * jack_request_t * jack_engine_t) :=
  let i := find_port_type (port_types (ectl e)) (req_type req) 0 in
  if Nat.eqb i (length (port_types (ectl e))) then mret (-1, req, e)
  else
    r ← jack_client_internal_by_id e (req_client_id req);
    match r with
    | None => mret (-1, req, e)
    | Some client =>
        '(free, e) ← jack_get_free_port e;
        match free with
        | None => mret (-1, req, e)
        | Some port_id =>
            sh ← fetch (shared_ports (ectl e)) port_id;
            ti ← fetch (port_types (ectl e)) i;
            let e := set_ectl e (set_shared_ports (ectl e)
                                   (<[port_id := fill_shared sh req ti]> (shared_ports (ectl e)))) in
            port ← fetch (internal_ports e) port_id;
            let e := set_internal_ports e
                       (<[port_id := {| shared := port_id; connections := [];
                                        buffer_info := buffer_info port |}]> (internal_ports e)) in
            '(failed, e) ← jack_port_assign_buffer e port_id;
            if negb (failed =? 0) then mret (-1, req, e)
            else
              cl ← get_client e client;
              e ← put_client e client (set_ports cl (port_id :: ports cl));
              e ← jack_port_registration_notify e port_id true;
              mret (0, set_req_port_id req (Z.of_nat port_id), e)
        end
    end.

(** ** Processing the clients *)

Definition set_state (c : jack_client_control_t) (v : jack_client_state_t) : jack_client_control_t :=
  {| c_id := c_id c; c_name := c_name c; c_type := c_type c; active := active c;
     dead := dead c; state := v; c_nframes := c_nframes c;
     timed_out := timed_out c; signalled_at := signalled_at c; awake_at := awake_at c;
     finished_at := finished_at c;
     process := process c; xrun := xrun c; port_register := port_register c;
     graph_order := graph_order c; bufsize := bufsize c; srate := srate c |}.

(** [ctl->state = NotTriggered; ctl->nframes = nframes; ctl->timed_out = 0;] *)
Definition reset_control (c : jack_client_control_t) (nframes : Z) : jack_client_control_t :=
  {| c_id := c_id c; c_name := c_name c; c_type := c_type c; active := active c;
     dead := dead c; state := NotTriggered; c_nframes := nframes;
     timed_out := 0; signalled_at := signalled_at c; awake_at := awake_at c;
     finished_at := finished_at c;
     process := process c; xrun := xrun c; port_register := port_register c;
     graph_order := graph_order c; bufsize := bufsize c; srate := srate c |}.

(** [jack_process_internal]; the reply of the environment is what the
    process callback returns. *)
Definition jack_process_internal (e : jack_engine_t) (node : list nat) (nframes : Z)
    : outcome (list nat * jack_engine_t) :=
  match node with
  | [] => Undefined
  | c :: rest =>
      client ← get_client e c;
      if process (control client) then
        e ← put_client e c (set_control client (set_state (control client) Running));
        let e := set_current_client e (Some c) in
        let '(r, e) := os_call e in
        let e := emit (ProcessCall c nframes) e in
        if negb (ret r =? 0) then
          mret ([], set_process_errors e (process_errors e + 1))
        else
          client ← get_client e c;
          e ← put_client e c (set_control client (set_state (control client) Finished));
          mret (rest, e)
      else
        e ← put_client e c (set_control client (set_state (control client) Finished));
        mret (rest, e)
  end.

(** [jack_process_external], first part: mark the client triggered and
    write the byte that starts its subgraph.  The boolean tells whether
    the write went through. *)
Definition trigger_subgraph (e : jack_engine_t) (c : nat) : outcome (bool * jack_engine_t) :=
  client ← get_client e c;
  let '(now, e) := os_call e in                         (* jack_get_microseconds *)
  e ← put_client e c (set_control client (trigger_control (control client) (ret now)));
  let e := set_current_client e (Some c) in
  let '(w, e) := os_call e in                           (* write (client->subgraph_start_fd, ...) *)
  let e := emit (SubgraphStart (subgraph_start_fd client)) e in
  mret (ok w, e).

(** Second part: the wait on [subgraph_wait_fd], and its [status].  While
    the engine waits the client process runs and may stamp [awake_at] in
    its control block.  In the [poll] arm the assignments of -1 and -2 are
    overwritten by the [if]/[else] on [POLLIN] that follows them. *)
Definition wait_for_subgraph (e : jack_engine_t) (c : nat) : outcome (Z * jack_engine_t) :=
  client ← get_client e c;
  if asio_mode e then
    let '(r, e) := os_call e in                         (* driver->wait *)
    let e := emit (DriverWait (subgraph_wait_fd client)) e in
    e ← put_client e c (set_control client (set_awake_at (control client) (client_awake_at r)));
    mret (wait_status r, e)
  else
    let poll_timeout := if real_time (ectl e) then period_usecs e / 1000
                        else client_timeout_msecs e in
    let '(r, e) := os_call e in                         (* poll *)
    let e := emit (PollWait (subgraph_wait_fd client) poll_timeout) e in
    e ← put_client e c (set_control client (set_awake_at (control client) (client_awake_at r)));
    if has_flag (revents r) POLLIN then mret (0, e) else mret (1, e).

(** The closing [while]: on to the next internal client, or to the end. *)
Fixpoint skip_to_internal (e : jack_engine_t) (node : list nat) : outcome (list nat) :=
  match node with
  | [] => mret []
  | c :: node' =>
      client ← get_client e c;
      if jack_client_is_internal client then mret node
      else skip_to_internal e node'
  end.

(** Third part, from [if (status != 0)] on. *)
Definition finish_subgraph (e : jack_engine_t) (node : list nat) (c : nat) (status : Z)
    : outcome (list nat * jack_engine_t) :=
  if negb (status =? 0) then
    client ← get_client e c;
    e ← (if awake_at (control client) >? 0
         then put_client e c (set_control client
                (set_timed_out (control client) (timed_out (control client) + 1)))
         else mret e);
    mret ([], set_process_errors e (process_errors e + 1))
  else
    let '(r, e) := os_call e in                         (* read (client->subgraph_wait_fd, ...) *)
    if negb (ok r) then
      e ← client_error_incr e c;
      mret ([], e)
    else
      node ← skip_to_internal e node;
      mret (node, e).

Definition jack_process_external (e : jack_engine_t) (node : list nat)
    : outcome (list nat * jack_engine_t) :=
  match node with
  | [] => Undefined
  | c :: _ =>
      '(started, e) ← trigger_subgraph e c;
      if negb started then mret ([], set_process_errors e (process_errors e + 1))
      else
        '(status, e) ← wait_for_subgraph e c;
        finish_subgraph e node c status
  end.

(** The second loop of [jack_engine_process].  Each turn leaves a proper
    suffix of [node]; [fuel] bounds the number of turns. *)
Fixpoint engine_process_loop (fuel : nat) (e : jack_engine_t) (node : list nat) (nframes : Z)
    : outcome jack_engine_t :=
  if negb (process_errors e =? 0) then mret e
  else
    match node with
    | [] => mret e
    | c :: rest =>
        match fuel with
        | O => OutOfFuel
        | S fuel' =>
            client ← get_client e c;
            if negb (active (control client)) || dead (control client) then
              engine_process_loop fuel' e rest nframes
            else if jack_client_is_internal client then
              '(node', e) ← jack_process_internal e node nframes;
              engine_process_loop fuel' e node' nframes
            else
              '(node', e) ← jack_process_external e node;
              engine_process_loop fuel' e node' nframes
        end
    end.

Definition jack_engine_process (e : jack_engine_t) (nframes : Z) : outcome (Z * jack_engine_t) :=
  let e := set_process_errors e 0 in
  e ← for_each (fun e c =>
         client ← get_client e c;
         put_client e c (set_control client (reset_control (control client) nframes)))
       (clients e) e;
  e ← engine_process_loop (length (clients e)) e (clients e) nframes;
  mret (if process_errors e >? 0 then 1 else 0, e).

Section Engine.

(** [jack_slist_sort] is defined in jslist.h, which is not among the
    sources: the development is parametric in it. *)
Variable jack_slist_sort : (nat -> nat -> Z) -> list nat -> list nat.

(** [jack_engine_post_process] (removal of failed clients, CPU load) is
    not embedded; [jack_run_cycle] is parametric in it. *)
Variable jack_engine_post_process : jack_engine_t -> outcome jack_engine_t.

(** ** Sorting the graph *)

(** Step 1 of [jack_sort_graph] for one client: who feeds it directly. *)
Definition direct_feeders (e : jack_engine_t) (client : nat) : outcome jack_engine_t :=
  cl ← get_client e client;
  e ← put_client e client (set_fed_by cl []);
  for_each (fun e oclient =>
    feeds ← jack_client_feeds e oclient client;
    if (feeds : bool) then
      cl ← get_client e client;
      put_client e client (set_fed_by cl (oclient :: fed_by cl))
    else mret e) (clients e) e.

Definition jack_sort_graph (fuel : nat) (e : jack_engine_t) : outcome jack_engine_t :=
  e ← for_each direct_feeders (clients e) e;
  e ← for_each (fun e c => jack_trace_terminal fuel e c c) (clients e) e;
  let e := set_clients e (jack_slist_sort (client_compare e) (clients e)) in
  e ← jack_compute_all_port_total_latencies fuel e;
  '(_, e) ← jack_rechain_graph e;
  mret e.

(** ** Connecting and disconnecting *)

Definition jack_port_do_connect (fuel : nat) (e : jack_engine_t)
    (source_port destination_port : string) : outcome (Z * jack_engine_t) :=
  r ← jack_get_port_by_name e source_port;
  match r with
  | None => mret (-1, e)
  | Some srcport =>
  r ← jack_get_port_by_name e destination_port;
  match r with
  | None => mret (-1, e)
  | Some dstport =>
  src ← fetch (internal_ports e) srcport;
  dst ← fetch (internal_ports e) dstport;
  ssh ← fetch (shared_ports (ectl e)) (shared src);
  dsh ← fetch (shared_ports (ectl e)) (shared dst);
  if negb (has_flag (flags dsh) JackPortIsInput) then mret (-1, e)
  else if negb (has_flag (flags ssh) JackPortIsOutput) then mret (-1, e)
  else if locked ssh then mret (-1, e)
  else if locked dsh then mret (-1, e)
  else if negb (Nat.eqb (type_id (type_info ssh)) (type_id (type_info dsh))) then mret (-1, e)
  else
  r ← jack_client_internal_by_id e (client_id ssh);
  match r with
  | None => mret (-1, e)
  | Some client =>
  cl ← get_client e client;
  if negb (active (control cl)) then mret (-1, e)
  else
  r ← jack_client_internal_by_id e (client_id dsh);
  match r with
  | None => mret (-1, e)
  | Some client =>
  cl ← get_client e client;
  if negb (active (control cl)) then mret (-1, e)
  else
    let connection := {| conn_addr := next_conn_addr e;
                         source := srcport; destination := dstport |} in
    let e := set_next_conn_addr e (S (next_conn_addr e)) in
    let src_id := id ssh in
    let dst_id := id dsh in
    if negb (match connections dst with [] => true | _ => false end)
       && negb (mixdown (type_info dsh))
    then mret (-1, e)
    else
      let e := set_internal_ports e
                 (<[dstport := set_connections dst (connection :: connections dst)]>
                    (internal_ports e)) in
      src ← fetch (internal_ports e) srcport;
      let e := set_internal_ports e
                 (<[srcport := set_connections src (connection :: connections src)]>
                    (internal_ports e)) in
      e ← jack_sort_graph fuel e;
      src ← fetch (internal_ports e) srcport;
      ssh ← fetch (shared_ports (ectl e)) (shared src);
      '(_, e) ← jack_send_connection_notification e (client_id ssh) src_id dst_id true;
      dst ← fetch (internal_ports e) dstport;
      dsh ← fetch (shared_ports (ectl e)) (shared dst);
      '(_, e) ← jack_send_connection_notification e (client_id dsh) dst_id src_id true;
      mret (0, e)
  end end end end.

(** The search of [jack_port_disconnect_internal]: the first connection
    of the list from [srcport] to [dstport]. *)
Fixpoint find_connection (node : list jack_connection_internal_t) (srcport dstport : nat)
    : option jack_connection_internal_t :=
  match node with
  | [] => None
  | connect :: node' =>
      if Nat.eqb (source connect) srcport && Nat.eqb (destination connect) dstport
      then Some connect
      else find_connection node' srcport dstport
  end.

Definition jack_port_disconnect_internal (fuel : nat) (e : jack_engine_t)
    (srcport dstport : nat) (sort_graph : bool) : outcome (Z * jack_engine_t) :=
  src ← fetch (internal_ports e) srcport;
  '(ret, e) ←
    match find_connection (connections src) srcport dstport with
    | Some connect =>
        let e := set_internal_ports e
                   (<[srcport := set_connections src
                                   (jack_slist_remove same_conn (connections src) connect)]>
                      (internal_ports e)) in
        dst ← fetch (internal_ports e) dstport;
        let e := set_internal_ports e
                   (<[dstport := set_connections dst
                                   (jack_slist_remove same_conn (connections dst) connect)]>
                      (internal_ports e)) in
        src ← fetch (internal_ports e) srcport;
        dst ← fetch (internal_ports e) dstport;
        ssh ← fetch (shared_ports (ectl e)) (shared src);
        dsh ← fetch (shared_ports (ectl e)) (shared dst);
        let src_id := id ssh in
        let dst_id := id dsh in
        let e := match connections src with
                 | [] => set_ectl e (set_shared_ports (ectl e)
                           (<[shared src := set_monitor_requests ssh 0]> (shared_ports (ectl e))))
                 | _ => e
                 end in
        '(_, e) ← jack_send_connection_notification e (client_id ssh) src_id dst_id false;
        dsh ← fetch (shared_ports (ectl e)) (shared dst);
        '(_, e) ← jack_send_connection_notification e (client_id dsh) dst_id src_id false;
        mret (0, e)
    | None => mret (-1, e)
    end;
  if sort_graph then e ← jack_sort_graph fuel e; mret (ret, e)
  else mret (ret, e).

(** [jack_port_clear_connections] walks the list as it stood on entry. *)
Definition jack_port_clear_connections (fuel : nat) (e : jack_engine_t) (port : nat)
    : outcome jack_engine_t :=
  p ← fetch (internal_ports e) port;
  e ← for_each (fun e connect =>
         '(_, e) ← jack_port_disconnect_internal fuel e (source connect) (destination connect) false;
         mret e) (connections p) e;
  p ← fetch (internal_ports e) port;
  mret (set_internal_ports e (<[port := set_connections p []]> (internal_ports e))).

Definition jack_port_do_disconnect_all (fuel : nat) (e : jack_engine_t) (port_id : nat)
    : outcome (Z * jack_engine_t) :=
  if (ctl_port_max (ectl e) <=? port_id)%nat then mret (-1, e)
  else
    e ← jack_port_clear_connections fuel e port_id;
    e ← jack_sort_graph fuel e;
    mret (0, e).

Definition jack_port_do_disconnect (fuel : nat) (e : jack_engine_t)
    (source_port destination_port : string) : outcome (Z * jack_engine_t) :=
  r ← jack_get_port_by_name e source_port;
  match r with
  | None => mret (-1, e)
  | Some srcport =>
      r ← jack_get_port_by_name e destination_port;
      match r with
      | None => mret (-1, e)
      | Some dstport => jack_port_disconnect_internal fuel e srcport dstport true
      end
  end.

(** [req->x.port_info.port_id] is kept as the integer the request holds,
    so that the test [port_id < 0] keeps its meaning. *)
Definition jack_port_do_unregister (fuel : nat) (e : jack_engine_t) (req : jack_request_t)
    : outcome (Z * jack_engine_t) :=
  if (req_port_id req <? 0) || (req_port_id req >? Z.of_nat (port_max e)) then mret (-1, e)
  else
    let port_id := Z.to_nat (req_port_id req) in
    sh ← fetch (shared_ports (ectl e)) port_id;
    if negb (client_id sh =? req_client_id req) then mret (-1, e)
    else
      r ← jack_client_internal_by_id e (client_id sh);
      match r with
      | None => mret (-1, e)
      | Some client =>
          e ← jack_port_clear_connections fuel e port_id;
          e ← jack_port_release e port_id;
          cl ← get_client e client;
          e ← put_client e client (set_ports cl (jack_slist_remove Nat.eqb (ports cl) port_id));
          e ← jack_port_registration_notify e port_id false;
          mret (0, e)
      end.

(** ** The cycle *)

Definition jack_engine_notify_clients_about_delay (e : jack_engine_t) : outcome jack_engine_t :=
  let event := {| ev_type := XRun; ev_x := None; ev_y := None |} in
  for_each (fun e c => '(_, e) ← jack_deliver_event e c event; mret e) (clients e) e.

(** The guards of [jack_frame_timer_t] are unsigned counters, and [++]
    wraps them.  Their type is declared in jack/internal.h, which is not
    among the sources: [guard_modulus] is two to the power of its width,
    and the cycle runner is parametric in it. *)
Variable guard_modulus : Z.

(** [frames] is a [jack_nframes_t]. *)
Definition jack_inc_frame_time (e : jack_engine_t) (amount : Z) : jack_engine_t :=
  let time := frame_timer (ectl e) in
  set_ectl e (set_frame_timer (ectl e)
    {| guard1 := (guard1 time + 1) mod guard_modulus;
       frames := nframes_add (frames time) amount;
       stamp := last_wait_ust e;
       guard2 := (guard2 time + 1) mod guard_modulus |}).

Definition WORK_SCALE : Q := 1.

(** One driver call: its return value comes from the environment. *)
Definition driver_call (what : io_event) (e : jack_engine_t) : Z * jack_engine_t :=
  let '(r, e) := os_call e in (ret r, emit what e).

(** [jack_run_cycle].  [consecutive_excessive_delays] is the function's
    static counter: it comes in and goes out with the engine. *)
Definition jack_run_cycle (e : jack_engine_t) (consecutive_excessive_delays : Z)
    (nframes : Z) (delayed_usecs : Q) : outcome (Z * jack_engine_t * Z) :=
  let e := set_watchdog_check e 1 in
  if real_time (ectl e) && negb (Qeq_bool (spare_usecs e) 0)
     && Qle_bool (WORK_SCALE * spare_usecs e) delayed_usecs
  then
    let consecutive_excessive_delays := consecutive_excessive_delays + 1 in
    if consecutive_excessive_delays >? 10 then mret (-1, e, consecutive_excessive_delays)
    else
      let '(r, e) := driver_call DriverStop e in
      if negb (r =? 0) then mret (-1, e, consecutive_excessive_delays)
      else
        e ← jack_engine_notify_clients_about_delay e;
        let '(r, e) := driver_call DriverStart e in
        if negb (r =? 0) then mret (-1, e, consecutive_excessive_delays)
        else mret (0, e, consecutive_excessive_delays)
  else
    let consecutive_excessive_delays := 0 in
    let e := jack_inc_frame_time e nframes in
    let '(busy, e) := os_call e in                      (* pthread_mutex_trylock *)
    if negb (ret busy =? 0) then
      let '(_, e) := driver_call DriverNullCycle e in
      mret (0, e, consecutive_excessive_delays)
    else
      let '(r, e) := driver_call DriverRead e in
      if negb (r =? 0) then mret (-1, e, consecutive_excessive_delays)
      else
        '(failed, e) ← jack_engine_process e nframes;
        if negb (failed =? 0) then
          let '(_, e) := driver_call DriverStop e in
          e ← jack_engine_post_process e;
          let '(_, e) := driver_call DriverStart e in
          mret (0, e, consecutive_excessive_delays)
        else
          let '(r, e) := driver_call DriverWrite e in
          if negb (r =? 0) then mret (-1, e, consecutive_excessive_delays)
          else
            e ← jack_engine_post_process e;
            mret (0, e, consecutive_excessive_delays).

End Engine.

(** ** A sort for the examples *)

(** Modelled from the spec: [jack_slist_sort] (jslist.h) is missing from
    the sources; the spec says the sorter "stable-sorts clients" with the
    comparator.  This is the insertion sort that keeps clients the
    comparator does not separate in the order they had. *)
Fixpoint sort_insert (compare : nat -> nat -> Z) (x : nat) (l : list nat) : list nat :=
  match l with
  | [] => [x]
  | y :: l' => if compare x y <=? 0 then x :: l else y :: sort_insert compare x l'
  end.

Definition stable_sort (compare : nat -> nat -> Z) (l : list nat) : list nat :=
  foldr (sort_insert compare) [] l.

(** A post-process that finds nothing to do. *)
Definition idle_post_process (e : jack_engine_t) : outcome jack_engine_t := mret e.

(** ** Configurations for the examples *)

(** An environment in which every call succeeds, a FIFO opens on
    descriptor 0, and clients answer every event with status 0. *)
Definition calm_reply : os_reply :=
  {| ok := true; ret := 0; enoent := false; is_fifo := true; byte := 0;
     revents := POLLIN; wait_status := 0; client_awake_at := 0 |}.

Definition calm_os : nat -> os_reply := fun _ => calm_reply.

(** A control block as [jack_client_internal_new] leaves it, activated or
    not. *)
Definition new_control (cid : Z) (nm : string) (t : ClientType) (act : bool)
    : jack_client_control_t :=
  {| c_id := cid; c_name := nm; c_type := t; active := act; dead := false;
     state := NotTriggered; c_nframes := 0; timed_out := 0; signalled_at := 0;
     awake_at := 0; finished_at := 0; process := false; xrun := false;
     port_register := false; graph_order := false; bufsize := false; srate := false |}.

Definition new_client (cid : Z) (nm : string) (t : ClientType) (act : bool) (ps : list nat)
    : jack_client_internal_t :=
  {| control := new_control cid nm t act; request_fd := -1; event_fd := -1;
     subgraph_start_fd := -1; subgraph_wait_fd := -1; ports := ps; fed_by := [];
     execution_order := 4294967295; next_client := None; error := 0 |}.

Definition audio_type (freelist : list jack_port_buffer_info_t) : jack_port_type_info_t :=
  {| type_name := "32 bit float mono audio"; type_id := 0; mixdown := true;
     buffer_freelist := freelist |}.

(** A registered port. *)
Definition a_port (i : nat) (nm : string) (cid : Z) (fl : Z) (lat mon : Z) : jack_port_shared_t :=
  {| id := i; name := nm; type_info := audio_type []; client_id := cid; flags := fl;
     in_use := true; locked := false; latency := lat; total_latency := 0;
     offset := 0; monitor_requests := mon |}.

(** A slot of the port table as [jack_engine_new] leaves it. *)
Definition free_slot (i : nat) : jack_port_shared_t :=
  {| id := i; name := ""; type_info := audio_type []; client_id := 0; flags := 0;
     in_use := false; locked := false; latency := 0; total_latency := 0;
     offset := 0; monitor_requests := 0 |}.

Definition wired (i : nat) (conns : list jack_connection_internal_t) : jack_port_internal_t :=
  {| shared := i; connections := conns; buffer_info := None |}.

Definition a_conn (addr src dst : nat) : jack_connection_internal_t :=
  {| conn_addr := addr; source := src; destination := dst |}.

(** An engine over the given tables: sixteen closed FIFOs as
    [jack_engine_new] makes them, real-time off, a calm environment. *)
Definition an_engine (types : list jack_port_type_info_t) (sh : list jack_port_shared_t)
    (ips : list jack_port_internal_t) (cs : list nat) (mem : list jack_client_internal_t)
    : jack_engine_t :=
  {| ectl := {| ctl_port_max := length sh; shared_ports := sh; port_types := types;
                real_time := false;
                frame_timer := {| guard1 := 0; frames := 0; stamp := 0; guard2 := 0 |} |};
     port_max := length sh; internal_ports := ips; clients := cs; client_mem := mem;
     fifo := replicate 16 (-1); process_errors := 0; spare_usecs := 0;
     asio_mode := false; client_timeout_msecs := 500; period_usecs := 1000;
     current_client := None; next_conn_addr := 100; watchdog_check := 0;
     last_wait_ust := 0; os := calm_os; clock := 0; trace := [] |}.

(** The port table of the registration examples: one registered output
    port of client 7 and one free slot, over a port type whose free-list
    is empty. *)
Definition reg_engine : jack_engine_t :=
  an_engine [audio_type []]
    [a_port 0 "synth:out" 7 JackPortIsOutput 0 0; free_slot 1]
    [wired 0 []; wired 1 []]
    [0%nat]
    [set_control (new_client 7 "synth" ClientExternal true [0%nat])
       {| c_id := 7; c_name := "synth"; c_type := ClientExternal; active := true;
          dead := false; state := NotTriggered; c_nframes := 0; timed_out := 0;
          signalled_at := 0; awake_at := 0; finished_at := 0; process := true;
          xrun := false; port_register := true; graph_order := false;
          bufsize := false; srate := false |}].

Definition reg_request : jack_request_t :=
  {| req_name := "synth:out2"; req_type := "32 bit float mono audio";
     req_flags := JackPortIsOutput; req_client_id := 7; req_port_id := 0 |}.

(** An unregister request of client 7 that names the slot one past the
    end of the table. *)
Definition unreg_request_past_end : jack_request_t :=
  {| req_name := ""; req_type := ""; req_flags := 0; req_client_id := 7;
     req_port_id := 2 |}.

(** Four active clients in the order R, A, B, C.  A, B and C feed one
    another in a ring (B -> A, C -> B, A -> C) and A also feeds R.
    Ports: 0 R:in, 1 A:in, 2 A:out, 3 B:in, 4 B:out, 5 C:in, 6 C:out. *)
Definition ring_engine : jack_engine_t :=
  an_engine [audio_type []]
    [a_port 0 "R:in" 10 JackPortIsInput 0 0;
     a_port 1 "A:in" 11 JackPortIsInput 0 0; a_port 2 "A:out" 11 JackPortIsOutput 0 0;
     a_port 3 "B:in" 12 JackPortIsInput 0 0; a_port 4 "B:out" 12 JackPortIsOutput 0 0;
     a_port 5 "C:in" 13 JackPortIsInput 0 0; a_port 6 "C:out" 13 JackPortIsOutput 0 0]
    [wired 0 [a_conn 1 2 0];
     wired 1 [a_conn 2 4 1]; wired 2 [a_conn 4 2 5; a_conn 1 2 0];
     wired 3 [a_conn 3 6 3]; wired 4 [a_conn 2 4 1];
     wired 5 [a_conn 4 2 5]; wired 6 [a_conn 3 6 3]]
    [0; 1; 2; 3]%nat
    [new_client 10 "R" ClientExternal true [0%nat];
     new_client 11 "A" ClientExternal true [1; 2]%nat;
     new_client 12 "B" ClientExternal true [3; 4]%nat;
     new_client 13 "C" ClientExternal true [5; 6]%nat].

(** The clients and connections of [ring_engine] with the clients in the
    order A, R, B, C, and one more port, "R:out", that is not connected
    (port 7). *)
Definition return_engine : jack_engine_t :=
  an_engine [audio_type []]
    [a_port 0 "R:in" 10 JackPortIsInput 0 0;
     a_port 1 "A:in" 11 JackPortIsInput 0 0; a_port 2 "A:out" 11 JackPortIsOutput 0 0;
     a_port 3 "B:in" 12 JackPortIsInput 0 0; a_port 4 "B:out" 12 JackPortIsOutput 0 0;
     a_port 5 "C:in" 13 JackPortIsInput 0 0; a_port 6 "C:out" 13 JackPortIsOutput 0 0;
     a_port 7 "R:out" 10 JackPortIsOutput 0 0]
    [wired 0 [a_conn 1 2 0];
     wired 1 [a_conn 2 4 1]; wired 2 [a_conn 4 2 5; a_conn 1 2 0];
     wired 3 [a_conn 3 6 3]; wired 4 [a_conn 2 4 1];
     wired 5 [a_conn 4 2 5]; wired 6 [a_conn 3 6 3]; wired 7 []]
    [1; 0; 2; 3]%nat
    [new_client 10 "R" ClientExternal true [0; 7]%nat;
     new_client 11 "A" ClientExternal true [1; 2]%nat;
     new_client 12 "B" ClientExternal true [3; 4]%nat;
     new_client 13 "C" ClientExternal true [5; 6]%nat].

(** Clients 1, 2 and 3 feed one another in a ring and client 0 is there
    to collect them: the direct fed-by lists that make the walk from
    client 0 go round for ever. *)
Definition fed_in_a_ring (e : jack_engine_t) : Prop :=
  exists r a b c,
    client_mem e !! 0%nat = Some r /\
    client_mem e !! 1%nat = Some a /\ fed_by a = [2%nat] /\
    client_mem e !! 2%nat = Some b /\ fed_by b = [3%nat] /\
    client_mem e !! 3%nat = Some c /\ fed_by c = [1%nat].

(** The condition the specification words: real-time, and the measured
    delay exceeds the estimated spare time. *)
Definition delay_exceeds_spare (e : jack_engine_t) (delayed_usecs : Q) : bool :=
  real_time (ectl e) && negb (Qle_bool delayed_usecs (spare_usecs e)).

(** [n] cycles in a row under the same delay, the way [jack_main_thread]
    runs them: it leaves its loop at the first status that is not 0.  For
    each cycle: did the delay exceed the spare time on entry, and the
    status [jack_run_cycle] returned. *)
Fixpoint delayed_cycles (post : jack_engine_t -> outcome jack_engine_t)
    (guard_modulus : Z) (n : nat) (e : jack_engine_t) (consecutive_excessive_delays : Z) (nframes : Z) (delayed_usecs : Q)
    : outcome (list (bool * Z)) :=
  match n with
  | O => mret []
  | S n' =>
      '(r, e', k) ← jack_run_cycle post guard_modulus e consecutive_excessive_delays nframes
                      delayed_usecs;
      rest ← (if r =? 0 then delayed_cycles post guard_modulus n' e' k nframes delayed_usecs
              else mret []);
      mret ((delay_exceeds_spare e delayed_usecs, r) :: rest)
  end.

(** A real-time engine with one active external client that has an
    estimated spare time of 100 usecs per cycle. *)
Definition late_engine : jack_engine_t :=
  {| ectl := {| ctl_port_max := 0; shared_ports := []; port_types := [audio_type []];
                real_time := true;
                frame_timer := {| guard1 := 0; frames := 0; stamp := 0; guard2 := 0 |} |};
     port_max := 0; internal_ports := []; clients := [0%nat];
     client_mem := [new_client 1 "player" ClientExternal true []];
     fifo := replicate 16 (-1); process_errors := 0; spare_usecs := 100;
     asio_mode := false; client_timeout_msecs := 500; period_usecs := 1000;
     current_client := None; next_conn_addr := 100; watchdog_check := 0;
     last_wait_ust := 0; os := calm_os; clock := 0; trace := [] |}.



(** A client record with its error counter blanked: what event delivery
    cannot change. *)
Definition shape (cl : jack_client_internal_t) : jack_client_internal_t := set_error cl 0.

Definition shapes (e : jack_engine_t) : list jack_client_internal_t :=
  shape <$> client_mem e.

(** Fields of the client at address [x]. *)
Definition order_of (e : jack_engine_t) (x : nat) : option Z :=
  execution_order <$> client_mem e !! x.

Definition wait_fd_of (e : jack_engine_t) (x : nat) : option Z :=
  subgraph_wait_fd <$> client_mem e !! x.

Definition control_of (e : jack_engine_t) (x : nat) : option jack_client_control_t :=
  control <$> client_mem e !! x.

(** The loop of [jack_rechain_graph] with every node visited: the nodes
    that [node = next] jumps over are inactive and fall through the test
    at the top of the body. *)
Fixpoint rechain_all (node : list nat) (s : rechain_state) : outcome rechain_state :=
  match node with
  | [] => mret s
  | c :: rest =>
      client ← get_client (rc_engine s) c;
      if active (control client) then
        k ← count_inactive (rc_engine s) rest;
        s' ← rechain_client s c (rest !! k);
        rechain_all rest s'
      else rechain_all rest s
  end.

(** The first [k] nodes of the list are inactive clients. *)
Fixpoint inactive_prefix (e : jack_engine_t) (node : list nat) (k : nat) : Prop :=
  match k, node with
  | O, _ => True
  | S k', c :: rest =>
      (exists ctl, control_of e c = Some ctl /\ active ctl = false) /\
      inactive_prefix e rest k'
  | S _, [] => False
  end.

Definition control_is_internal (ctl : jack_client_control_t) : bool :=
  match c_type ctl with
  | ClientInternal | ClientDriver => true
  | ClientExternal => false
  end.

(** The value of [subgraph_client] once the loop has gone through the
    clients of [l], starting from [sg]: the external client that opened
    the subgraph still open, or [None]. *)
Fixpoint subgraph_client_after (e : jack_engine_t) (sg : option nat) (l : list nat)
    : option nat :=
  match l with
  | [] => sg
  | c :: l' =>
      match control_of e c with
      | Some ctl =>
          if active ctl then
            if control_is_internal ctl then subgraph_client_after e None l'
            else subgraph_client_after e (Some (default c sg)) l'
          else subgraph_client_after e sg l'
      | None => sg
      end
  end.

(** Two active external clients A (address 0) and B (address 1) in that
    order.  B still holds descriptor 7 in [subgraph_wait_fd] from an
    earlier sort in which it was the only member of its subgraph. *)
Definition duo_engine : jack_engine_t :=
  an_engine [audio_type []] [] [] [0; 1]%nat
    [new_client 1 "A" ClientExternal true [];
     set_subgraph_wait_fd (new_client 2 "B" ClientExternal true []) 7].

(** The driver (address 0) with a capture port connected to the input
    port of one external client (address 1). *)
Definition capture_engine : jack_engine_t :=
  an_engine [audio_type []]
    [a_port 0 "alsa:capture_1" 1 (Z.lor JackPortIsOutput (Z.lor JackPortIsPhysical JackPortIsTerminal)) 0 0;
     a_port 1 "rec:in" 2 JackPortIsInput 0 0]
    [wired 0 [a_conn 1 0 1]; wired 1 [a_conn 1 0 1]]
    [0; 1]%nat
    [new_client 1 "alsa" ClientDriver true [0%nat];
     new_client 2 "rec" ClientExternal true [1%nat]].

(** The property of the sorted graph as the specification words it: a
    client on the fed-by list of another has the smaller execution order,
    unless the two feed each other and the first is the driver. *)
Definition feeders_run_first (e : jack_engine_t) : Prop :=
  forall a b ca cb,
    a ∈ clients e -> b ∈ clients e ->
    client_mem e !! a = Some ca -> client_mem e !! b = Some cb ->
    jack_slist_find (fed_by cb) a = true ->
    execution_order ca < execution_order cb \/
    (jack_slist_find (fed_by ca) b = true /\ c_type (control ca) = ClientDriver).

(** The client list is ordered by the comparator: no client stands
    before one that [jack_client_sort] puts ahead of it. *)
Fixpoint comparator_ordered (e : jack_engine_t) (l : list nat) : bool :=
  match l with
  | [] => true
  | x :: l' =>
      forallb (fun y => negb (client_compare e x y =? 1)) l' && comparator_ordered e l'
  end.



(** Three external clients in the order C, B, A; A feeds C and B is on
    its own. *)
Definition late_feeder_engine : jack_engine_t :=
  an_engine [audio_type []]
    [a_port 0 "C:in" 1 JackPortIsInput 0 0; a_port 1 "A:out" 3 JackPortIsOutput 0 0]
    [wired 0 [a_conn 1 1 0]; wired 1 [a_conn 1 1 0]]
    [0; 1; 2]%nat
    [new_client 1 "C" ClientExternal true [0%nat];
     new_client 2 "B" ClientExternal true [];
     new_client 3 "A" ClientExternal true [1%nat]].

(** The port side of the engine: what the client-side operations (event
    delivery, FIFOs, the fed-by lists and the order of the clients) leave
    alone. *)
Definition ports_of (e : jack_engine_t)
    : jack_control_t * list jack_port_internal_t * nat :=
  (ectl e, internal_ports e, port_max e).



(** A port descriptor with the two fields blanked that connecting and
    disconnecting may change. *)
Definition port_identity (sh : jack_port_shared_t) : jack_port_shared_t :=
  set_total_latency (set_monitor_requests sh 0) 0.

(** Client 1 owns the output port "x:out" (latency 5), on which a monitor
    request is pending, client 2 the input port "y:in" (latency 7).
    Nothing is connected, and the ports were registered after the last
    sort: their total latencies are still 0. *)
Definition monitored_engine : jack_engine_t :=
  an_engine [audio_type []]
    [a_port 0 "x:out" 1 JackPortIsOutput 5 3; a_port 1 "y:in" 2 JackPortIsInput 7 0]
    [wired 0 []; wired 1 []]
    [0; 1]%nat
    [new_client 1 "x" ClientExternal true [0%nat];
     new_client 2 "y" ClientExternal true [1%nat]].

(** The same two ports with nothing pending and the total latencies of a
    fresh sort. *)
Definition settled_engine : jack_engine_t :=
  an_engine [audio_type []]
    [set_total_latency (a_port 0 "x:out" 1 JackPortIsOutput 5 0) 5;
     set_total_latency (a_port 1 "y:in" 2 JackPortIsInput 7 0) 7]
    [wired 0 []; wired 1 []]
    [0; 1]%nat
    [new_client 1 "x" ClientExternal true [0%nat];
     new_client 2 "y" ClientExternal true [1%nat]].

(** A port descriptor with its total latency blanked. *)
Definition blank_latency (sh : jack_port_shared_t) : jack_port_shared_t :=
  set_total_latency sh 0.


(** ** Further lookups *)

(** The scan of [jack_get_port_internal_by_name]: the names alone are
    compared, whether the slot is in use or not. *)
Fixpoint port_internal_by_name_from (tbl : list jack_port_shared_t) (nm : string) (i n : nat)
    : outcome (option nat) :=
  match n with
  | O => mret None
  | S n' =>
      p ← fetch tbl i;
      if String.eqb (name p) nm then mret (Some i)
      else port_internal_by_name_from tbl nm (S i) n'
  end.

Definition jack_get_port_internal_by_name (e : jack_engine_t) (nm : string)
    : outcome (option nat) :=
  port_internal_by_name_from (shared_ports (ectl e)) nm 0 (port_max e).

(** [jack_client_by_name]: the first client of the list with that name. *)
Fixpoint client_by_name_from (e : jack_engine_t) (node : list nat) (nm : string)
    : outcome (option nat) :=
  match node with
  | [] => mret None
  | c :: node' =>
      client ← get_client e c;
      if String.eqb (c_name (control client)) nm then mret (Some c)
      else client_by_name_from e node' nm
  end.

Definition jack_client_by_name (e : jack_engine_t) (nm : string) : outcome (option nat) :=
  client_by_name_from e (clients e) nm.


(** ** More configurations *)

(** [reg_engine] over a port type that has two buffers left. *)
Definition pool_engine : jack_engine_t :=
  set_ectl reg_engine
    (set_port_types (ectl reg_engine)
       [audio_type [{| bi_offset := 4096 |}; {| bi_offset := 8192 |}]]).


(** ** The connection graph *)

(** [port->connections = jack_slist_prepend (port->connections, c)] on
    port [p] of an internal port table. *)
Definition add_connection (c : jack_connection_internal_t) (p : nat)
    (ips : list jack_port_internal_t) : list jack_port_internal_t :=
  match ips !! p with
  | Some ip => <[p := set_connections ip (c :: connections ip)]> ips
  | None => ips
  end.

(** [port->connections = jack_slist_remove (port->connections, c)] on
    port [p]. *)
Definition remove_connection (c : jack_connection_internal_t) (p : nat)
    (ips : list jack_port_internal_t) : list jack_port_internal_t :=
  match ips !! p with
  | Some ip => <[p := set_connections ip (jack_slist_remove same_conn (connections ip) c)]> ips
  | None => ips
  end.

(** How many nodes of a connection list hold the connection allocated at
    address [a]. *)
Fixpoint addr_count (a : nat) (l : list jack_connection_internal_t) : nat :=
  match l with
  | [] => 0
  | c :: l' => (if Nat.eqb (conn_addr c) a then 1 else 0) + addr_count a l'
  end.


(** How many ends of [c] lie on port [q]. *)
Definition ends_on (c : jack_connection_internal_t) (q : nat) : nat :=
  (if Nat.eqb (source c) q then 1 else 0) + (if Nat.eqb (destination c) q then 1 else 0).

(** The connection lists are consistent.  Every connection listed on a
    port was allocated before the next address [malloc] hands out, joins
    two ports of the table, is the only connection at its address, and is
    listed on each port once for each of its ends there: once on its
    source and once on its destination, and on no other port. *)
Definition connections_linked (e : jack_engine_t) : Prop :=
  forall p ip c, internal_ports e !! p = Some ip -> c ∈ connections ip ->
    (conn_addr c < next_conn_addr e)%nat /\
    (source c < length (internal_ports e))%nat /\
    (destination c < length (internal_ports e))%nat /\
    (forall q iq c', internal_ports e !! q = Some iq -> c' ∈ connections iq ->
                     conn_addr c' = conn_addr c -> c' = c) /\
    (forall q iq, internal_ports e !! q = Some iq ->
                  addr_count (conn_addr c) (connections iq) = ends_on c q).


(** What the connection graph is made of: the internal port table and the
    next address [malloc] hands out. *)
Definition graph_of (e : jack_engine_t) : list jack_port_internal_t * nat :=
  (internal_ports e, next_conn_addr e).


(** ** Who is told of an event *)

(** What [jack_deliver_event] sends to client [c] with control block
    [ctl]: nothing to a dead client, a call of the handler to an
    in-process client that has one for the event, a write on the event
    socket to an external client. *)
Definition event_seen_by (ctl : jack_client_control_t) (c : nat) (ev : jack_event_t)
    : list io_event :=
  if dead ctl then []
  else if control_is_internal ctl then
    (if internal_handles ctl (ev_type ev) then [Callback c ev] else [])
  else [EventWritten c ev].


(** ** The cycle *)

(** The test at the head of [jack_run_cycle]. *)
Definition excessive_delay (e : jack_engine_t) (delayed_usecs : Q) : bool :=
  real_time (ectl e) && negb (Qeq_bool (spare_usecs e) 0)
  && Qle_bool (WORK_SCALE * spare_usecs e) delayed_usecs.

(** An engine like [late_engine] that has no estimate of its spare time
    yet. *)
Definition fresh_engine : jack_engine_t :=
  an_engine [audio_type []] [] [] [0%nat] [new_client 1 "player" ClientExternal true []].

(** ** Who feeds whom, as a relation *)

(** Connection [c] runs from a port owned by the client with id
    [might_id] to a port owned by the client with id [target_id]. *)
Definition conn_joins (e : jack_engine_t) (c : jack_connection_internal_t)
    (might_id target_id : Z) : Prop :=
  exists src dst ssh dsh,
    internal_ports e !! source c = Some src /\
    shared_ports (ectl e) !! shared src = Some ssh /\
    internal_ports e !! destination c = Some dst /\
    shared_ports (ectl e) !! shared dst = Some dsh /\
    client_id ssh = might_id /\ client_id dsh = target_id.

(** What [jack_port_registration_notify] sends: the event goes to the
    clients of the list that are active and have asked for port
    registrations. *)
Definition registration_seen (e : jack_engine_t) (ev : jack_event_t) (l : list nat)
    : list io_event :=
  flat_map (fun c => match control_of e c with
                     | Some ctl => if active ctl && port_register ctl
                                   then event_seen_by ctl c ev else []
                     | None => []
                     end) l.

(** The event that [jack_port_registration_notify] makes up. *)
Definition registration_event (port_id : nat) (yn : bool) : jack_event_t :=
  {| ev_type := if yn then PortRegistered else PortUnregistered;
     ev_x := Some (Z.of_nat port_id); ev_y := None |}.

(** The number of open descriptors in a FIFO table. *)
Definition open_fifos (l : list Z) : nat := length (filter (fun fd => 0 <= fd) l).

(** ** Optional arguments of the client calls (include/varargs.h) *)

(** A [char *] is [None] when NULL. *)
Record jack_varargs_t : Type := {
  server_name : option string;
  load_name : option string;
  load_init : option string;
  sess_uuid : option string
}.

Definition set_server_name (va : jack_varargs_t) (v : option string) : jack_varargs_t :=
  {| server_name := v; load_name := load_name va; load_init := load_init va;
     sess_uuid := sess_uuid va |}.

Definition set_load_name (va : jack_varargs_t) (v : option string) : jack_varargs_t :=
  {| server_name := server_name va; load_name := v; load_init := load_init va;
     sess_uuid := sess_uuid va |}.

Definition set_load_init (va : jack_varargs_t) (v : option string) : jack_varargs_t :=
  {| server_name := server_name va; load_name := load_name va; load_init := v;
     sess_uuid := sess_uuid va |}.

Definition set_sess_uuid (va : jack_varargs_t) (v : option string) : jack_varargs_t :=
  {| server_name := server_name va; load_name := load_name va; load_init := load_init va;
     sess_uuid := v |}.

(** [va_arg (ap, char * )] over the arguments the caller passed: the next
    one, and the rest.  Taking an argument that was not passed is
    undefined. *)
Definition va_arg (ap : list (option string))
    : outcome (option string * list (option string)) :=
  match ap with
  | [] => Undefined
  | a :: ap' => mret (a, ap')
  end.

Section Varargs.

(** The option bits of [jack_options_t] and the result of
    [jack_default_server_name] come from headers and a library that are
    not among the sources; the functions are modelled over any values of
    them. *)
Variables JackServerName JackLoadName JackLoadInit JackSessionID : Z.
Variable jack_default_server_name : option string.

Definition jack_varargs_init : jack_varargs_t :=
  {| server_name := jack_default_server_name; load_name := None; load_init := None;
     sess_uuid := None |}.

Definition jack_varargs_parse (options : Z) (ap : list (option string))
    : outcome jack_varargs_t :=
  let va := jack_varargs_init in
  '(va, ap) ← (if has_flag options JackServerName then
                 '(sn, ap) ← va_arg ap;
                 match sn with
                 | Some _ => mret (set_server_name va sn, ap)
                 | None => mret (va, ap)
                 end
               else mret (va, ap));
  '(va, ap) ← (if has_flag options JackLoadName then
                 '(a, ap) ← va_arg ap; mret (set_load_name va a, ap)
               else mret (va, ap));
  '(va, ap) ← (if has_flag options JackLoadInit then
                 '(a, ap) ← va_arg ap; mret (set_load_init va a, ap)
               else mret (va, ap));
  '(va, _) ← (if has_flag options JackSessionID then
                '(a, ap) ← va_arg ap; mret (set_sess_uuid va a, ap)
              else mret (va, ap));
  mret va.

(** The number of the four options that are set in [options]. *)
Definition options_with_argument (options : Z) : nat :=
  ((if has_flag options JackServerName then 1 else 0)
   + (if has_flag options JackLoadName then 1 else 0)
   + (if has_flag options JackLoadInit then 1 else 0)
   + (if has_flag options JackSessionID then 1 else 0))%nat.

End Varargs.

(** ** Engines on which the notifications are defined *)




(** * Properties *)

(** ** Reasoning about outcomes *)

Arguments fetch : simpl never.
Arguments store : simpl never.

Lemma bind_Done {A B : Type} (m : outcome A) (f : A -> outcome B) (b : B) :
  m ≫= f = Done b -> exists a, m = Done a /\ f a = Done b.
Proof. destruct m as [a| |]; simpl; intros H; try discriminate. exists a. auto. Qed.

Lemma fetch_Done {A : Type} (l : list A) (i : nat) (x : A) :
  fetch l i = Done x <-> l !! i = Some x.
Proof. unfold fetch. destruct (l !! i); split; intros H; congruence. Qed.

Lemma fetch_past_end {A : Type} (l : list A) (i : nat) :
  (length l <= i)%nat -> fetch l i = Undefined.
Proof. intros H. unfold fetch. rewrite lookup_ge_None_2; auto. Qed.

Lemma store_Done {A : Type} (l : list A) (i : nat) (v : A) (l' : list A) :
  store l i v = Done l' -> (i < length l)%nat /\ l' = <[i := v]> l.
Proof.
  unfold store. destruct (l !! i) eqn:E; intros H; inversion H; subst.
  split; auto. eapply lookup_lt_Some; eauto.
Qed.

(** Splits a hypothesis [x ← m; k = Done b] into its two halves. *)
Ltac bind_inv H :=
  let a := fresh "a" in
  let Ha := fresh "Ha" in
  apply bind_Done in H; destruct H as [a [Ha H]].

Tactic Notation "bind_split" hyp(H) "as" simple_intropattern(a) ident(Ha) :=
  apply bind_Done in H; destruct H as [a [Ha H]].

(** ** Disconnect-all on a port id past the table *)

(** C10.  Whatever the sort and the fuel, [jack_port_do_disconnect_all]
    on a [port_id] that is not below [control->port_max] returns -1 and
    hands back the engine it was given: no list, descriptor or client
    record is touched and the graph is not sorted. *)
Theorem disconnect_all_rejects_past_port_max
    (srt : (nat -> nat -> Z) -> list nat -> list nat) (fuel : nat)
    (e : jack_engine_t) (port_id : nat) :
  (ctl_port_max (ectl e) <= port_id)%nat ->
  jack_port_do_disconnect_all srt fuel e port_id = Done (-1, e).
Proof.
  intros H. unfold jack_port_do_disconnect_all.
  destruct (Nat.leb_spec (ctl_port_max (ectl e)) port_id) as [_|Hlt]; [reflexivity | lia].
Qed.

Lemma disconnect_all_rejects_past_port_max_witness :
  (ctl_port_max (ectl reg_engine) <= 2)%nat /\
  jack_port_do_disconnect_all stable_sort 20 reg_engine 2 = Done (-1, reg_engine).
Proof.
  split; [simpl; lia | apply disconnect_all_rejects_past_port_max; simpl; lia].
Defined.

(** ** Unregistering *)

(** A [port_id] above [port_max], or below zero, is refused and nothing
    changes. *)
Lemma unregister_rejects_above_port_max
    (srt : (nat -> nat -> Z) -> list nat -> list nat) (fuel : nat)
    (e : jack_engine_t) (req : jack_request_t) :
  req_port_id req < 0 \/ Z.of_nat (port_max e) < req_port_id req ->
  jack_port_do_unregister srt fuel e req = Done (-1, e).
Proof.
  intros H. unfold jack_port_do_unregister.
  destruct (Z.ltb_spec (req_port_id req) 0); [reflexivity|].
  destruct (Z.gtb_spec (req_port_id req) (Z.of_nat (port_max e))); [reflexivity|lia].
Qed.

(** A request from a client that does not own the port is refused and
    nothing changes. *)
Lemma unregister_rejects_other_owner
    (srt : (nat -> nat -> Z) -> list nat -> list nat) (fuel : nat)
    (e : jack_engine_t) (req : jack_request_t) (sh : jack_port_shared_t) :
  0 <= req_port_id req ->
  shared_ports (ectl e) !! Z.to_nat (req_port_id req) = Some sh ->
  client_id sh <> req_client_id req ->
  jack_port_do_unregister srt fuel e req = Done (-1, e).
Proof.
  intros H0 Hsh Hne. unfold jack_port_do_unregister.
  destruct (_ || _) eqn:E; [reflexivity|].
  apply fetch_Done in Hsh. rewrite Hsh. simpl.
  destruct (Z.eqb_spec (client_id sh) (req_client_id req)); [contradiction | reflexivity].
Qed.

(** The range test lets [port_id == port_max] through: with a port table
    of [port_max] slots the next statement reads the owner of a slot past
    its end. *)
Lemma unregister_at_port_max_reads_past_end
    (srt : (nat -> nat -> Z) -> list nat -> list nat) (fuel : nat)
    (e : jack_engine_t) (req : jack_request_t) :
  req_port_id req = Z.of_nat (port_max e) ->
  length (shared_ports (ectl e)) = port_max e ->
  jack_port_do_unregister srt fuel e req = Undefined.
Proof.
  intros Hid Hlen. unfold jack_port_do_unregister.
  rewrite Hid.
  destruct (Z.ltb_spec (Z.of_nat (port_max e)) 0); [lia|].
  destruct (Z.gtb_spec (Z.of_nat (port_max e)) (Z.of_nat (port_max e))); [lia|].
  simpl. rewrite Nat2Z.id, fetch_past_end by lia. reflexivity.
Qed.

(** C2, at the failing input.  The table has two slots and [port_max] is
    2; the request names port 2.  The call does not return -1: it reads
    [ports[2]], outside the table. *)
Theorem unregister_port_max_not_rejected :
  port_max reg_engine = 2%nat /\
  length (shared_ports (ectl reg_engine)) = 2%nat /\
  jack_port_do_unregister stable_sort 20 reg_engine unreg_request_past_end = Undefined /\
  jack_port_do_unregister stable_sort 20 reg_engine unreg_request_past_end
    <> Done (-1, reg_engine).
Proof.
  assert (H : jack_port_do_unregister stable_sort 20 reg_engine unreg_request_past_end
              = Undefined)
    by (apply unregister_at_port_max_reads_past_end; reflexivity).
  split; [reflexivity|]. split; [reflexivity|]. split; [exact H|].
  rewrite H. discriminate.
Qed.

(** ** Registering on an exhausted port type *)

Lemma get_free_port_trace (e e' : jack_engine_t) (r : option nat) :
  jack_get_free_port e = Done (r, e') -> trace e' = trace e.
Proof.
  unfold jack_get_free_port. intros H. bind_inv H.
  destruct a; [bind_inv H|]; inversion H; reflexivity.
Qed.

Lemma assign_buffer_trace (e e' : jack_engine_t) (p : nat) (r : Z) :
  jack_port_assign_buffer e p = Done (r, e') -> trace e' = trace e.
Proof.
  unfold jack_port_assign_buffer. intros H.
  do 4 bind_inv H.
  destruct (has_flag _ _); [inversion H; reflexivity|].
  destruct (buffer_freelist a0); inversion H; reflexivity.
Qed.

(** Every failing path of [jack_port_do_register] leaves before the
    notification: a registration that returns -1 has sent no event. *)
Lemma register_failure_emits_nothing (e e' : jack_engine_t) (req req' : jack_request_t) :
  jack_port_do_register e req = Done (-1, req', e') -> trace e' = trace e.
Proof.
  unfold jack_port_do_register. intros H.
  destruct (Nat.eqb _ _); [inversion H; reflexivity|].
  bind_inv H. destruct a as [client|]; [|inversion H; reflexivity].
  bind_inv H. destruct a as [free e1]. pose proof (get_free_port_trace _ _ _ Ha0) as T1.
  destruct free as [port_id|]; [|inversion H; subst; exact T1].
  do 3 bind_inv H. bind_inv H. destruct a2 as [failed e2].
  apply assign_buffer_trace in Ha4. simpl in Ha4.
  destruct (negb (failed =? 0)); [inversion H; subst; congruence|].
  do 3 bind_inv H. inversion H.
Qed.

(** When the port is not an input and the free-list of its type is
    empty, [jack_port_assign_buffer] returns -1 and changes nothing: the
    slot that [jack_get_free_port] marked stays marked. *)
Lemma assign_buffer_empty_freelist (e : jack_engine_t) (p : nat)
    (ip : jack_port_internal_t) (sh : jack_port_shared_t) (ty : jack_port_type_info_t) :
  internal_ports e !! p = Some ip ->
  shared_ports (ectl e) !! shared ip = Some sh ->
  port_types (ectl e) !! type_id (type_info sh) = Some ty ->
  has_flag (flags sh) JackPortIsInput = false ->
  buffer_freelist ty = [] ->
  jack_port_assign_buffer e p = Done (-1, e).
Proof.
  intros Hip Hsh Hty Hfl Hfree.
  unfold jack_port_assign_buffer, jack_global_port_type_info.
  apply fetch_Done in Hip, Hsh, Hty.
  rewrite Hip. simpl. rewrite Hsh. simpl. rewrite Hty. simpl.
  rewrite Hfl, Hfree. reflexivity.
Qed.

(** C1, at the failing input.  Client 7 asks for an output port of a type
    whose free-list is empty while slot 1 of the port table is free.  The
    request is answered -1 and no event is sent, but the port table is
    not what it was: slot 1 is left marked in use and carries the
    requested name. *)
Theorem register_empty_freelist_leaves_slot_in_use :
  exists e' : jack_engine_t,
    jack_port_do_register reg_engine reg_request = Done (-1, reg_request, e') /\
    trace e' = trace reg_engine /\
    in_use <$> shared_ports (ectl reg_engine) !! 1%nat = Some false /\
    in_use <$> shared_ports (ectl e') !! 1%nat = Some true /\
    name <$> shared_ports (ectl e') !! 1%nat = Some "synth:out2" /\
    shared_ports (ectl e') <> shared_ports (ectl reg_engine).
Proof.
  eexists. split; [vm_compute; reflexivity|].
  split; [reflexivity|]. split; [reflexivity|]. split; [reflexivity|].
  split; [reflexivity|]. simpl. intros H. inversion H.
Qed.

(** ** The fed-by walk on a ring *)

Lemma get_client_Done (e : jack_engine_t) (c : nat) (cl : jack_client_internal_t) :
  get_client e c = Done cl <-> client_mem e !! c = Some cl.
Proof. apply fetch_Done. Qed.

Lemma put_client_Done (e e' : jack_engine_t) (c : nat) (v : jack_client_internal_t) :
  put_client e c v = Done e' ->
  (c < length (client_mem e))%nat /\ e' = set_client_mem e (<[c := v]> (client_mem e)).
Proof.
  unfold put_client. intros H. bind_inv H. apply store_Done in Ha as [Hlt ->].
  inversion H. auto.
Qed.

Lemma put_client_present (e : jack_engine_t) (c : nat) (old v : jack_client_internal_t) :
  client_mem e !! c = Some old ->
  put_client e c v = Done (set_client_mem e (<[c := v]> (client_mem e))).
Proof. intros H. unfold put_client, store. rewrite H. reflexivity. Qed.

(** Marking client 0 as fed by one more client leaves the ring as it is. *)
Lemma fed_in_a_ring_mark (e : jack_engine_t) (r : jack_client_internal_t) (c2 : nat) :
  fed_in_a_ring e ->
  client_mem e !! 0%nat = Some r ->
  fed_in_a_ring (set_client_mem e (<[0%nat := set_fed_by r (c2 :: fed_by r)]> (client_mem e))).
Proof.
  intros (r0 & a & b & c & Hr & Ha & Fa & Hb & Fb & Hc & Fc) _.
  exists (set_fed_by r (c2 :: fed_by r)), a, b, c. simpl.
  rewrite list_lookup_insert_eq by (eapply lookup_lt_Some; eauto).
  rewrite !list_lookup_insert_ne by lia. auto 10.
Qed.

(** One turn of the walk for a client [c1] of the ring whose only feeder
    is [c2]: it marks [c2] on client 0 if need be and calls itself on
    [c2], because [c1] is not on the fed-by list of [c2]. *)
Lemma trace_terminal_ring_turn (fuel : nat) (e : jack_engine_t) (c1 c2 : nat)
    (cl1 cl2 : jack_client_internal_t) :
  fed_in_a_ring e ->
  c1 <> 0%nat -> c2 <> 0%nat -> c2 <> c1 ->
  client_mem e !! c1 = Some cl1 -> fed_by cl1 = [c2] ->
  client_mem e !! c2 = Some cl2 -> jack_slist_find (fed_by cl2) c1 = false ->
  (forall e', fed_in_a_ring e' -> jack_trace_terminal fuel e' c2 0 = OutOfFuel) ->
  jack_trace_terminal (S fuel) e c1 0 = OutOfFuel.
Proof.
  intros Hring N1 N2 N21 H1 F1 H2 F2 IH.
  pose proof Hring as (r & _ & _ & _ & Hr & _).
  simpl. apply get_client_Done in H1 as G1. rewrite G1. simpl. rewrite F1.
  destruct (Nat.eqb_spec c2 0) as [|_]; [contradiction|].
  destruct (Nat.eqb_spec c2 c1) as [|_]; [contradiction|]. simpl.
  apply get_client_Done in Hr as Gr. rewrite Gr. simpl.
  destruct (jack_slist_find (fed_by r) c2).
  - simpl. apply get_client_Done in H2 as G2. rewrite G2. simpl. rewrite F2.
    rewrite IH by assumption. reflexivity.
  - rewrite (put_client_present _ _ r) by assumption. simpl.
    unfold get_client. simpl.
    rewrite (proj2 (fetch_Done _ _ cl2)) by (rewrite list_lookup_insert_ne by auto; assumption).
    simpl. rewrite F2.
    rewrite IH by (apply fed_in_a_ring_mark; assumption). reflexivity.
Qed.

(** From any client of the ring, with client 0 as base, the walk uses up
    whatever fuel it is given. *)
Lemma trace_terminal_ring_never_returns (fuel : nat) :
  forall e, fed_in_a_ring e ->
    jack_trace_terminal fuel e 1 0 = OutOfFuel /\
    jack_trace_terminal fuel e 2 0 = OutOfFuel /\
    jack_trace_terminal fuel e 3 0 = OutOfFuel.
Proof.
  induction fuel as [|fuel IH]; intros e Hring; [repeat split|].
  pose proof Hring as (r & a & b & c & Hr & Ha & Fa & Hb & Fb & Hc & Fc).
  repeat split.
  - eapply (trace_terminal_ring_turn fuel e 1 2); eauto.
    + rewrite Fb. reflexivity.
    + intros e' H'. apply IH, H'.
  - eapply (trace_terminal_ring_turn fuel e 2 3); eauto.
    + rewrite Fc. reflexivity.
    + intros e' H'. apply IH, H'.
  - eapply (trace_terminal_ring_turn fuel e 3 1); eauto.
    + rewrite Fa. reflexivity.
    + intros e' H'. apply IH, H'.
Qed.

(** The walk that [jack_sort_graph] starts for client 0, which is fed by
    client 1 of the ring, never returns either. *)
Lemma trace_terminal_into_ring_never_returns (fuel : nat) (e : jack_engine_t)
    (r : jack_client_internal_t) :
  fed_in_a_ring e ->
  client_mem e !! 0%nat = Some r -> fed_by r = [1%nat] ->
  jack_trace_terminal fuel e 0 0 = OutOfFuel.
Proof.
  intros Hring Hr Fr. destruct fuel as [|fuel]; [reflexivity|].
  pose proof Hring as (r0 & a & b & c & _ & Ha & Fa & _).
  simpl. apply get_client_Done in Hr as Gr. rewrite Gr. simpl. rewrite Fr. simpl.
  apply get_client_Done in Ha as Ga. rewrite Ga. simpl. rewrite Fa. simpl.
  rewrite (proj1 (trace_terminal_ring_never_returns fuel e Hring)). reflexivity.
Qed.

(** C3, at the failing input.  With the clients in the order R, A, B, C
    and the connections B -> A, C -> B, A -> C and A -> R, the closure
    walk of [jack_sort_graph] does not terminate: whatever the sort and
    however much fuel there is, the fuel runs out.  The membership test
    before the recursive call only catches a client that is fed directly
    by the one it feeds. *)
Theorem sort_graph_walk_never_returns_on_ring
    (srt : (nat -> nat -> Z) -> list nat -> list nat) (fuel : nat) :
  jack_sort_graph srt fuel ring_engine = OutOfFuel.
Proof.
  assert (S1 : exists e1, for_each direct_feeders (clients ring_engine) ring_engine = Done e1
                          /\ clients e1 = [0; 1; 2; 3]%nat
                          /\ fed_in_a_ring e1
                          /\ exists r, client_mem e1 !! 0%nat = Some r /\ fed_by r = [1%nat]).
  { eexists. split; [vm_compute; reflexivity|]. split; [reflexivity|]. split.
    - do 4 eexists. repeat split.
    - eexists. split; reflexivity. }
  destruct S1 as (e1 & E1 & C1 & Hring & r & Hr & Fr).
  unfold jack_sort_graph. rewrite E1. simpl. rewrite C1. simpl.
  rewrite (trace_terminal_into_ring_never_returns fuel e1 r) by assumption.
  reflexivity.
Qed.

(** ** The total-latency recursion *)

Lemma fetch_has_fuel {A : Type} (l : list A) (i : nat) : fetch l i <> OutOfFuel.
Proof. unfold fetch. destruct (l !! i); discriminate. Qed.

(** The computation a chain of binds starts with. *)
Ltac bind_head t :=
  lazymatch t with
  | @mbind _ _ _ _ _ ?m => bind_head m
  | _ => t
  end.

(** Case analysis on the table read the goal starts with. *)
Ltac case_fetch :=
  let go lhs :=
    let h := bind_head lhs in
    lazymatch h with
    | fetch ?l ?i =>
        let E := fresh "E" in
        destruct (fetch l i) eqn:E;
        [ | | exfalso; exact (fetch_has_fuel _ _ E) ]; simpl
    end in
  lazymatch goal with
  | |- ?lhs <> _ => go lhs
  | |- ?lhs = _ => go lhs
  end.

(** The loop over the connections runs out of fuel only if one of the
    recursive calls does. *)
Lemma max_over_connections_has_fuel (recurse : nat -> outcome Z) (e : jack_engine_t)
    (port : nat) (ip : jack_port_internal_t) (toward_port : bool)
    (node : list jack_connection_internal_t) :
  (forall p, recurse p <> OutOfFuel) ->
  forall max_latency,
    max_over_connections recurse e port ip toward_port node max_latency <> OutOfFuel.
Proof.
  intros Hrec. induction node as [|connection node IH]; intros max_latency; simpl.
  - discriminate.
  - destruct toward_port; simpl.
    + case_fetch; try discriminate.
      destruct (Nat.eqb (shared a) (shared ip)); [apply IH|].
      destruct (Nat.eqb (destination connection) port); simpl.
      * case_fetch; try discriminate.
        destruct (has_flag _ _); simpl; [apply IH|].
        destruct (recurse (source connection)) eqn:R; simpl;
          [apply IH | discriminate | exfalso; exact (Hrec _ R)].
      * case_fetch; try discriminate. case_fetch; try discriminate.
        destruct (has_flag _ _); simpl; [apply IH|].
        destruct (recurse (destination connection)) eqn:R; simpl;
          [apply IH | discriminate | exfalso; exact (Hrec _ R)].
    + case_fetch; try discriminate.
      destruct (Nat.eqb (shared a) (shared ip)); [apply IH|].
      destruct (Nat.eqb (destination connection) port); simpl.
      * case_fetch; try discriminate. case_fetch; try discriminate.
        destruct (has_flag _ _); simpl; [apply IH|].
        destruct (recurse (source connection)) eqn:R; simpl;
          [apply IH | discriminate | exfalso; exact (Hrec _ R)].
      * case_fetch; try discriminate.
        destruct (has_flag _ _); simpl; [apply IH|].
        destruct (recurse (destination connection)) eqn:R; simpl;
          [apply IH | discriminate | exfalso; exact (Hrec _ R)].
Qed.

(** A call at [hop_count] needs a call depth of at most [10 - hop_count]. *)
Lemma total_latency_has_fuel (n : nat) :
  forall (e : jack_engine_t) (port : nat) (hop_count : Z) (toward_port : bool),
    (Z.to_nat (9 - hop_count) <= n)%nat ->
    jack_get_port_total_latency (S n) e port hop_count toward_port <> OutOfFuel.
Proof.
  induction n as [|n IH]; intros e port hop_count toward_port Hn.
  - simpl. case_fetch; try discriminate. case_fetch; try discriminate.
    destruct (Z.gtb_spec hop_count 8); [discriminate | lia].
  - cbn [jack_get_port_total_latency].
    case_fetch; try discriminate. case_fetch; try discriminate.
    destruct (Z.gtb_spec hop_count 8); [discriminate|].
    match goal with
    | |- context [max_over_connections ?r ?e ?p ?i ?t ?l ?m] =>
        pose proof (max_over_connections_has_fuel r e p i t l) as Hloop;
        destruct (max_over_connections r e p i t l m) eqn:L
    end; simpl; try discriminate.
    exfalso. eapply Hloop; [|exact L].
    intros p. apply IH. lia.
Qed.

(** Past the cap the function answers with the port's own latency and
    makes no further call: a single unit of fuel is enough. *)
Lemma total_latency_past_cap (fuel : nat) (e : jack_engine_t) (port : nat) (hop_count : Z)
    (toward_port : bool) (ip : jack_port_internal_t) (sh : jack_port_shared_t) :
  8 < hop_count ->
  internal_ports e !! port = Some ip ->
  shared_ports (ectl e) !! shared ip = Some sh ->
  jack_get_port_total_latency (S fuel) e port hop_count toward_port = Done (latency sh).
Proof.
  intros Hcap Hip Hsh. simpl.
  apply fetch_Done in Hip, Hsh. rewrite Hip. simpl. rewrite Hsh. simpl.
  destruct (Z.gtb_spec hop_count 8); [reflexivity | lia].
Qed.

(** C4.  On every engine state, cyclic or not, and for every port, hop
    count and direction, [jack_get_port_total_latency] returns within a
    call depth of [10 - hop_count] (ten for the calls that start at hop
    count 0); and once the hop count is above 8 it returns the port's
    own latency at once, whatever the connections are. *)
Theorem total_latency_recursion_is_capped
    (e : jack_engine_t) (port : nat) (hop_count : Z) (toward_port : bool)
    (ip : jack_port_internal_t) (sh : jack_port_shared_t) :
  internal_ports e !! port = Some ip ->
  shared_ports (ectl e) !! shared ip = Some sh ->
  jack_get_port_total_latency (S (Z.to_nat (9 - hop_count))) e port hop_count toward_port
    <> OutOfFuel /\
  (8 < hop_count ->
   forall fuel, jack_get_port_total_latency (S fuel) e port hop_count toward_port
                = Done (latency sh)).
Proof.
  intros Hip Hsh. split.
  - apply total_latency_has_fuel. lia.
  - intros Hcap fuel. eapply total_latency_past_cap; eauto.
Qed.

Lemma total_latency_recursion_is_capped_witness :
  internal_ports ring_engine !! 2%nat = Some (wired 2 [a_conn 4 2 5; a_conn 1 2 0]) /\
  shared_ports (ectl ring_engine) !! 2%nat = Some (a_port 2 "A:out" 11 JackPortIsOutput 0 0) /\
  (jack_get_port_total_latency (S (Z.to_nat (9 - 9))) ring_engine 2 9 false <> OutOfFuel /\
   (8 < 9 ->
    forall fuel, jack_get_port_total_latency (S fuel) ring_engine 2 9 false
                 = Done (latency (a_port 2 "A:out" 11 JackPortIsOutput 0 0)))).
Proof.
  split; [reflexivity|]. split; [reflexivity|].
  apply (total_latency_recursion_is_capped ring_engine 2 9 false
           (wired 2 [a_conn 4 2 5; a_conn 1 2 0])
           (a_port 2 "A:out" 11 JackPortIsOutput 0 0)); reflexivity.
Defined.

(** ** Excessive delays *)


(** The eleventh is the one that returns -1. *)
Lemma eleventh_excessive_delay_aborts :
  delayed_cycles idle_post_process (2 ^ 64) 11 late_engine 0 64 200
  = Done [(true, 0); (true, 0); (true, 0); (true, 0); (true, 0);
          (true, 0); (true, 0); (true, 0); (true, 0); (true, 0); (true, -1)].
Proof. vm_compute. reflexivity. Qed.

(** With no estimate of the spare time yet ([spare_usecs] is 0 after
    every reset of the rolling statistics) a delay is never excessive. *)
Lemma no_spare_estimate_no_excess (post : jack_engine_t -> outcome jack_engine_t)
    (guard_modulus : Z) (e : jack_engine_t) (k nframes : Z) (d : Q) (r : Z) (e' : jack_engine_t) (k' : Z) :
  Qeq_bool (spare_usecs e) 0 = true ->
  jack_run_cycle post guard_modulus e k nframes d = Done (r, e', k') -> k' = 0.
Proof.
  intros Hs. unfold jack_run_cycle. simpl. rewrite Hs, andb_false_r. simpl.
  destruct (negb (ret _ =? 0)); [intros H; inversion H; reflexivity|].
  destruct (negb (ret _ =? 0)); [intros H; inversion H; reflexivity|].
  intros H. bind_inv H. destruct a as [failed e1].
  destruct (negb (failed =? 0)).
  - bind_inv H. inversion H. reflexivity.
  - simpl in H. destruct (negb (ret _ =? 0)); [inversion H; reflexivity|].
    bind_inv H. inversion H. reflexivity.
Qed.



(** ** A subgraph that does not answer *)

Arguments jack_process_external : simpl never.

Lemma trigger_subgraph_process_errors (e e' : jack_engine_t) (c : nat) (started : bool) :
  trigger_subgraph e c = Done (started, e') -> process_errors e' = process_errors e.
Proof.
  unfold trigger_subgraph. intros H. bind_split H as cl Hcl. simpl in H.
  bind_split H as e1 Hput.
  apply put_client_Done in Hput as [_ ->]. inversion H. reflexivity.
Qed.

Lemma wait_for_subgraph_process_errors (e e' : jack_engine_t) (c : nat) (status : Z) :
  wait_for_subgraph e c = Done (status, e') -> process_errors e' = process_errors e.
Proof.
  unfold wait_for_subgraph. intros H. bind_split H as cl Hcl.
  destruct (asio_mode e); simpl in H; bind_split H as e1 Hput;
    apply put_client_Done in Hput as [_ ->].
  - inversion H. reflexivity.
  - destruct (has_flag _ _); inversion H; reflexivity.
Qed.



(** ** What the loop of [jack_rechain_graph] writes *)

Lemma order_of_shapes (e : jack_engine_t) (x : nat) :
  order_of e x = execution_order <$> shapes e !! x.
Proof.
  unfold order_of, shapes. rewrite list_lookup_fmap.
  destruct (client_mem e !! x); reflexivity.
Qed.

Lemma wait_fd_of_shapes (e : jack_engine_t) (x : nat) :
  wait_fd_of e x = subgraph_wait_fd <$> shapes e !! x.
Proof.
  unfold wait_fd_of, shapes. rewrite list_lookup_fmap.
  destruct (client_mem e !! x); reflexivity.
Qed.

Lemma control_of_shapes (e : jack_engine_t) (x : nat) :
  control_of e x = control <$> shapes e !! x.
Proof.
  unfold control_of, shapes. rewrite list_lookup_fmap.
  destruct (client_mem e !! x); reflexivity.
Qed.

Lemma get_fifo_fd_client_mem (e e' : jack_engine_t) (n : nat) (fd : Z) :
  jack_get_fifo_fd e n = Done (fd, e') ->
  client_mem e' = client_mem e /\ clients e' = clients e.
Proof.
  assert (Hopen : forall e0 e1 fd0, fifo_fd_open e0 n = Done (fd0, e1) ->
                    client_mem e1 = client_mem e0 /\ clients e1 = clients e0).
  { intros e0 e1 fd0. unfold fifo_fd_open.
    destruct (_ <=? _)%nat; [discriminate|]. intros H. bind_split H as cur Hcur.
    destruct (cur <? 0); simpl in H.
    - destruct (ret _ <? 0); inversion H; auto.
    - inversion H; auto. }
  unfold jack_get_fifo_fd. simpl.
  destruct (negb (ok _)).
  - destruct (enoent _); simpl.
    + destruct (negb (ok _)); [intros H; inversion H; auto|].
      intros H. apply Hopen in H. exact H.
    + intros H; inversion H; auto.
  - destruct (negb (is_fifo _)); [intros H; inversion H; auto|].
    intros H. apply Hopen in H. exact H.
Qed.

Lemma clear_fifos_client_mem (e : jack_engine_t) :
  client_mem (jack_clear_fifos e) = client_mem e /\
  clients (jack_clear_fifos e) = clients e.
Proof.
  unfold jack_clear_fifos. generalize (fifo e) as l. intros l. revert e.
  induction l as [|fd l IH]; intros e; cbn [fold_left]; [auto|].
  destruct (0 <=? fd); [|apply IH].
  destruct (IH (snd (os_call e))) as [H1 H2]. rewrite H1, H2. auto.
Qed.

Lemma put_client_shapes (e e' : jack_engine_t) (c : nat) (v : jack_client_internal_t) :
  put_client e c v = Done e' ->
  shapes e' = <[c := shape v]> (shapes e) /\ clients e' = clients e.
Proof.
  intros H. apply put_client_Done in H as [_ ->]. unfold shapes. simpl.
  rewrite list_fmap_insert. auto.
Qed.

Lemma client_error_incr_shapes (e e' : jack_engine_t) (c : nat) :
  client_error_incr e c = Done e' -> shapes e' = shapes e /\ clients e' = clients e.
Proof.
  unfold client_error_incr. intros H. bind_split H as cl Hcl.
  apply get_client_Done in Hcl.
  apply put_client_shapes in H as [-> ->]. split; [|reflexivity].
  apply list_insert_id. unfold shapes. rewrite list_lookup_fmap, Hcl. reflexivity.
Qed.

Lemma deliver_event_shapes (e e' : jack_engine_t) (c : nat) (ev : jack_event_t) (r : Z) :
  jack_deliver_event e c ev = Done (r, e') ->
  shapes e' = shapes e /\ clients e' = clients e.
Proof.
  unfold jack_deliver_event. intros H. bind_split H as cl Hcl.
  destruct (dead (control cl)); [inversion H; auto|].
  destruct (jack_client_is_internal cl).
  - destruct (internal_handles _ _); inversion H; auto.
  - simpl in H. bind_split H as e1 H1. bind_split H as cl1 Hcl1.
    bind_split H as e2 H2. bind_split H as e3 H3. inversion H; subst.
    assert (S1 : shapes e1 = shapes e /\ clients e1 = clients e).
    { destruct (negb (ok _)); [apply client_error_incr_shapes in H1; exact H1|].
      inversion H1; auto. }
    assert (S2 : shapes e2 = shapes e1 /\ clients e2 = clients e1).
    { destruct (_ && _); [apply client_error_incr_shapes in H2; exact H2|].
      inversion H2; auto. }
    assert (S3 : shapes e' = shapes e2 /\ clients e' = clients e2).
    { destruct (negb (_ =? 0)); [apply client_error_incr_shapes in H3; exact H3|].
      inversion H3; auto. }
    destruct S1 as [A1 B1], S2 as [A2 B2], S3 as [A3 B3]. split; congruence.
Qed.

Section Proj.
Context {A : Type} (proj : jack_client_internal_t -> A).

Lemma proj_insert_same (m : list jack_client_internal_t) (g : nat)
    (v old : jack_client_internal_t) (x : nat) :
  m !! g = Some old -> proj v = proj old ->
  proj <$> (<[g := v]> m) !! x = proj <$> m !! x.
Proof.
  intros Hg Hp. destruct (decide (x = g)) as [->|Hne].
  - rewrite list_lookup_insert_eq by (eapply lookup_lt_Some; eauto).
    rewrite Hg. simpl. congruence.
  - rewrite list_lookup_insert_ne by auto. reflexivity.
Qed.

Lemma proj_insert_other (m : list jack_client_internal_t) (g : nat)
    (v : jack_client_internal_t) (x : nat) :
  x <> g -> proj <$> (<[g := v]> m) !! x = proj <$> m !! x.
Proof. intros Hne. rewrite list_lookup_insert_ne by auto. reflexivity. Qed.

Lemma proj_insert_here (m : list jack_client_internal_t) (g : nat)
    (v old : jack_client_internal_t) :
  m !! g = Some old -> proj <$> (<[g := v]> m) !! g = Some (proj v).
Proof.
  intros Hg. rewrite list_lookup_insert_eq by (eapply lookup_lt_Some; eauto). reflexivity.
Qed.
End Proj.

Lemma get_client_shapes (e : jack_engine_t) (c : nat) (cl : jack_client_internal_t) :
  get_client e c = Done cl -> shapes e !! c = Some (shape cl).
Proof.
  intros H. apply get_client_Done in H. unfold shapes.
  rewrite list_lookup_fmap, H. reflexivity.
Qed.

(** What one turn of the loop does to the client records, for an active client [c]. *)
Lemma rechain_client_spec (s s1 : rechain_state) (c : nat) (nxt : option nat)
    (cl : jack_client_internal_t) :
  rechain_client s c nxt = Done s1 ->
  client_mem (rc_engine s) !! c = Some cl ->
  clients (rc_engine s1) = clients (rc_engine s) /\
  (forall x, control_of (rc_engine s1) x = control_of (rc_engine s) x) /\
  rc_n s <= rc_n s1 /\
  (jack_client_is_internal cl = false -> rc_n s1 = rc_n s + 1) /\
  rc_subgraph_client s1
    = (if jack_client_is_internal cl then None
       else Some (default c (rc_subgraph_client s))) /\
  order_of (rc_engine s1) c = Some (rc_n s) /\
  (forall x, x <> c -> order_of (rc_engine s1) x = order_of (rc_engine s) x) /\
  (forall x, rc_subgraph_client s <> Some x ->
             wait_fd_of (rc_engine s1) x = wait_fd_of (rc_engine s) x) /\
  (jack_client_is_internal cl = false ->
   forall g, rc_subgraph_client s = Some g -> wait_fd_of (rc_engine s1) g = Some (-1)).
Proof.
  intros H Hcl. unfold rechain_client in H.
  apply get_client_Done in Hcl as Gcl. rewrite Gcl in H. simpl in H.
  bind_split H as e1 H1.
  pose proof (get_client_shapes _ _ _ Gcl) as Scl.
  apply put_client_shapes in H1 as [S1 C1].
  destruct (jack_client_is_internal cl) eqn:Hint.
  - bind_split H as [n2 e2] H2. bind_split H as [r3 e3] H3.
    apply deliver_event_shapes in H3 as [S3 C3].
    inversion H; subst s1; clear H. simpl.
    destruct (rc_subgraph_client s) as [g|] eqn:Hsg.
    + bind_split H2 as [fd e4] H4. apply get_fifo_fd_client_mem in H4 as [M4 C4].
      bind_split H2 as sgc Hsgc. bind_split H2 as e5 H5.
      apply get_client_shapes in Hsgc.
      apply put_client_shapes in H5 as [S5 C5].
      inversion H2; subst n2 e5; clear H2.
      assert (S4 : shapes e4 = shapes e1) by (unfold shapes; rewrite M4; reflexivity).
      rewrite S4 in *. rewrite S1 in *.
      split; [congruence|].
      split.
      { intros x. rewrite !control_of_shapes, S3, S5.
        rewrite (proj_insert_same control _ _ _ (shape sgc)) by (auto).
        rewrite (proj_insert_same control _ _ _ (shape cl)); auto. }
      split; [lia|]. split; [discriminate|]. split; [reflexivity|].
      split.
      { rewrite order_of_shapes, S3, S5.
        rewrite (proj_insert_same execution_order _ _ _ (shape sgc)) by auto.
        rewrite (proj_insert_here execution_order _ _ _ (shape cl)); auto. }
      split.
      { intros x Hx. rewrite !order_of_shapes, S3, S5.
        rewrite (proj_insert_same execution_order _ _ _ (shape sgc)) by auto.
        rewrite (proj_insert_other execution_order); auto. }
      split; [|discriminate].
      intros x Hx. rewrite !wait_fd_of_shapes, S3, S5.
      rewrite (proj_insert_other subgraph_wait_fd) by congruence.
      rewrite (proj_insert_same subgraph_wait_fd _ _ _ (shape cl)); auto.
    + inversion H2; subst n2 e2; clear H2. rewrite S1 in *.
      split; [congruence|].
      split.
      { intros x. rewrite !control_of_shapes, S3.
        rewrite (proj_insert_same control _ _ _ (shape cl)); auto. }
      split; [lia|]. split; [discriminate|]. split; [reflexivity|].
      split.
      { rewrite order_of_shapes, S3.
        rewrite (proj_insert_here execution_order _ _ _ (shape cl)); auto. }
      split.
      { intros x Hx. rewrite !order_of_shapes, S3.
        rewrite (proj_insert_other execution_order); auto. }
      split; [|discriminate].
      intros x Hx. rewrite !wait_fd_of_shapes, S3.
      rewrite (proj_insert_same subgraph_wait_fd _ _ _ (shape cl)); auto.
  - bind_split H as [g2 e2] H2. bind_split H as cl3 Hcl3.
    bind_split H as [r4 e4] H4. bind_split H as cl5 Hcl5.
    bind_split H as [r6 e6] H6.
    apply get_fifo_fd_client_mem in H4 as [M4 C4].
    apply deliver_event_shapes in H6 as [S6 C6].
    inversion H; subst s1; clear H. simpl.
    assert (S4 : shapes e4 = shapes e2) by (unfold shapes; rewrite M4; reflexivity).
    destruct (rc_subgraph_client s) as [g|] eqn:Hsg.
    + bind_split H2 as sgc Hsgc. bind_split H2 as e7 H7.
      apply get_client_shapes in Hsgc.
      apply put_client_shapes in H7 as [S7 C7].
      inversion H2; subst g2 e7; clear H2.
      rewrite S1 in *.
      split; [congruence|].
      split.
      { intros x. rewrite !control_of_shapes, S6, S4, S7.
        rewrite (proj_insert_same control _ _ _ (shape sgc)) by auto.
        rewrite (proj_insert_same control _ _ _ (shape cl)); auto. }
      split; [lia|]. split; [reflexivity|]. split; [reflexivity|].
      split.
      { rewrite order_of_shapes, S6, S4, S7.
        rewrite (proj_insert_same execution_order _ _ _ (shape sgc)) by auto.
        rewrite (proj_insert_here execution_order _ _ _ (shape cl)); auto. }
      split.
      { intros x Hx. rewrite !order_of_shapes, S6, S4, S7.
        rewrite (proj_insert_same execution_order _ _ _ (shape sgc)) by auto.
        rewrite (proj_insert_other execution_order); auto. }
      split.
      { intros x Hx. rewrite !wait_fd_of_shapes, S6, S4, S7.
        rewrite (proj_insert_other subgraph_wait_fd) by congruence.
        rewrite (proj_insert_same subgraph_wait_fd _ _ _ (shape cl)); auto. }
      intros _ g' Hg'. inversion Hg'; subst g'.
      rewrite wait_fd_of_shapes, S6, S4, S7.
      rewrite (proj_insert_here subgraph_wait_fd _ _ _ (shape sgc)); auto.
    + bind_split H2 as [fd e7] H7. apply get_fifo_fd_client_mem in H7 as [M7 C7].
      bind_split H2 as cl8 Hcl8. bind_split H2 as e9 H9.
      apply get_client_shapes in Hcl8.
      apply put_client_shapes in H9 as [S9 C9].
      inversion H2; subst g2 e9; clear H2.
      assert (S7 : shapes e7 = shapes e1) by (unfold shapes; rewrite M7; reflexivity).
      rewrite S7 in *. rewrite S1 in *.
      split; [congruence|].
      split.
      { intros x. rewrite !control_of_shapes, S6, S4, S9.
        rewrite (proj_insert_same control _ _ _ (shape cl8)) by auto.
        rewrite (proj_insert_same control _ _ _ (shape cl)); auto. }
      split; [lia|]. split; [reflexivity|]. split; [reflexivity|].
      split.
      { rewrite order_of_shapes, S6, S4, S9.
        rewrite (proj_insert_same execution_order _ _ _ (shape cl8)) by auto.
        rewrite (proj_insert_here execution_order _ _ _ (shape cl)); auto. }
      split.
      { intros x Hx. rewrite !order_of_shapes, S6, S4, S9.
        rewrite (proj_insert_same execution_order _ _ _ (shape cl8)) by auto.
        rewrite (proj_insert_other execution_order); auto. }
      split; [|intros _ g' Hg'; discriminate].
      intros x Hx. rewrite !wait_fd_of_shapes, S6, S4, S9.
      rewrite (proj_insert_same subgraph_wait_fd _ _ _ (shape cl8)) by auto.
      rewrite (proj_insert_same subgraph_wait_fd _ _ _ (shape cl)); auto.
Qed.

Lemma control_of_lookup (e : jack_engine_t) (c : nat) (cl : jack_client_internal_t) :
  client_mem e !! c = Some cl -> control_of e c = Some (control cl).
Proof. intros H. unfold control_of. rewrite H. reflexivity. Qed.

Lemma control_of_inv (e : jack_engine_t) (c : nat) (ctl : jack_client_control_t) :
  control_of e c = Some ctl -> exists cl, client_mem e !! c = Some cl /\ control cl = ctl.
Proof.
  unfold control_of. destruct (client_mem e !! c) as [cl|]; simpl; intros H; inversion H.
  eauto.
Qed.

Lemma inactive_prefix_0 (e : jack_engine_t) (node : list nat) : inactive_prefix e node 0.
Proof. destruct node; exact I. Qed.

Lemma inactive_prefix_ext (e e' : jack_engine_t) (node : list nat) (k : nat) :
  (forall x, control_of e' x = control_of e x) ->
  inactive_prefix e node k -> inactive_prefix e' node k.
Proof.
  intros Hc. revert node. induction k as [|k IH]; intros [|c rest]; simpl; auto.
  intros [Hin Hrest]. rewrite Hc. split; [exact Hin | apply IH, Hrest].
Qed.

Lemma count_inactive_prefix (e : jack_engine_t) (node : list nat) (k : nat) :
  count_inactive e node = Done k -> inactive_prefix e node k.
Proof.
  revert k. induction node as [|c rest IH]; intros k; simpl.
  - intros H. inversion H. exact I.
  - intros H. bind_split H as cl Hcl. apply get_client_Done in Hcl.
    destruct (active (control cl)) eqn:Hact.
    + inversion H. exact I.
    + bind_split H as k' Hk'. inversion H. simpl. split.
      * exists (control cl). split; [apply control_of_lookup, Hcl | exact Hact].
      * apply IH, Hk'.
Qed.

(** Jumping over the inactive nodes is the same as visiting them. *)
Lemma rechain_loop_all (node : list nat) :
  forall (skip : nat) (s : rechain_state),
    inactive_prefix (rc_engine s) node skip ->
    rechain_loop node skip s = rechain_all node s.
Proof.
  induction node as [|c rest IH]; intros skip s Hpre; [reflexivity|].
  destruct skip as [|k].
  - simpl. destruct (get_client (rc_engine s) c) as [cl| |] eqn:Hcl; simpl; try reflexivity.
    destruct (active (control cl)); [|apply IH, inactive_prefix_0].
    destruct (count_inactive (rc_engine s) rest) as [k| |] eqn:Hk; simpl; try reflexivity.
    destruct (rechain_client s c (rest !! k)) as [s'| |] eqn:Hs'; simpl; try reflexivity.
    apply IH. apply get_client_Done in Hcl.
    destruct (rechain_client_spec _ _ _ _ _ Hs' Hcl) as (_ & Hctl & _).
    eapply inactive_prefix_ext; [exact Hctl|]. apply count_inactive_prefix, Hk.
  - simpl in Hpre. destruct Hpre as [(ctl & Hctl & Hact) Hrest].
    apply control_of_inv in Hctl as (cl & Hcl & <-).
    simpl. apply get_client_Done in Hcl. rewrite Hcl. simpl. rewrite Hact.
    apply IH, Hrest.
Qed.

Lemma jack_client_is_internal_control (cl : jack_client_internal_t) :
  jack_client_is_internal cl = control_is_internal (control cl).
Proof. reflexivity. Qed.



(** The end of [jack_rechain_graph]: closing the subgraph still open. *)
Lemma rechain_close_spec (s : rechain_state) (e' : jack_engine_t) (r : Z) :
  match rc_subgraph_client s with
  | Some sg =>
      '(fd, e) ← jack_get_fifo_fd (rc_engine s) (Z.to_nat (rc_n s));
      sgc ← get_client e sg;
      e ← put_client e sg (set_subgraph_wait_fd sgc fd);
      mret (0, e)
  | None => mret (0, rc_engine s)
  end = Done (r, e') ->
  clients e' = clients (rc_engine s) /\
  (forall x, control_of e' x = control_of (rc_engine s) x) /\
  (forall x, order_of e' x = order_of (rc_engine s) x) /\
  (forall x, rc_subgraph_client s <> Some x ->
             wait_fd_of e' x = wait_fd_of (rc_engine s) x).
Proof.
  destruct (rc_subgraph_client s) as [sg|]; intros H.
  - bind_split H as [fd e1] H1. apply get_fifo_fd_client_mem in H1 as [M1 C1].
    bind_split H as sgc Hsgc. bind_split H as e2 H2. inversion H; subst; clear H.
    apply get_client_shapes in Hsgc. apply put_client_shapes in H2 as [S2 C2].
    assert (S1 : shapes e1 = shapes (rc_engine s)) by (unfold shapes; rewrite M1; reflexivity).
    rewrite S1 in *.
    split; [congruence|]. split; [|split].
    + intros x. rewrite !control_of_shapes, S2.
      apply (proj_insert_same control _ _ _ (shape sgc)); auto.
    + intros x. rewrite !order_of_shapes, S2.
      apply (proj_insert_same execution_order _ _ _ (shape sgc)); auto.
    + intros x Hx. rewrite !wait_fd_of_shapes, S2.
      apply (proj_insert_other subgraph_wait_fd). congruence.
  - inversion H; subst. auto.
Qed.

Lemma fields_after_clear_fifos (e : jack_engine_t) (x : nat) :
  control_of (jack_clear_fifos e) x = control_of e x /\
  order_of (jack_clear_fifos e) x = order_of e x /\
  wait_fd_of (jack_clear_fifos e) x = wait_fd_of e x.
Proof.
  unfold control_of, order_of, wait_fd_of.
  destruct (clear_fifos_client_mem e) as [-> _]. auto.
Qed.


Lemma subgraph_client_after_ext (e e' : jack_engine_t) (l : list nat) :
  (forall x, control_of e' x = control_of e x) ->
  forall sg, subgraph_client_after e' sg l = subgraph_client_after e sg l.
Proof.
  intros Hc. induction l as [|c l IH]; intros sg; simpl; [reflexivity|].
  rewrite Hc. destruct (control_of e c) as [ctl|]; [|reflexivity].
  destruct (active ctl); [destruct (control_is_internal ctl)|]; apply IH.
Qed.

(** The client that has a subgraph open was met on the way. *)
Lemma subgraph_client_after_visited (e : jack_engine_t) (l : list nat) :
  forall sg g, subgraph_client_after e sg l = Some g -> sg = Some g \/ g ∈ l.
Proof.
  induction l as [|c l IH]; intros sg g; simpl; [auto|].
  destruct (control_of e c) as [ctl|]; [|auto].
  destruct (active ctl); [destruct (control_is_internal ctl)|]; intros H.
  - apply IH in H as [H|H]; [discriminate|]. right. apply elem_of_cons. auto.
  - apply IH in H as [H|H].
    + destruct sg as [g0|]; simpl in H; inversion H; subst.
      * auto.
      * right. apply elem_of_cons. auto.
    + right. apply elem_of_cons. auto.
  - apply IH in H as [H|H]; [auto|]. right. apply elem_of_cons. auto.
Qed.

(** A client that the rest of the loop does not visit, and that is not
    the one holding the subgraph open, keeps its [subgraph_wait_fd]. *)
Lemma rechain_all_wait_frame (node : list nat) :
  forall s s', rechain_all node s = Done s' ->
    forall x, x ∉ node -> rc_subgraph_client s <> Some x ->
      wait_fd_of (rc_engine s') x = wait_fd_of (rc_engine s) x /\
      rc_subgraph_client s' <> Some x.
Proof.
  induction node as [|c rest IH]; intros s s' H x Hx Hsg.
  - inversion H; subst. auto.
  - simpl in H. rewrite not_elem_of_cons in Hx. destruct Hx as [Hxc Hxr].
    bind_split H as cl Hcl. apply get_client_Done in Hcl.
    destruct (active (control cl)).
    + bind_split H as k Hk. bind_split H as s1 Hs1.
      destruct (rechain_client_spec _ _ _ _ _ Hs1 Hcl)
        as (_ & _ & _ & _ & Hsg1 & _ & _ & Hw & _).
      destruct (IH _ _ H x Hxr) as [Hw' Hsg'].
      * rewrite Hsg1. destruct (jack_client_is_internal cl); [discriminate|].
        destruct (rc_subgraph_client s) as [g|]; simpl; congruence.
      * split; [rewrite Hw', Hw by exact Hsg; reflexivity | exact Hsg'].
    + apply (IH _ _ H x Hxr Hsg).
Qed.

(** An active external client met while a subgraph is open comes out of
    the loop with the [subgraph_wait_fd] it went in with. *)
Lemma rechain_all_met_in_open_subgraph (l1 : list nat) :
  forall (c : nat) (rest : list nat) (s s' : rechain_state)
         (ctl : jack_client_control_t) (g : nat),
    NoDup (l1 ++ c :: rest) ->
    control_of (rc_engine s) c = Some ctl -> active ctl = true ->
    control_is_internal ctl = false ->
    subgraph_client_after (rc_engine s) (rc_subgraph_client s) l1 = Some g ->
    rc_subgraph_client s <> Some c ->
    rechain_all (l1 ++ c :: rest) s = Done s' ->
    wait_fd_of (rc_engine s') c = wait_fd_of (rc_engine s) c /\
    rc_subgraph_client s' <> Some c.
Proof.
  induction l1 as [|y l1 IH]; intros c rest s s' ctl g Hnd Hc Hact Hext Hsg Hne H.
  - simpl in *. apply NoDup_cons in Hnd as [Hcr Hnd].
    apply control_of_inv in Hc as (cl & Hcl & <-).
    apply get_client_Done in Hcl as Gcl. rewrite Gcl in H. simpl in H. rewrite Hact in H.
    bind_split H as k Hk. bind_split H as s1 Hs1.
    destruct (rechain_client_spec _ _ _ _ _ Hs1 Hcl)
      as (_ & _ & _ & _ & Hsg1 & _ & _ & Hw & _).
    rewrite jack_client_is_internal_control, Hext, Hsg in Hsg1. simpl in Hsg1.
    destruct (rechain_all_wait_frame _ _ _ H c Hcr) as [Hw' Hsg'].
    + rewrite Hsg1. congruence.
    + split; [rewrite Hw', Hw by exact Hne; reflexivity | exact Hsg'].
  - simpl in H. rewrite <- app_comm_cons in Hnd. apply NoDup_cons in Hnd as [Hy Hnd].
    assert (Hyc : y <> c).
    { intros ->. apply Hy. apply elem_of_app. right. apply elem_of_cons. auto. }
    bind_split H as cly Hcly. apply get_client_Done in Hcly.
    simpl in Hsg. rewrite (control_of_lookup _ _ _ Hcly) in Hsg.
    destruct (active (control cly)).
    + bind_split H as k Hk. bind_split H as s1 Hs1.
      destruct (rechain_client_spec _ _ _ _ _ Hs1 Hcly)
        as (_ & Hctl & _ & _ & Hsg1 & _ & _ & Hw & _).
      rewrite jack_client_is_internal_control in Hsg1.
      destruct (IH c rest s1 s' ctl g Hnd) as [Hw' Hsg']; auto.
      * rewrite Hctl. exact Hc.
      * rewrite (subgraph_client_after_ext _ _ _ Hctl), Hsg1.
        destruct (control_is_internal (control cly)); exact Hsg.
      * rewrite Hsg1. destruct (control_is_internal (control cly)); [discriminate|].
        destruct (rc_subgraph_client s) as [g0|]; simpl; congruence.
      * split; [rewrite Hw', Hw by exact Hne; reflexivity | exact Hsg'].
    + apply (IH c rest s s' ctl g Hnd Hc Hact Hext Hsg Hne H).
Qed.

(** ** The subgraph_wait_fd of a client inside a subgraph *)


(** C7 as stated fails: B is met while the subgraph opened by A is open,
    and after [jack_rechain_graph] its own [subgraph_wait_fd] is the 7 it
    had before, not -1. *)
Lemma rechain_leaves_wait_fd_of_second_external :
  exists e',
    jack_rechain_graph duo_engine = Done (0, e') /\
    clients duo_engine = [0; 1]%nat /\
    control_of duo_engine 1 = Some (new_control 2 "B" ClientExternal true) /\
    subgraph_client_after duo_engine None [0%nat] = Some 0%nat /\
    wait_fd_of duo_engine 1 = Some 7 /\
    wait_fd_of e' 1 = Some 7 /\
    wait_fd_of e' 1 <> Some (-1).
Proof.
  eexists. split; [vm_compute; reflexivity|].
  repeat (split; [reflexivity|]). discriminate.
Qed.

(** C7, amended.  Let [c] be an active external client of the list that
    is met while the subgraph opened by [g] is open.  Then [g] is another
    client; the turn of the loop for [c] stores -1 in the
    [subgraph_wait_fd] of [g] and leaves that of [c] alone; and when
    [jack_rechain_graph] returns, the [subgraph_wait_fd] of [c] is what
    it was on entry. *)
Theorem rechain_marks_subgraph_starter_not_member
    (e e' : jack_engine_t) (r : Z) (l1 l2 : list nat) (c g : nat)
    (ctl : jack_client_control_t) :
  clients e = l1 ++ c :: l2 ->
  NoDup (clients e) ->
  control_of e c = Some ctl -> active ctl = true -> control_is_internal ctl = false ->
  subgraph_client_after e None l1 = Some g ->
  jack_rechain_graph e = Done (r, e') ->
  g <> c /\
  wait_fd_of e' c = wait_fd_of e c /\
  (forall s s1 nxt cl,
     rc_subgraph_client s = Some g ->
     client_mem (rc_engine s) !! c = Some cl -> jack_client_is_internal cl = false ->
     rechain_client s c nxt = Done s1 ->
     wait_fd_of (rc_engine s1) g = Some (-1) /\
     wait_fd_of (rc_engine s1) c = wait_fd_of (rc_engine s) c /\
     rc_subgraph_client s1 = Some g).
Proof.
  intros Hl Hnd Hc Hact Hext Hsg H.
  assert (Hgc : g <> c).
  { apply subgraph_client_after_visited in Hsg as [Hsg|Hg]; [discriminate|].
    rewrite Hl in Hnd. apply NoDup_app in Hnd as (_ & Hdis & _).
    intros ->. apply (Hdis c Hg). apply elem_of_cons. auto. }
  split; [exact Hgc|]. split.
  - unfold jack_rechain_graph in H. bind_split H as s' Hloop.
    destruct (clear_fifos_client_mem e) as [_ Hcs]. rewrite Hcs, Hl in Hloop.
    rewrite rechain_loop_all in Hloop by apply inactive_prefix_0.
    rewrite Hl in Hnd.
    rewrite <- (proj1 (fields_after_clear_fifos e c)) in Hc.
    rewrite <- (subgraph_client_after_ext e (jack_clear_fifos e)) in Hsg
      by (intros x; apply fields_after_clear_fifos).
    match type of Hloop with rechain_all _ ?s0 = _ =>
      change (jack_clear_fifos e) with (rc_engine s0) in Hc, Hsg;
      change (subgraph_client_after (rc_engine s0) None l1)
        with (subgraph_client_after (rc_engine s0) (rc_subgraph_client s0) l1) in Hsg;
      assert (Hne : rc_subgraph_client s0 <> Some c) by discriminate
    end.
    destruct (rechain_all_met_in_open_subgraph l1 c l2 _ _ ctl g
                Hnd Hc Hact Hext Hsg Hne Hloop) as [Hw Hfin].
    apply rechain_close_spec in H as (_ & _ & _ & Hclose).
    rewrite (Hclose c Hfin), Hw. simpl.
    apply fields_after_clear_fifos.
  - intros s s1 nxt cl Hs Hcl Hx Hstep.
    destruct (rechain_client_spec _ _ _ _ _ Hstep Hcl)
      as (_ & _ & _ & _ & Hsg1 & _ & _ & Hw & Hminus).
    split; [apply (Hminus Hx g Hs)|]. split.
    + apply Hw. rewrite Hs. congruence.
    + rewrite Hsg1, Hx, Hs. reflexivity.
Qed.

Lemma rechain_marks_subgraph_starter_not_member_witness :
  exists e',
    clients duo_engine = [0%nat] ++ 1%nat :: [] /\
    NoDup (clients duo_engine) /\
    control_of duo_engine 1 = Some (new_control 2 "B" ClientExternal true) /\
    active (new_control 2 "B" ClientExternal true) = true /\
    control_is_internal (new_control 2 "B" ClientExternal true) = false /\
    subgraph_client_after duo_engine None [0%nat] = Some 0%nat /\
    jack_rechain_graph duo_engine = Done (0, e') /\
    (0%nat <> 1%nat /\
     wait_fd_of e' 1 = wait_fd_of duo_engine 1 /\
     (forall s s1 nxt cl,
        rc_subgraph_client s = Some 0%nat ->
        client_mem (rc_engine s) !! 1%nat = Some cl -> jack_client_is_internal cl = false ->
        rechain_client s 1 nxt = Done s1 ->
        wait_fd_of (rc_engine s1) 0 = Some (-1) /\
        wait_fd_of (rc_engine s1) 1 = wait_fd_of (rc_engine s) 1 /\
        rc_subgraph_client s1 = Some 0%nat)).
Proof.
  eexists.
  assert (Hnd : NoDup (clients duo_engine)).
  { simpl. apply NoDup_cons. split.
    - intros H. apply elem_of_cons in H as [H|H]; [discriminate | inversion H].
    - apply NoDup_singleton. }
  assert (Hrun : jack_rechain_graph duo_engine = Done (0, _)) by (vm_compute; reflexivity).
  split; [reflexivity|]. split; [exact Hnd|]. split; [reflexivity|].
  split; [reflexivity|]. split; [reflexivity|]. split; [reflexivity|].
  split; [exact Hrun|].
  apply (rechain_marks_subgraph_starter_not_member duo_engine _ 0 [0%nat] [] 1%nat 0%nat
           (new_control 2 "B" ClientExternal true));
    [reflexivity | exact Hnd | reflexivity | reflexivity | reflexivity | reflexivity
    | exact Hrun].
Defined.

(** ** Execution order after the sort *)

(** The five steps of [jack_sort_graph]. *)
Lemma jack_sort_graph_steps (srt : (nat -> nat -> Z) -> list nat -> list nat) (fuel : nat)
    (e : jack_engine_t) :
  jack_sort_graph srt fuel e
  = (e ← for_each direct_feeders (clients e) e;
     e ← for_each (fun e c => jack_trace_terminal fuel e c c) (clients e) e;
     let e := set_clients e (srt (client_compare e) (clients e)) in
     e ← jack_compute_all_port_total_latencies fuel e;
     '(_, e) ← jack_rechain_graph e;
     mret e).
Proof. reflexivity. Qed.

(** C6 as stated fails.  The driver feeds the external client and is not
    fed by it, and after [jack_sort_graph] both have execution order 0:
    the loop of [jack_rechain_graph] only moves to the next number after
    an external client. *)
Lemma driver_and_its_reader_share_execution_order :
  exists e',
    jack_sort_graph stable_sort 20 capture_engine = Done e' /\
    clients e' = [0; 1]%nat /\
    fed_by <$> client_mem e' !! 1%nat = Some [0%nat] /\
    fed_by <$> client_mem e' !! 0%nat = Some [] /\
    order_of e' 0 = Some 0 /\ order_of e' 1 = Some 0 /\
    ~ feeders_run_first e'.
Proof.
  eexists. split; [vm_compute; reflexivity|].
  repeat (split; [reflexivity|]).
  intros H.
  specialize (H 0%nat 1%nat _ _
                ltac:(apply elem_of_cons; auto)
                ltac:(apply elem_of_cons; right; apply elem_of_cons; auto)
                eq_refl eq_refl eq_refl).
  destruct H as [Hlt|[Hfb _]]; [simpl in Hlt; lia | simpl in Hfb; discriminate].
Qed.

(** The same whatever [jack_slist_sort] does, if it returns the two
    clients in one order or the other: with the reader first the driver
    gets the larger number. *)
Lemma driver_and_its_reader_any_sort
    (srt : (nat -> nat -> Z) -> list nat -> list nat) (e' : jack_engine_t) :
  (forall cmp, srt cmp [0; 1]%nat = [0; 1]%nat \/ srt cmp [0; 1]%nat = [1; 0]%nat) ->
  jack_sort_graph srt 20 capture_engine = Done e' ->
  ~ feeders_run_first e'.
Proof.
  intros Hsrt Hrun.
  assert (S1 : exists e2 ea eb,
             (for_each direct_feeders (clients capture_engine) capture_engine
              ≫= fun e => for_each (fun e c => jack_trace_terminal 20 e c c) (clients e) e)
             = Done e2 /\ clients e2 = [0; 1]%nat /\
             (jack_compute_all_port_total_latencies 20 (set_clients e2 [0; 1]%nat)
              ≫= fun e => jack_rechain_graph e ≫= fun '(_, e) => mret e) = Done ea /\
             (jack_compute_all_port_total_latencies 20 (set_clients e2 [1; 0]%nat)
              ≫= fun e => jack_rechain_graph e ≫= fun '(_, e) => mret e) = Done eb /\
             ~ feeders_run_first ea /\ ~ feeders_run_first eb).
  { eexists. eexists. eexists.
    split; [vm_compute; reflexivity|]. split; [reflexivity|].
    split; [vm_compute; reflexivity|]. split; [vm_compute; reflexivity|].
    split; intros H.
    - specialize (H 0%nat 1%nat _ _
                ltac:(apply elem_of_cons; auto)
                ltac:(apply elem_of_cons; right; apply elem_of_cons; auto)
                eq_refl eq_refl eq_refl).
      destruct H as [Hlt|[Hfb _]]; [simpl in Hlt; lia | simpl in Hfb; discriminate].
    - specialize (H 0%nat 1%nat _ _
                ltac:(apply elem_of_cons; right; apply elem_of_cons; auto)
                ltac:(apply elem_of_cons; auto)
                eq_refl eq_refl eq_refl).
      destruct H as [Hlt|[Hfb _]]; [simpl in Hlt; lia | simpl in Hfb; discriminate]. }
  destruct S1 as (e2 & ea & eb & E2 & C2 & Ea & Eb & Na & Nb).
  rewrite jack_sort_graph_steps in Hrun.
  bind_split Hrun as e1 H1. bind_split Hrun as e2' H2.
  assert (e2' = e2).
  { bind_split E2 as e1' H1'. rewrite H1 in H1'. inversion H1'; subst e1'.
    rewrite H2 in E2. inversion E2. reflexivity. }
  subst e2'. rewrite C2 in Hrun.
  bind_split Hrun as e3 H3. bind_split Hrun as [r4 e4] H4.
  inversion Hrun; subst e4; clear Hrun.
  destruct (Hsrt (client_compare e2)) as [Hs|Hs]; rewrite Hs in H3.
  - bind_split Ea as e3' H3'. rewrite H3 in H3'. inversion H3'; subst e3'.
    bind_split Ea as [r4' e4'] H4'. rewrite H4 in H4'. inversion H4'; subst.
    inversion Ea; subst. exact Na.
  - bind_split Eb as e3' H3'. rewrite H3 in H3'. inversion H3'; subst e3'.
    bind_split Eb as [r4' e4'] H4'. rewrite H4 in H4'. inversion H4'; subst.
    inversion Eb; subst. exact Nb.
Qed.

(** What the comparator answers, from the two fed-by lists. *)
Lemma jack_client_sort_table (e : jack_engine_t) (a b : nat)
    (ca cb : jack_client_internal_t) :
  client_mem e !! a = Some ca -> client_mem e !! b = Some cb ->
  jack_client_sort e a b
  = Done (if jack_slist_find (fed_by ca) b
          then (if jack_slist_find (fed_by cb) a
                   && bool_decide (c_type (control ca) = ClientDriver)
                then -1 else 1)
          else if jack_slist_find (fed_by cb) a then -1 else 0).
Proof.
  intros Ha Hb. unfold jack_client_sort.
  apply get_client_Done in Ha, Hb. rewrite Ha. simpl. rewrite Hb. simpl.
  destruct (jack_slist_find (fed_by ca) b); simpl.
  - destruct (_ && _); reflexivity.
  - destruct (jack_slist_find (fed_by cb) a); reflexivity.
Qed.







(** The condition on the client list is not one that every sort meets.
    The comparator answers 0 for two clients that do not feed each other,
    and on [late_feeder_engine] the insertion sort, which compares
    neighbours, never sets A against C: the list stays C, B, A, and A,
    which feeds C, is numbered 2 against the 0 of C. *)
Lemma insertion_sort_leaves_a_feeder_last :
  exists e',
    jack_sort_graph stable_sort 20 late_feeder_engine = Done e' /\
    clients e' = [0; 1; 2]%nat /\
    fed_by <$> client_mem e' = [[2]; []; []]%nat /\
    execution_order <$> client_mem e' = [0; 1; 2] /\
    comparator_ordered e' (clients e') = false.
Proof.
  eexists. split; [vm_compute; reflexivity|].
  repeat split; reflexivity.
Qed.

(** ** The client-side operations leave the ports alone *)

Lemma put_client_ports (e e' : jack_engine_t) (c : nat) (v : jack_client_internal_t) :
  put_client e c v = Done e' -> ports_of e' = ports_of e.
Proof. intros H. apply put_client_Done in H as [_ ->]. reflexivity. Qed.

Lemma client_error_incr_ports (e e' : jack_engine_t) (c : nat) :
  client_error_incr e c = Done e' -> ports_of e' = ports_of e.
Proof.
  unfold client_error_incr. intros H. bind_split H as cl Hcl.
  apply put_client_ports in H. exact H.
Qed.

Lemma deliver_event_ports (e e' : jack_engine_t) (c : nat) (ev : jack_event_t) (r : Z) :
  jack_deliver_event e c ev = Done (r, e') -> ports_of e' = ports_of e.
Proof.
  unfold jack_deliver_event. intros H. bind_split H as cl Hcl.
  destruct (dead (control cl)); [inversion H; auto|].
  destruct (jack_client_is_internal cl).
  - destruct (internal_handles _ _); inversion H; auto.
  - simpl in H. bind_split H as e1 H1. bind_split H as cl1 Hcl1.
    bind_split H as e2 H2. bind_split H as e3 H3. inversion H; subst.
    assert (S1 : ports_of e1 = ports_of e).
    { destruct (negb (ok _)); [apply client_error_incr_ports in H1; exact H1|].
      inversion H1; auto. }
    assert (S2 : ports_of e2 = ports_of e1).
    { destruct (_ && _); [apply client_error_incr_ports in H2; exact H2|].
      inversion H2; auto. }
    assert (S3 : ports_of e' = ports_of e2).
    { destruct (negb (_ =? 0)); [apply client_error_incr_ports in H3; exact H3|].
      inversion H3; auto. }
    congruence.
Qed.







Lemma for_each_ports {A : Type} (body : jack_engine_t -> A -> outcome jack_engine_t)
    (l : list A) :
  (forall e x e', body e x = Done e' -> ports_of e' = ports_of e) ->
  forall e e', for_each body l e = Done e' -> ports_of e' = ports_of e.
Proof.
  intros Hbody. induction l as [|x l IH]; intros e e' H; simpl in H.
  - inversion H; reflexivity.
  - bind_split H as e1 H1. apply Hbody in H1. apply IH in H. congruence.
Qed.





(** ** What the total latencies depend on *)







Lemma port_identity_blank (sh : jack_port_shared_t) :
  port_identity sh = set_monitor_requests (blank_latency sh) 0.
Proof. reflexivity. Qed.



Lemma set_ectl_twice (e : jack_engine_t) (c c' : jack_control_t) :
  set_ectl (set_ectl e c) c' = set_ectl e c'.
Proof. reflexivity. Qed.

Lemma set_shared_ports_twice (c : jack_control_t) (T T' : list jack_port_shared_t) :
  set_shared_ports (set_shared_ports c T) T' = set_shared_ports c T'.
Proof. reflexivity. Qed.




(** ** Connect, then disconnect *)

Lemma ports_of_inv (e e' : jack_engine_t) :
  ports_of e' = ports_of e ->
  ectl e' = ectl e /\ internal_ports e' = internal_ports e /\ port_max e' = port_max e.
Proof. unfold ports_of. intros H. inversion H. auto. Qed.













(** On [settled_engine], where nothing is pending and the stored total
    latencies are those of a fresh sort, the two calls do give back the
    port tables they started from. *)
Lemma settled_engine_is_restored :
  exists e1 e2,
    jack_port_do_connect stable_sort 20 settled_engine "x:out" "y:in" = Done (0, e1) /\
    jack_port_do_disconnect stable_sort 20 e1 "x:out" "y:in" = Done (0, e2) /\
    ports_of e2 = ports_of settled_engine.
Proof.
  eexists. eexists.
  split; [vm_compute; reflexivity|].
  split; vm_compute; reflexivity.
Qed.

(** ** Lookups *)

Lemma port_by_name_from_spec (tbl : list jack_port_shared_t) (nm : string) (n : nat) :
  forall i, (i + n <= length tbl)%nat ->
  exists r, port_by_name_from tbl nm i n = Done r /\
    match r with
    | Some k =>
        (i <= k < i + n)%nat /\
        (exists p, tbl !! k = Some p /\ in_use p = true /\ name p = nm) /\
        (forall j q, (i <= j < k)%nat -> tbl !! j = Some q ->
                     in_use q = false \/ name q <> nm)
    | None =>
        forall j q, (i <= j < i + n)%nat -> tbl !! j = Some q ->
                    in_use q = false \/ name q <> nm
    end.
Proof.
  induction n as [|n IH]; intros i Hlen; simpl.
  - exists None. split; [reflexivity|]. intros j q Hj. lia.
  - destruct (lookup_lt_is_Some_2 tbl i) as [p Hp]; [lia|].
    rewrite (proj2 (fetch_Done _ _ _) Hp). cbn [mbind outcome_bind].
    destruct (in_use p && String.eqb (name p) nm) eqn:Hm.
    + exists (Some i). split; [reflexivity|].
      apply andb_true_iff in Hm as [Hu Hn]. apply String.eqb_eq in Hn.
      split; [lia|]. split; [eauto|]. intros; lia.
    + destruct (IH (S i)) as (r & Hr & Hspec); [lia|]. exists r. split; [exact Hr|].
      assert (Hi : forall q, tbl !! i = Some q -> in_use q = false \/ name q <> nm).
      { intros q Hq. rewrite Hp in Hq. injection Hq as <-.
        apply andb_false_iff in Hm as [Hu|Hn]; [left; exact Hu | right].
        apply String.eqb_neq. exact Hn. }
      destruct r as [k|].
      * destruct Hspec as (Hk & Hp' & Hlow). split; [lia|]. split; [exact Hp'|].
        intros j q Hj Hq.
        destruct (decide (j = i)) as [->|Hne];
          [apply Hi; exact Hq | apply (Hlow j q); [lia | exact Hq]].
      * intros j q Hj Hq.
        destruct (decide (j = i)) as [->|Hne];
          [apply Hi; exact Hq | apply (Hspec j q); [lia | exact Hq]].
Qed.

(** [jack_get_port_by_name] on a table that holds [port_max] slots always
    answers, and its answer is the lowest slot that is in use under that
    name; it answers [NULL] only when no slot below [port_max] is in use
    under the name. *)
Theorem port_by_name_finds_lowest_in_use (e : jack_engine_t) (nm : string) :
  (port_max e <= length (shared_ports (ectl e)))%nat ->
  exists r, jack_get_port_by_name e nm = Done r /\
    match r with
    | Some k =>
        (k < port_max e)%nat /\
        (exists p, shared_ports (ectl e) !! k = Some p /\ in_use p = true /\ name p = nm) /\
        (forall j q, (j < k)%nat -> shared_ports (ectl e) !! j = Some q ->
                     in_use q = false \/ name q <> nm)
    | None =>
        forall j q, (j < port_max e)%nat -> shared_ports (ectl e) !! j = Some q ->
                    in_use q = false \/ name q <> nm
    end.
Proof.
  intros Hlen. unfold jack_get_port_by_name.
  destruct (port_by_name_from_spec (shared_ports (ectl e)) nm (port_max e) 0)
    as (r & Hr & Hspec); [lia|].
  exists r. split; [exact Hr|]. destruct r as [k|].
  - destruct Hspec as (Hk & Hp & Hlow). split; [lia|]. split; [exact Hp|].
    intros j q Hj. apply Hlow. lia.
  - intros j q Hj. apply Hspec. lia.
Qed.

Lemma port_by_name_finds_lowest_in_use_witness :
  (port_max ring_engine <= length (shared_ports (ectl ring_engine)))%nat /\
  exists r, jack_get_port_by_name ring_engine "B:in" = Done r /\
    match r with
    | Some k =>
        (k < port_max ring_engine)%nat /\
        (exists p, shared_ports (ectl ring_engine) !! k = Some p /\ in_use p = true
                   /\ name p = "B:in") /\
        (forall j q, (j < k)%nat -> shared_ports (ectl ring_engine) !! j = Some q ->
                     in_use q = false \/ name q <> "B:in")
    | None =>
        forall j q, (j < port_max ring_engine)%nat ->
                    shared_ports (ectl ring_engine) !! j = Some q ->
                    in_use q = false \/ name q <> "B:in"
    end.
Proof.
  assert (H : (port_max ring_engine <= length (shared_ports (ectl ring_engine)))%nat)
    by (vm_compute; lia).
  split; [exact H|]. exact (port_by_name_finds_lowest_in_use ring_engine "B:in" H).
Defined.




(** [jack_client_internal_by_id], when every node of the client list
    points at a client record, always answers: with the first client of
    the list that carries the id, or with [NULL] exactly when no client
    of the list carries it. *)
Theorem client_by_id_finds_first_in_list (e : jack_engine_t) (cid : Z) :
  (forall c, c ∈ clients e -> is_Some (client_mem e !! c)) ->
  exists r, jack_client_internal_by_id e cid = Done r /\
    match r with
    | Some c =>
        exists l1 l2 cl,
          clients e = l1 ++ c :: l2 /\ client_mem e !! c = Some cl /\
          c_id (control cl) = cid /\
          forall x clx, x ∈ l1 -> client_mem e !! x = Some clx -> c_id (control clx) <> cid
    | None =>
        forall x clx, x ∈ clients e -> client_mem e !! x = Some clx ->
                      c_id (control clx) <> cid
    end.
Proof.
  unfold jack_client_internal_by_id. generalize (clients e) as node.
  induction node as [|c node IH]; intros Hmem; simpl.
  - exists None. split; [reflexivity|]. intros x clx Hx. inversion Hx.
  - destruct (Hmem c) as [cl Hcl]; [left|].
    unfold get_client. rewrite (proj2 (fetch_Done _ _ _) Hcl). cbn [mbind outcome_bind].
    destruct (Z.eqb_spec (c_id (control cl)) cid) as [Heq|Hne].
    + exists (Some c). split; [reflexivity|]. exists [], node, cl.
      split; [reflexivity|]. split; [exact Hcl|]. split; [exact Heq|].
      intros x clx Hx. inversion Hx.
    + destruct IH as (r & Hr & Hspec); [intros x Hx; apply Hmem; right; exact Hx|].
      exists r. split; [exact Hr|]. destruct r as [c'|].
      * destruct Hspec as (l1 & l2 & cl' & -> & Hcl' & Hid & Hlow).
        exists (c :: l1), l2, cl'. split; [reflexivity|]. split; [exact Hcl'|].
        split; [exact Hid|]. intros x clx Hx Hclx.
        apply elem_of_cons in Hx as [->|Hx]; [congruence | eapply Hlow; eauto].
      * intros x clx Hx Hclx.
        apply elem_of_cons in Hx as [->|Hx]; [congruence | eapply Hspec; eauto].
Qed.

Lemma client_by_id_finds_first_in_list_witness :
  (forall c, c ∈ clients ring_engine -> is_Some (client_mem ring_engine !! c)) /\
  exists r, jack_client_internal_by_id ring_engine 12 = Done r /\
    match r with
    | Some c =>
        exists l1 l2 cl,
          clients ring_engine = l1 ++ c :: l2 /\ client_mem ring_engine !! c = Some cl /\
          c_id (control cl) = 12 /\
          forall x clx, x ∈ l1 -> client_mem ring_engine !! x = Some clx ->
                        c_id (control clx) <> 12
    | None =>
        forall x clx, x ∈ clients ring_engine -> client_mem ring_engine !! x = Some clx ->
                      c_id (control clx) <> 12
    end.
Proof.
  assert (H : forall c, c ∈ clients ring_engine -> is_Some (client_mem ring_engine !! c)).
  { intros c Hc. change (clients ring_engine) with [0; 1; 2; 3]%nat in Hc.
    repeat (apply elem_of_cons in Hc as [->|Hc]; [eexists; reflexivity|]).
    inversion Hc. }
  split; [exact H|]. exact (client_by_id_finds_first_in_list ring_engine 12 H).
Defined.

(** ** Buffers *)

Lemma set_buffer_freelist_id (ty : jack_port_type_info_t) :
  set_buffer_freelist ty (buffer_freelist ty) = ty.
Proof. destruct ty. reflexivity. Qed.

Lemma set_buffer_info_id (ip : jack_port_internal_t) :
  set_buffer_info ip (buffer_info ip) = ip.
Proof. destruct ip. reflexivity. Qed.

Lemma fetch_lookup {A : Type} (l : list A) (i : nat) (x : A) :
  l !! i = Some x -> fetch l i = Done x.
Proof. apply fetch_Done. Qed.

Lemma assign_release (e e1 : jack_engine_t) (p : nat)
    (ip : jack_port_internal_t) :
  internal_ports e !! p = Some ip -> buffer_info ip = None ->
  jack_port_assign_buffer e p = Done (0, e1) ->
  exists e2 sh off,
    jack_port_release e1 p = Done e2 /\
    shared_ports (ectl e) !! shared ip = Some sh /\
    port_types (ectl e2) = port_types (ectl e) /\
    internal_ports e2 = internal_ports e /\
    shared_ports (ectl e2)
    = <[shared ip := set_in_use (set_offset sh off) false]> (shared_ports (ectl e)).
Proof.
  intros Hip Hbuf H. unfold jack_port_assign_buffer in H.
  bind_split H as ti Hti. unfold jack_global_port_type_info in Hti.
  bind_split Hti as ip0 Hip0. bind_split Hti as sh Hsh. inversion Hti; subst ti; clear Hti.
  bind_split H as pt Hpt. bind_split H as ip1 Hip1. bind_split H as sh1 Hsh1.
  apply fetch_Done in Hip0, Hsh, Hpt, Hip1, Hsh1.
  assert (ip0 = ip) by congruence. subst ip0.
  assert (ip1 = ip) by congruence. subst ip1.
  assert (sh1 = sh) by congruence. subst sh1. clear Hip1 Hsh1.
  assert (Hlt : (shared ip < length (shared_ports (ectl e)))%nat)
    by (eapply lookup_lt_Some; exact Hsh).
  destruct (has_flag (flags sh) JackPortIsInput).
  - inversion H; subst e1; clear H.
    eexists _, sh, 0. split.
    { unfold jack_port_release.
      cbn [internal_ports set_ectl ectl shared_ports set_shared_ports].
      rewrite (fetch_lookup _ _ _ Hip). cbn [mbind outcome_bind].
      rewrite (fetch_lookup _ _ (set_offset sh 0))
        by (apply list_lookup_insert_eq; exact Hlt).
      cbn [mbind outcome_bind]. rewrite Hbuf. reflexivity. }
    split; [exact Hsh|].
    cbn [internal_ports set_ectl ectl shared_ports set_shared_ports port_types].
    split; [reflexivity|]. split; [reflexivity|].
    rewrite list_insert_insert_eq. reflexivity.
  - destruct (buffer_freelist pt) as [|bi l] eqn:Hfree; [discriminate|].
    assert (Hrm : jack_slist_remove same_buffer (bi :: l) bi = l).
    { simpl. unfold same_buffer. rewrite Z.eqb_refl. reflexivity. }
    rewrite Hrm in H. inversion H; subst e1; clear H.
    assert (Hplt : (p < length (internal_ports e))%nat) by (eapply lookup_lt_Some; exact Hip).
    assert (Htlt : (type_id (type_info sh) < length (port_types (ectl e)))%nat)
      by (eapply lookup_lt_Some; exact Hpt).
    eexists _, sh, (bi_offset bi). split.
    { unfold jack_port_release, jack_global_port_type_info.
      cbn [internal_ports set_ectl set_internal_ports ectl shared_ports set_shared_ports
           port_types set_port_types].
      rewrite (fetch_lookup _ _ (set_buffer_info ip (Some bi)))
        by (apply list_lookup_insert_eq; exact Hplt).
      cbn [mbind outcome_bind shared set_buffer_info buffer_info].
      rewrite (fetch_lookup _ _ (set_offset sh (bi_offset bi)))
        by (apply list_lookup_insert_eq; exact Hlt).
      cbn [mbind outcome_bind].
      rewrite list_insert_insert_eq.
      rewrite (fetch_lookup _ _ (set_in_use (set_offset sh (bi_offset bi)) false))
        by (apply list_lookup_insert_eq; exact Hlt).
      cbn [mbind outcome_bind mret outcome_ret type_info set_in_use set_offset type_id].
      rewrite (fetch_lookup _ _ (set_buffer_freelist pt l))
        by (apply list_lookup_insert_eq; exact Htlt).
      cbn [mbind outcome_bind]. reflexivity. }
    split; [exact Hsh|].
    cbn [internal_ports set_ectl set_internal_ports ectl shared_ports set_shared_ports
         port_types set_port_types buffer_freelist set_buffer_freelist].
    split; [|split].
    + rewrite list_insert_insert_eq. apply list_insert_id. rewrite Hpt. f_equal.
      rewrite <- Hfree. destruct pt; reflexivity.
    + rewrite list_insert_insert_eq. apply list_insert_id. rewrite Hip. f_equal.
      rewrite <- Hbuf. destruct ip; reflexivity.
    + reflexivity.
Qed.

(** A buffer that [jack_port_assign_buffer] hands to a port whose slot
    held none goes back where it came from: after a successful
    assignment [jack_port_release] always returns, and the free-lists of
    all port types and the internal port table are again what they were.
    Of the port descriptor only [offset] and [in_use] are written. *)
Theorem assign_then_release_returns_buffer (e e1 : jack_engine_t) (p : nat)
    (ip : jack_port_internal_t) :
  internal_ports e !! p = Some ip -> buffer_info ip = None ->
  jack_port_assign_buffer e p = Done (0, e1) ->
  exists e2 sh off,
    jack_port_release e1 p = Done e2 /\
    shared_ports (ectl e) !! shared ip = Some sh /\
    port_types (ectl e2) = port_types (ectl e) /\
    internal_ports e2 = internal_ports e /\
    shared_ports (ectl e2)
    = <[shared ip := set_in_use (set_offset sh off) false]> (shared_ports (ectl e)).
Proof. apply assign_release. Qed.

Lemma assign_then_release_returns_buffer_witness :
  exists e1,
    internal_ports pool_engine !! 0%nat = Some (wired 0 []) /\
    buffer_info (wired 0 []) = None /\
    jack_port_assign_buffer pool_engine 0 = Done (0, e1) /\
    exists e2 sh off,
      jack_port_release e1 0 = Done e2 /\
      shared_ports (ectl pool_engine) !! shared (wired 0 []) = Some sh /\
      port_types (ectl e2) = port_types (ectl pool_engine) /\
      internal_ports e2 = internal_ports pool_engine /\
      shared_ports (ectl e2)
      = <[shared (wired 0 []) := set_in_use (set_offset sh off) false]>
          (shared_ports (ectl pool_engine)).
Proof.
  eexists.
  assert (H1 : internal_ports pool_engine !! 0%nat = Some (wired 0 [])) by reflexivity.
  assert (H2 : buffer_info (wired 0 []) = None) by reflexivity.
  split; [exact H1|]. split; [exact H2|].
  match goal with
  | |- ?P /\ _ => assert (H3 : P) by (vm_compute; reflexivity); split; [exact H3|]
  end.
  exact (assign_then_release_returns_buffer pool_engine _ 0%nat (wired 0 []) H1 H2 H3).
Defined.

(** ** Registration *)

Lemma first_free_port_inv (tbl : list jack_port_shared_t) (n : nat) :
  forall i k, first_free_port tbl i n = Done (Some k) ->
    (i <= k < i + n)%nat /\
    (exists p, tbl !! k = Some p /\ in_use p = false) /\
    (forall j q, (i <= j < k)%nat -> tbl !! j = Some q -> in_use q = true).
Proof.
  induction n as [|n IH]; intros i k H; simpl in H; [discriminate|].
  bind_split H as p Hp. apply fetch_Done in Hp.
  destruct (in_use p) eqn:Hu.
  - apply IH in H as (Hk & Hfree & Hlow). split; [lia|]. split; [exact Hfree|].
    intros j q Hj Hq. destruct (decide (j = i)) as [->|Hne]; [congruence|].
    apply (Hlow j q); [lia | exact Hq].
  - inversion H; subst k. split; [lia|]. split; [eauto|]. intros; lia.
Qed.

Lemma find_port_type_spec (types : list jack_port_type_info_t) (nm : string) :
  forall i ti, (find_port_type types nm i - i < length types)%nat ->
    types !! (find_port_type types nm i - i)%nat = Some ti -> type_name ti = nm.
Proof.
  induction types as [|t types IH]; intros i ti Hlt Hti; simpl in *; [lia|].
  destruct (String.eqb nm (type_name t)) eqn:Hn.
  - rewrite Nat.sub_diag in Hti. simpl in Hti. injection Hti as <-.
    apply String.eqb_eq in Hn. congruence.
  - assert (Hge : forall ts j, (j <= find_port_type ts nm j)%nat).
    { induction ts as [|t' ts IHts]; intros j; simpl; [lia|].
      destruct (String.eqb nm (type_name t')); [lia|]. specialize (IHts (S j)). lia. }
    specialize (Hge types (S i)).
    replace (find_port_type types nm (S i) - i)%nat
      with (S (find_port_type types nm (S i) - S i))%nat in Hti, Hlt by lia.
    simpl in Hti. apply (IH (S i) ti); [lia | exact Hti].
Qed.


Lemma for_each_shapes {A : Type} (body : jack_engine_t -> A -> outcome jack_engine_t)
    (l : list A) :
  (forall e x e', body e x = Done e' -> shapes e' = shapes e /\ clients e' = clients e) ->
  forall e e', for_each body l e = Done e' -> shapes e' = shapes e /\ clients e' = clients e.
Proof.
  intros Hbody. induction l as [|x l IH]; intros e e' H; simpl in H.
  - inversion H. auto.
  - bind_split H as e1 H1. apply Hbody in H1 as [Hs Hc]. apply IH in H as [Hs' Hc'].
    split; congruence.
Qed.

Lemma registration_notify_ports (e e' : jack_engine_t) (port_id : nat) (yn : bool) :
  jack_port_registration_notify e port_id yn = Done e' -> ports_of e' = ports_of e.
Proof.
  unfold jack_port_registration_notify. apply for_each_ports.
  intros e0 c e0' H. bind_split H as cl Hcl.
  destruct (negb (active (control cl))); [inversion H; reflexivity|].
  destruct (port_register (control cl)); [|inversion H; reflexivity].
  bind_split H as [r e1] H1. inversion H; subst. eapply deliver_event_ports; eauto.
Qed.

Lemma registration_notify_shapes (e e' : jack_engine_t) (port_id : nat) (yn : bool) :
  jack_port_registration_notify e port_id yn = Done e' ->
  shapes e' = shapes e /\ clients e' = clients e.
Proof.
  unfold jack_port_registration_notify. apply for_each_shapes.
  intros e0 c e0' H. bind_split H as cl Hcl.
  destruct (negb (active (control cl))); [inversion H; auto|].
  destruct (port_register (control cl)); [|inversion H; auto].
  bind_split H as [r e1] H1. inversion H; subst. eapply deliver_event_shapes; eauto.
Qed.

Lemma assign_buffer_success (e e1 : jack_engine_t) (k : nat) (ip : jack_port_internal_t)
    (sh : jack_port_shared_t) :
  internal_ports e !! k = Some ip ->
  shared_ports (ectl e) !! shared ip = Some sh ->
  jack_port_assign_buffer e k = Done (0, e1) ->
  exists off b,
    shared_ports (ectl e1) = <[shared ip := set_offset sh off]> (shared_ports (ectl e)) /\
    internal_ports e1 = <[k := set_buffer_info ip b]> (internal_ports e) /\
    client_mem e1 = client_mem e /\ clients e1 = clients e /\
    port_max e1 = port_max e /\ trace e1 = trace e.
Proof.
  intros Hip Hsh H. unfold jack_port_assign_buffer in H.
  bind_split H as ti Hti. bind_split H as pt Hpt.
  bind_split H as ip1 Hip1. bind_split H as sh1 Hsh1.
  apply fetch_Done in Hip1, Hsh1.
  assert (ip1 = ip) by congruence. subst ip1.
  assert (sh1 = sh) by congruence. subst sh1.
  destruct (has_flag (flags sh) JackPortIsInput).
  - inversion H; subst e1. exists 0, (buffer_info ip).
    split; [reflexivity|]. split; [|auto].
    cbn [internal_ports set_ectl]. rewrite set_buffer_info_id.
    symmetry. apply list_insert_id. exact Hip.
  - destruct (buffer_freelist pt) as [|bi l]; [discriminate|].
    inversion H; subst e1. exists (bi_offset bi), (Some bi).
    split; [reflexivity|]. split; [reflexivity|]. auto.
Qed.

(** The engine on which [jack_port_do_register] calls
    [jack_port_assign_buffer] once it has taken slot [k] for the request. *)
Lemma register_success (e e' : jack_engine_t) (req req' : jack_request_t) :
  jack_port_do_register e req = Done (0, req', e') ->
  exists k p ti port client cl e2,
    req' = set_req_port_id req (Z.of_nat k) /\
    (k < port_max e)%nat /\
    shared_ports (ectl e) !! k = Some p /\ in_use p = false /\
    (forall j q, (j < k)%nat -> shared_ports (ectl e) !! j = Some q -> in_use q = true) /\
    type_name ti = req_type req /\
    internal_ports e !! k = Some port /\
    jack_port_assign_buffer
      (set_internal_ports
         (set_ectl e (set_shared_ports (ectl e)
                        (<[k := fill_shared (set_in_use p true) req ti]>
                           (shared_ports (ectl e)))))
         (<[k := {| shared := k; connections := []; buffer_info := buffer_info port |}]>
            (internal_ports e)))
      k = Done (0, e2) /\
    ports_of e' = ports_of e2 /\
    jack_client_internal_by_id e (req_client_id req) = Done (Some client) /\
    client_mem e !! client = Some cl /\
    shapes e' = <[client := shape (set_ports cl (k :: ports cl))]> (shapes e) /\
    clients e' = clients e.
Proof.
  unfold jack_port_do_register. intros H.
  destruct (Nat.eqb_spec (find_port_type (port_types (ectl e)) (req_type req) 0)
              (length (port_types (ectl e)))) as [|Hty]; [discriminate|].
  bind_split H as rc Hrc. destruct rc as [client|]; [|discriminate].
  bind_split H as [free e1] Hfree. destruct free as [k|]; [|discriminate].
  bind_split H as sh Hsh. bind_split H as ti Hti. bind_split H as port Hport.
  bind_split H as [failed e2] Hassign.
  destruct (Z.eqb_spec failed 0) as [->|]; [|discriminate]. cbn [negb] in H.
  bind_split H as cl Hcl. bind_split H as e3 Hput. bind_split H as e4 Hnot.
  inversion H; subst req' e4; clear H.
  unfold jack_get_free_port in Hfree. bind_split Hfree as r0 Hscan.
  destruct r0 as [k0|]; [|discriminate].
  bind_split Hfree as p Hp. inversion Hfree; subst k0 e1; clear Hfree.
  apply first_free_port_inv in Hscan as (Hk & (p' & Hp' & Hu) & Hlow).
  apply fetch_Done in Hp, Hsh, Hti, Hport.
  assert (p' = p) by congruence. subst p'. clear Hp'.
  cbn [ectl set_ectl shared_ports set_shared_ports internal_ports port_types] in Hsh, Hti, Hport.
  assert (Hklt : (k < length (shared_ports (ectl e)))%nat) by (eapply lookup_lt_Some; eauto).
  rewrite list_lookup_insert_eq in Hsh by exact Hklt. injection Hsh as <-.
  cbn [ectl set_ectl shared_ports set_shared_ports internal_ports set_internal_ports]
    in Hassign.
  rewrite list_insert_insert_eq in Hassign.
  match type of Hassign with
  | jack_port_assign_buffer ?ea _ = _ =>
      change ea with
        (set_internal_ports
           (set_ectl e (set_shared_ports (ectl e)
                          (<[k := fill_shared (set_in_use p true) req ti]>
                             (shared_ports (ectl e)))))
           (<[k := {| shared := k; connections := []; buffer_info := buffer_info port |}]>
              (internal_ports e))) in Hassign
  end.
  assert (Hplt : (k < length (internal_ports e))%nat) by (eapply lookup_lt_Some; eauto).
  pose proof Hassign as Hassign'.
  apply (assign_buffer_success _ _ _
           {| shared := k; connections := []; buffer_info := buffer_info port |}
           (fill_shared (set_in_use p true) req ti)) in Hassign'
    as (off & b & _ & _ & HM2 & HC2 & _ & _);
    [ | cbn [internal_ports set_internal_ports]; apply list_lookup_insert_eq; exact Hplt
      | cbn [ectl set_ectl set_internal_ports shared_ports set_shared_ports shared];
        apply list_lookup_insert_eq; exact Hklt ].
  cbn [client_mem clients set_internal_ports set_ectl] in HM2, HC2.
  apply fetch_Done in Hcl. rewrite HM2 in Hcl.
  pose proof (put_client_ports _ _ _ _ Hput) as HP3.
  apply put_client_shapes in Hput as [HS3 HC3].
  pose proof (registration_notify_ports _ _ _ _ Hnot) as HP4.
  apply registration_notify_shapes in Hnot as [HS4 HC4].
  exists k, p, ti, port, client, cl, e2.
  split; [reflexivity|]. split; [lia|]. split; [exact Hp|]. split; [exact Hu|].
  split; [intros j q Hj; apply Hlow; lia|].
  split.
  { apply (find_port_type_spec (port_types (ectl e)) (req_type req) 0 ti);
      rewrite Nat.sub_0_r; [eapply lookup_lt_Some; exact Hti | exact Hti]. }
  split; [exact Hport|]. split; [exact Hassign|].
  split; [congruence|]. split; [exact Hrc|]. split; [exact Hcl|].
  split; [|congruence].
  rewrite HS4, HS3. unfold shapes. rewrite HM2. reflexivity.
Qed.



(** A port that has just been registered answers to its name: on a table
    that holds [port_max] slots, [jack_get_port_by_name] of the
    registered name returns a port, in the new port's slot or a lower
    one, and the new port itself when no port in use carried the name
    before.  Registration does not look for the name among the ports in
    use. *)
Theorem registered_port_is_found_by_name
    (e e' : jack_engine_t) (req req' : jack_request_t) :
  (port_max e <= length (shared_ports (ectl e)))%nat ->
  jack_port_do_register e req = Done (0, req', e') ->
  exists j,
    jack_get_port_by_name e' (req_name req) = Done (Some j) /\
    Z.of_nat j <= req_port_id req' /\
    ((forall i q, shared_ports (ectl e) !! i = Some q -> in_use q = true ->
                  name q <> req_name req) ->
     Z.of_nat j = req_port_id req').
Proof.
  intros Hlen H.
  destruct (register_success _ _ _ _ H)
    as (k & p & ti & port & client & cl & e2 & Hreq & Hk & Hp & Hu & Hlow & Hty & Hport
        & Hassign & Hports & _).
  assert (Hklt : (k < length (shared_ports (ectl e)))%nat) by (eapply lookup_lt_Some; eauto).
  assert (Hplt : (k < length (internal_ports e))%nat) by (eapply lookup_lt_Some; eauto).
  apply (assign_buffer_success _ _ _
           {| shared := k; connections := []; buffer_info := buffer_info port |}
           (fill_shared (set_in_use p true) req ti)) in Hassign
    as (off & b & HT2 & _ & _ & _ & HP2 & _);
    [ | cbn [internal_ports set_internal_ports]; apply list_lookup_insert_eq; exact Hplt
      | cbn [ectl set_ectl set_internal_ports shared_ports set_shared_ports shared];
        apply list_lookup_insert_eq; exact Hklt ].
  cbn [ectl set_ectl set_internal_ports internal_ports shared_ports set_shared_ports shared
       port_max] in HT2, HP2.
  rewrite list_insert_insert_eq in HT2.
  apply ports_of_inv in Hports as (Hc & _ & Hm).
  unfold jack_get_port_by_name. rewrite Hc, HT2, Hm, HP2.
  set (sh' := set_offset (fill_shared (set_in_use p true) req ti) off).
  destruct (port_by_name_from_spec (<[k := sh']> (shared_ports (ectl e)))
              (req_name req) (port_max e) 0) as (r & Hr & Hspec);
    [rewrite length_insert; lia|].
  assert (Hnew : <[k := sh']> (shared_ports (ectl e)) !! k = Some sh')
    by (apply list_lookup_insert_eq; exact Hklt).
  destruct r as [j|].
  - destruct Hspec as (Hj & (q & Hq & Hqu & Hqn) & Hbelow).
    assert (Hjk : (j <= k)%nat).
    { destruct (Nat.le_gt_cases j k) as [|Hgt]; [assumption|].
      destruct (Hbelow k sh' ltac:(lia) Hnew) as [Hx|Hx]; [discriminate Hx | now elim Hx]. }
    exists j. split; [exact Hr|]. subst req'. cbn [req_port_id set_req_port_id].
    split; [lia|]. intros Hfresh.
    destruct (decide (j = k)) as [->|Hne]; [reflexivity|].
    rewrite list_lookup_insert_ne in Hq by congruence.
    elim (Hfresh j q Hq Hqu Hqn).
  - destruct (Hspec k sh' ltac:(lia) Hnew) as [Hx|Hx]; [discriminate Hx | now elim Hx].
Qed.

Lemma registered_port_is_found_by_name_witness :
  exists e' req',
    (port_max pool_engine <= length (shared_ports (ectl pool_engine)))%nat /\
    jack_port_do_register pool_engine reg_request = Done (0, req', e') /\
    exists j,
      jack_get_port_by_name e' (req_name reg_request) = Done (Some j) /\
      Z.of_nat j <= req_port_id req' /\
      ((forall i q, shared_ports (ectl pool_engine) !! i = Some q -> in_use q = true ->
                    name q <> req_name reg_request) ->
       Z.of_nat j = req_port_id req').
Proof.
  eexists. eexists.
  assert (H0 : (port_max pool_engine <= length (shared_ports (ectl pool_engine)))%nat)
    by (vm_compute; lia).
  split; [exact H0|].
  match goal with
  | |- ?P /\ _ => assert (H : P) by (vm_compute; reflexivity); split; [exact H|]
  end.
  exact (registered_port_is_found_by_name pool_engine _ reg_request _ H0 H).
Defined.

Lemma client_by_id_controls (e e' : jack_engine_t) (cid : Z) :
  (forall x, control_of e' x = control_of e x) ->
  forall node, client_by_id_from e' node cid = client_by_id_from e node cid.
Proof.
  intros Hctl. induction node as [|c node IH]; simpl; [reflexivity|].
  specialize (Hctl c). unfold control_of in Hctl. unfold get_client, fetch.
  destruct (client_mem e' !! c) as [cl'|], (client_mem e !! c) as [cl|];
    simpl in Hctl; try discriminate; [|reflexivity].
  injection Hctl as Hctl. cbn [mbind outcome_bind]. rewrite Hctl, IH. reflexivity.
Qed.

Lemma control_of_shapes_eq (e e' : jack_engine_t) :
  shapes e' = shapes e -> forall x, control_of e' x = control_of e x.
Proof. intros H x. rewrite !control_of_shapes, H. reflexivity. Qed.

Lemma shape_set_ports (a b : jack_client_internal_t) (l : list nat) :
  shape a = shape b -> shape (set_ports a l) = shape (set_ports b l).
Proof.
  destruct a, b. unfold shape, set_error, set_ports. simpl. intros H.
  injection H as -> -> -> -> -> -> -> -> ->. reflexivity.
Qed.

Lemma shape_ports (a b : jack_client_internal_t) :
  shape a = shape b -> ports a = ports b.
Proof. intros H. change (ports (shape a) = ports (shape b)). rewrite H. reflexivity. Qed.

Lemma clear_connections_none (srt : (nat -> nat -> Z) -> list nat -> list nat) (fuel : nat)
    (e : jack_engine_t) (k : nat) (ip : jack_port_internal_t) :
  internal_ports e !! k = Some ip -> connections ip = [] ->
  jack_port_clear_connections srt fuel e k = Done e.
Proof.
  intros Hip Hnone. unfold jack_port_clear_connections.
  rewrite (fetch_lookup _ _ _ Hip). cbn [mbind outcome_bind]. rewrite Hnone.
  cbn [for_each mbind outcome_bind mret outcome_ret].
  rewrite (fetch_lookup _ _ _ Hip). cbn [mbind outcome_bind mret outcome_ret].
  f_equal. rewrite list_insert_id.
  - destruct e; reflexivity.
  - rewrite Hip. f_equal. rewrite <- Hnone. destruct ip; reflexivity.
Qed.

Lemma release_frame (ea eb ea' : jack_engine_t) (p : nat) :
  ports_of ea = ports_of eb ->
  jack_port_release ea p = Done ea' ->
  exists eb',
    jack_port_release eb p = Done eb' /\ ports_of eb' = ports_of ea' /\
    client_mem eb' = client_mem eb /\ clients eb' = clients eb.
Proof.
  intros Hp H. destruct ea, eb. unfold ports_of in Hp. simpl in Hp.
  injection Hp as -> -> ->.
  unfold jack_port_release, jack_global_port_type_info in *. simpl in *.
  bind_split H as ip Hip. rewrite Hip. cbn [mbind outcome_bind].
  bind_split H as sh Hsh. rewrite Hsh. cbn [mbind outcome_bind].
  destruct (buffer_info ip) as [bi|].
  - bind_split H as ti Hti. rewrite Hip in Hti. cbn [mbind outcome_bind] in Hti.
    rewrite Hti. cbn [mbind outcome_bind].
    bind_split H as info Hinfo. rewrite Hinfo. cbn [mbind outcome_bind].
    inversion H; subst ea'; clear H.
    eexists. split; [reflexivity|]. simpl. auto.
  - inversion H; subst ea'; clear H.
    eexists. split; [reflexivity|]. simpl. auto.
Qed.

(** Registering a port and unregistering it again gives the slot and the
    buffer back.  When no free slot of the table holds a buffer, an
    unregister request for the port that a successful registration has
    just reported returns 0; the free-lists of all port types, the client
    list and every client record apart from its error counter are then
    what they were before the registration, the slot is free again, and
    its internal record has no connection and no buffer.  The slot keeps
    the name, flags and owner the registration wrote. *)
Theorem register_then_unregister_gives_back_slot_and_buffer
    (srt : (nat -> nat -> Z) -> list nat -> list nat) (fuel : nat)
    (e e1 e2 : jack_engine_t) (req req' : jack_request_t) (r : Z) :
  (forall j ip sh, internal_ports e !! j = Some ip -> shared_ports (ectl e) !! j = Some sh ->
                   in_use sh = false -> buffer_info ip = None) ->
  jack_port_do_register e req = Done (0, req', e1) ->
  jack_port_do_unregister srt fuel e1 req' = Done (r, e2) ->
  r = 0 /\
  port_types (ectl e2) = port_types (ectl e) /\
  shapes e2 = shapes e /\ clients e2 = clients e /\
  exists k sh2,
    req_port_id req' = Z.of_nat k /\
    shared_ports (ectl e2) = <[k := sh2]> (shared_ports (ectl e)) /\
    in_use sh2 = false /\ name sh2 = req_name req /\
    internal_ports e2
    = <[k := {| shared := k; connections := []; buffer_info := None |}]> (internal_ports e).
Proof.
  intros Hfree Hreg Hun.
  destruct (register_success _ _ _ _ Hreg)
    as (k & p & ti & port & client & cl & ea2 & Hreq & Hk & Hp & Hu & Hlow & Hty & Hport
        & Hassign & Hports & Hrc & Hcl & Hshapes & Hclients).
  assert (Hklt : (k < length (shared_ports (ectl e)))%nat) by (eapply lookup_lt_Some; eauto).
  assert (Hplt : (k < length (internal_ports e))%nat) by (eapply lookup_lt_Some; eauto).
  assert (Hbuf : buffer_info port = None) by (apply (Hfree k port p Hport Hp Hu)).
  match type of Hassign with
  | jack_port_assign_buffer ?x _ = _ => set (ea := x) in *
  end.
  set (ipa := {| shared := k; connections := []; buffer_info := buffer_info port |}) in *.
  set (sha := fill_shared (set_in_use p true) req ti) in *.
  assert (Hipa : internal_ports ea !! k = Some ipa)
    by (apply list_lookup_insert_eq; exact Hplt).
  assert (Hsha : shared_ports (ectl ea) !! shared ipa = Some sha)
    by (apply list_lookup_insert_eq; exact Hklt).
  destruct (assign_release ea ea2 k ipa Hipa Hbuf Hassign)
    as (er & sh & off & Hrel & Hsh & HrT & HrI & HrS).
  assert (sh = sha) by congruence. subst sh. clear Hsh.
  destruct (assign_buffer_success _ _ _ _ _ Hipa Hsha Hassign)
    as (off' & b & HT2 & HI2 & HM2 & HC2 & HP2 & _).
  pose proof Hports as Hports'.
  apply ports_of_inv in Hports' as (Hc1 & Hi1 & Hm1).
  (* the request passes the checks *)
  unfold jack_port_do_unregister in Hun.
  rewrite Hreq in Hun. cbn [req_port_id set_req_port_id req_client_id] in Hun.
  assert (Hrange : (Z.of_nat k <? 0) || (Z.of_nat k >? Z.of_nat (port_max e1)) = false).
  { apply orb_false_intro; [apply Z.ltb_ge; lia|].
    rewrite Z.gtb_ltb. apply Z.ltb_ge. rewrite Hm1, HP2. cbn. lia. }
  rewrite Hrange, Nat2Z.id in Hun.
  assert (Hsh1 : shared_ports (ectl e1) !! k = Some (set_offset sha off')).
  { rewrite Hc1, HT2. apply list_lookup_insert_eq. cbn. rewrite length_insert. exact Hklt. }
  rewrite (fetch_lookup _ _ _ Hsh1) in Hun. cbn [mbind outcome_bind] in Hun.
  change (client_id (set_offset sha off')) with (req_client_id req) in Hun.
  rewrite Z.eqb_refl in Hun. cbn [negb] in Hun.
  assert (Hclt : (client < length (shapes e))%nat).
  { unfold shapes. rewrite length_fmap. eapply lookup_lt_Some. exact Hcl. }
  assert (Hctl1 : forall x, control_of e1 x = control_of e x).
  { intros x. rewrite !control_of_shapes, Hshapes.
    destruct (decide (x = client)) as [->|Hne].
    - rewrite list_lookup_insert_eq by exact Hclt.
      unfold shapes. rewrite list_lookup_fmap, Hcl. reflexivity.
    - rewrite list_lookup_insert_ne by congruence. reflexivity. }
  assert (Hby : jack_client_internal_by_id e1 (req_client_id req) = Done (Some client)).
  { unfold jack_client_internal_by_id. rewrite Hclients.
    rewrite (client_by_id_controls e e1 _ Hctl1). exact Hrc. }
  rewrite Hby in Hun. cbn [mbind outcome_bind] in Hun.
  (* nothing is connected yet *)
  assert (Hip1 : internal_ports e1 !! k = Some (set_buffer_info ipa b)).
  { rewrite Hi1, HI2. apply list_lookup_insert_eq. cbn. rewrite length_insert. exact Hplt. }
  rewrite (clear_connections_none srt fuel e1 k _ Hip1 eq_refl) in Hun.
  cbn [mbind outcome_bind] in Hun.
  (* the release *)
  bind_split Hun as e3 Hrel1.
  destruct (release_frame e1 ea2 e3 k Hports Hrel1) as (er' & Hrel' & Hp3 & _).
  assert (er' = er) by congruence. subst er'. clear Hrel'.
  destruct (release_frame e1 e1 e3 k eq_refl Hrel1) as (e3' & Hrel' & _ & Hm3 & Hc3).
  assert (e3' = e3) by congruence. subst e3'. clear Hrel'.
  (* the owner's list and the notifications *)
  bind_split Hun as cl3 Hcl3. bind_split Hun as e4 Hput. bind_split Hun as e5 Hnot.
  inversion Hun; subst r e5; clear Hun.
  pose proof (put_client_ports _ _ _ _ Hput) as HP4.
  apply put_client_shapes in Hput as [HS4 HC4].
  pose proof (registration_notify_ports _ _ _ _ Hnot) as HP5.
  apply registration_notify_shapes in Hnot as [HS5 HC5].
  assert (Hports2 : ports_of e2 = ports_of er) by congruence.
  apply ports_of_inv in Hports2 as (Hc2 & Hi2 & _).
  assert (HS3 : shapes e3 = shapes e1) by (unfold shapes; rewrite Hm3; reflexivity).
  apply get_client_shapes in Hcl3. rewrite HS3, Hshapes in Hcl3.
  rewrite list_lookup_insert_eq in Hcl3 by exact Hclt. apply (inj Some) in Hcl3.
  split; [reflexivity|].
  split; [rewrite Hc2, HrT; reflexivity|].
  split.
  { rewrite HS5, HS4, HS3, Hshapes, list_insert_insert_eq.
    apply list_insert_id. unfold shapes at 1. rewrite list_lookup_fmap, Hcl. cbn.
    f_equal. rewrite <- (shape_ports _ _ Hcl3). cbn [ports set_ports].
    cbn [jack_slist_remove]. rewrite Nat.eqb_refl.
    rewrite (shape_set_ports _ _ _ (eq_sym Hcl3)). destruct cl; reflexivity. }
  split; [congruence|].
  exists k, (set_in_use (set_offset sha off) false).
  split; [rewrite Hreq; reflexivity|].
  split; [rewrite Hc2, HrS; cbn; apply list_insert_insert_eq|].
  split; [reflexivity|]. split; [reflexivity|].
  rewrite Hi2, HrI. cbn. unfold ipa. rewrite Hbuf. reflexivity.
Qed.

Lemma register_then_unregister_gives_back_slot_and_buffer_witness :
  exists e1 e2 req',
    (forall j ip sh, internal_ports pool_engine !! j = Some ip ->
                     shared_ports (ectl pool_engine) !! j = Some sh ->
                     in_use sh = false -> buffer_info ip = None) /\
    jack_port_do_register pool_engine reg_request = Done (0, req', e1) /\
    jack_port_do_unregister stable_sort 20 e1 req' = Done (0, e2) /\
    (0 = 0 /\
     port_types (ectl e2) = port_types (ectl pool_engine) /\
     shapes e2 = shapes pool_engine /\ clients e2 = clients pool_engine /\
     exists k sh2,
       req_port_id req' = Z.of_nat k /\
       shared_ports (ectl e2) = <[k := sh2]> (shared_ports (ectl pool_engine)) /\
       in_use sh2 = false /\ name sh2 = req_name reg_request /\
       internal_ports e2
       = <[k := {| shared := k; connections := []; buffer_info := None |}]>
           (internal_ports pool_engine)).
Proof.
  eexists. eexists. eexists.
  assert (H0 : forall j ip sh, internal_ports pool_engine !! j = Some ip ->
                 shared_ports (ectl pool_engine) !! j = Some sh ->
                 in_use sh = false -> buffer_info ip = None).
  { intros j ip sh Hip _ _. destruct j as [|[|j]]; simpl in Hip;
      [injection Hip as <-; reflexivity | injection Hip as <-; reflexivity | discriminate]. }
  split; [exact H0|].
  match goal with
  | |- ?P /\ _ => assert (H1 : P) by (vm_compute; reflexivity); split; [exact H1|]
  end.
  match goal with
  | |- ?P /\ _ => assert (H2 : P) by (vm_compute; reflexivity); split; [exact H2|]
  end.
  exact (register_then_unregister_gives_back_slot_and_buffer
           stable_sort 20 pool_engine _ _ reg_request _ 0 H0 H1 H2).
Defined.

(** ** What the sorter and the notifications leave alone *)

(** Any view of the engine that does not look at the client records, the
    client list, the control block, the FIFO table, the clock or the
    trace is the same after event delivery, rechaining and sorting. *)
Section Frame.

Context {X : Type} (view : jack_engine_t -> X).
Hypothesis view_client_mem : forall e v, view (set_client_mem e v) = view e.
Hypothesis view_clients : forall e v, view (set_clients e v) = view e.
Hypothesis view_ectl : forall e v, view (set_ectl e v) = view e.
Hypothesis view_fifo : forall e v, view (set_fifo e v) = view e.
Hypothesis view_clock : forall e v, view (set_clock e v) = view e.
Hypothesis view_trace : forall e v, view (set_trace e v) = view e.

Lemma os_call_frame (e : jack_engine_t) : view (snd (os_call e)) = view e.
Proof. unfold os_call. cbn [snd]. apply view_clock. Qed.

Lemma emit_frame (ev : io_event) (e : jack_engine_t) : view (emit ev e) = view e.
Proof. unfold emit. apply view_trace. Qed.

Lemma put_client_frame (e e' : jack_engine_t) (c : nat) (v : jack_client_internal_t) :
  put_client e c v = Done e' -> view e' = view e.
Proof. intros H. apply put_client_Done in H as [_ ->]. apply view_client_mem. Qed.

Lemma client_error_incr_frame (e e' : jack_engine_t) (c : nat) :
  client_error_incr e c = Done e' -> view e' = view e.
Proof.
  unfold client_error_incr. intros H. bind_split H as cl Hcl.
  apply put_client_frame in H. exact H.
Qed.

Lemma deliver_event_frame (e e' : jack_engine_t) (c : nat) (ev : jack_event_t) (r : Z) :
  jack_deliver_event e c ev = Done (r, e') -> view e' = view e.
Proof.
  unfold jack_deliver_event. intros H. bind_split H as cl Hcl.
  destruct (dead (control cl)); [inversion H; auto|].
  destruct (jack_client_is_internal cl).
  - destruct (internal_handles _ _); inversion H; auto using emit_frame.
  - unfold os_call in H. cbn beta iota zeta in H.
    bind_split H as e1 H1. bind_split H as cl1 Hcl1.
    bind_split H as e2 H2. bind_split H as e3 H3. inversion H; subst.
    assert (S1 : view e1 = view e).
    { destruct (negb (ok _)); [apply client_error_incr_frame in H1|inversion H1];
        rewrite ?H1, emit_frame, view_clock; reflexivity. }
    assert (S2 : view e2 = view e1).
    { destruct (_ && _); [apply client_error_incr_frame in H2|inversion H2];
        rewrite ?H2, ?view_clock; reflexivity. }
    assert (S3 : view e' = view e2).
    { destruct (negb (_ =? 0)); [apply client_error_incr_frame in H3; exact H3|].
      inversion H3; auto. }
    congruence.
Qed.

Lemma get_fifo_fd_frame (e e' : jack_engine_t) (n : nat) (fd : Z) :
  jack_get_fifo_fd e n = Done (fd, e') -> view e' = view e.
Proof.
  assert (Hopen : forall e0 e1 fd0, fifo_fd_open e0 n = Done (fd0, e1) ->
                    view e1 = view e0).
  { intros e0 e1 fd0. unfold fifo_fd_open.
    destruct (_ <=? _)%nat; [discriminate|]. intros H. bind_split H as cur Hcur.
    destruct (cur <? 0).
    - unfold os_call in H. cbn beta iota zeta in H.
      destruct (ret _ <? 0); inversion H; rewrite view_fifo, view_clock; reflexivity.
    - inversion H; auto. }
  unfold jack_get_fifo_fd, os_call. cbn beta iota zeta.
  destruct (negb (ok _)).
  - destruct (enoent _).
    + cbn beta iota zeta.
      destruct (negb (ok _)); [intros H; inversion H; rewrite !view_clock; reflexivity|].
      intros H. apply Hopen in H. rewrite H, !view_clock. reflexivity.
    + intros H; inversion H. apply view_clock.
  - destruct (negb (is_fifo _)); [intros H; inversion H; apply view_clock|].
    intros H. apply Hopen in H. rewrite H. apply view_clock.
Qed.

Lemma clear_fifos_frame (e : jack_engine_t) : view (jack_clear_fifos e) = view e.
Proof.
  unfold jack_clear_fifos. generalize (fifo e) as l. intros l. revert e.
  induction l as [|fd l IH]; intros e; cbn [fold_left]; [auto|].
  destruct (0 <=? fd); [|apply IH].
  rewrite (IH (snd (os_call e))). apply os_call_frame.
Qed.

Ltac collect_frame :=
  repeat match goal with
  | H : put_client _ _ _ = Done _ |- _ => apply put_client_frame in H
  | H : client_error_incr _ _ = Done _ |- _ => apply client_error_incr_frame in H
  | H : jack_deliver_event _ _ _ = Done (_, _) |- _ => apply deliver_event_frame in H
  | H : jack_get_fifo_fd _ _ = Done (_, _) |- _ => apply get_fifo_fd_frame in H
  end.

Lemma rechain_client_frame (s s1 : rechain_state) (c : nat) (nxt : option nat) :
  rechain_client s c nxt = Done s1 -> view (rc_engine s1) = view (rc_engine s).
Proof.
  intros H. unfold rechain_client in H.
  bind_split H as cl Hcl. bind_split H as e1 H1.
  destruct (jack_client_is_internal cl).
  - bind_split H as [n2 e2] H2. bind_split H as [r3 e3] H3.
    inversion H; subst s1; clear H. simpl.
    destruct (rc_subgraph_client s) as [g|].
    + bind_split H2 as [fd e4] H4. bind_split H2 as sgc Hsgc. bind_split H2 as e5 H5.
      inversion H2; subst; clear H2. collect_frame. congruence.
    + inversion H2; subst; clear H2. collect_frame. congruence.
  - bind_split H as [g2 e2] H2. bind_split H as cl3 Hcl3.
    bind_split H as [r4 e4] H4. bind_split H as cl5 Hcl5.
    bind_split H as [r6 e6] H6.
    inversion H; subst s1; clear H. simpl.
    destruct (rc_subgraph_client s) as [g|].
    + bind_split H2 as sgc Hsgc. bind_split H2 as e7 H7.
      inversion H2; subst; clear H2. collect_frame. congruence.
    + bind_split H2 as [fd e7] H7. bind_split H2 as cl8 Hcl8. bind_split H2 as e9 H9.
      inversion H2; subst; clear H2. collect_frame. congruence.
Qed.

Lemma rechain_loop_frame (node : list nat) :
  forall skip s s', rechain_loop node skip s = Done s' ->
    view (rc_engine s') = view (rc_engine s).
Proof.
  induction node as [|c rest IH]; intros skip s s' H; simpl in H.
  - inversion H; reflexivity.
  - destruct skip as [|k]; [|apply (IH _ _ _ H)].
    bind_split H as cl Hcl. destruct (active (control cl)); [|apply (IH _ _ _ H)].
    bind_split H as k Hk. bind_split H as s1 Hs1.
    apply rechain_client_frame in Hs1. apply IH in H. congruence.
Qed.

Lemma rechain_graph_frame (e e' : jack_engine_t) (r : Z) :
  jack_rechain_graph e = Done (r, e') -> view e' = view e.
Proof.
  unfold jack_rechain_graph. intros H. bind_split H as s' Hloop.
  apply rechain_loop_frame in Hloop. simpl in Hloop.
  rewrite clear_fifos_frame in Hloop.
  destruct (rc_subgraph_client s') as [sg|].
  - bind_split H as [fd e1] H1. bind_split H as sgc Hsgc. bind_split H as e2 H2.
    inversion H; subst; clear H. collect_frame. congruence.
  - inversion H; subst. exact Hloop.
Qed.

Lemma for_each_frame {A : Type} (body : jack_engine_t -> A -> outcome jack_engine_t)
    (l : list A) :
  (forall e x e', body e x = Done e' -> view e' = view e) ->
  forall e e', for_each body l e = Done e' -> view e' = view e.
Proof.
  intros Hbody. induction l as [|x l IH]; intros e e' H; simpl in H.
  - inversion H; reflexivity.
  - bind_split H as e1 H1. apply Hbody in H1. apply IH in H. congruence.
Qed.

Lemma direct_feeders_frame (e e' : jack_engine_t) (client : nat) :
  direct_feeders e client = Done e' -> view e' = view e.
Proof.
  unfold direct_feeders. intros H. bind_split H as cl Hcl. bind_split H as e1 H1.
  apply put_client_frame in H1.
  apply for_each_frame in H; [congruence|].
  intros e0 x e0' H0. bind_split H0 as feeds Hf. destruct feeds.
  - bind_split H0 as cl0 Hcl0. apply put_client_frame in H0. exact H0.
  - inversion H0; reflexivity.
Qed.

Lemma trace_each_frame (recurse : jack_engine_t -> nat -> outcome jack_engine_t)
    (c1 rbase : nat) (node : list nat) :
  (forall e c2 e', recurse e c2 = Done e' -> view e' = view e) ->
  forall e e', trace_each recurse c1 rbase node e = Done e' -> view e' = view e.
Proof.
  intros Hrec. induction node as [|c2 node IHn]; intros e e' H; simpl in H.
  - inversion H; reflexivity.
  - bind_split H as e1 H1.
    assert (P1 : view e1 = view e).
    { destruct (_ && _).
      - bind_split H1 as rb Hrb. bind_split H1 as e2 H2. bind_split H1 as cl2 Hcl2.
        assert (P2 : view e2 = view e).
        { destruct (jack_slist_find (fed_by rb) c2); [inversion H2; reflexivity|].
          apply put_client_frame in H2. exact H2. }
        destruct (jack_slist_find (fed_by cl2) c1); [inversion H1; subst; exact P2|].
        apply Hrec in H1. congruence.
      - inversion H1; reflexivity. }
    apply IHn in H. congruence.
Qed.

Lemma trace_terminal_frame (fuel : nat) :
  forall e e' c1 rbase, jack_trace_terminal fuel e c1 rbase = Done e' -> view e' = view e.
Proof.
  induction fuel as [|fuel IH]; intros e e' c1 rbase H; [discriminate|].
  cbn [jack_trace_terminal] in H. bind_split H as cl1 Hcl1.
  destruct (fed_by cl1) as [|c0 existing]; [inversion H; reflexivity|].
  eapply trace_each_frame; [|exact H].
  intros e0 c2 e0' H0. apply (IH _ _ _ _ H0).
Qed.

Lemma compute_all_frame (fuel : nat) (e e' : jack_engine_t) :
  jack_compute_all_port_total_latencies fuel e = Done e' -> view e' = view e.
Proof.
  unfold jack_compute_all_port_total_latencies. apply for_each_frame.
  intros e0 i e0' H. unfold relatency in H. bind_split H as sh Hsh.
  destruct (in_use sh); [|inversion H; reflexivity].
  bind_split H as v Hv. bind_split H as tbl Htbl. inversion H. apply view_ectl.
Qed.

Lemma sort_graph_frame (srt : (nat -> nat -> Z) -> list nat -> list nat) (fuel : nat)
    (e e' : jack_engine_t) :
  jack_sort_graph srt fuel e = Done e' -> view e' = view e.
Proof.
  rewrite jack_sort_graph_steps. intros H.
  bind_split H as e1 H1. bind_split H as e2 H2. cbn zeta in H.
  bind_split H as e3 H3. bind_split H as [r e4] H4. inversion H; subst e4; clear H.
  apply (for_each_frame _ _ (fun e0 c e0' => direct_feeders_frame e0 e0' c)) in H1.
  apply (for_each_frame _ _ (fun e0 c e0' => trace_terminal_frame fuel e0 e0' c c)) in H2.
  apply compute_all_frame in H3. rewrite view_clients in H3.
  apply rechain_graph_frame in H4. congruence.
Qed.

Lemma send_connection_notification_frame (e e' : jack_engine_t) (cid : Z)
    (self_id other_id : nat) (connected : bool) (r : Z) :
  jack_send_connection_notification e cid self_id other_id connected = Done (r, e') ->
  view e' = view e.
Proof.
  unfold jack_send_connection_notification. intros H. bind_split H as c Hc.
  destruct c as [c|]; [|inversion H; reflexivity].
  bind_split H as cl Hcl. destruct (active (control cl)); [|inversion H; reflexivity].
  bind_split H as [r1 e1] H1. apply deliver_event_frame in H1.
  destruct (negb (r1 =? 0)); inversion H; subst; exact H1.
Qed.


End Frame.

(** ** Making a connection *)

Lemma sort_graph_graph (srt : (nat -> nat -> Z) -> list nat -> list nat) (fuel : nat)
    (e e' : jack_engine_t) :
  jack_sort_graph srt fuel e = Done e' -> graph_of e' = graph_of e.
Proof. apply sort_graph_frame; reflexivity. Qed.

Lemma send_connection_notification_graph (e e' : jack_engine_t) (cid : Z)
    (self_id other_id : nat) (connected : bool) (r : Z) :
  jack_send_connection_notification e cid self_id other_id connected = Done (r, e') ->
  graph_of e' = graph_of e.
Proof. apply send_connection_notification_frame; reflexivity. Qed.

Lemma graph_of_inv (e e' : jack_engine_t) :
  graph_of e' = graph_of e ->
  internal_ports e' = internal_ports e /\ next_conn_addr e' = next_conn_addr e.
Proof. unfold graph_of. intros H. inversion H. auto. Qed.

(** A connect request either is refused, and then nothing has happened,
    or has passed every check and linked the two ports. *)
Lemma connect_outcome (srt : (nat -> nat -> Z) -> list nat -> list nat) (fuel : nat)
    (e e1 : jack_engine_t) (a b : string) (r : Z) :
  jack_port_do_connect srt fuel e a b = Done (r, e1) ->
  (r = -1 /\ ports_of e1 = ports_of e /\ clients e1 = clients e /\
   client_mem e1 = client_mem e /\ fifo e1 = fifo e /\ clock e1 = clock e /\
   trace e1 = trace e /\ (next_conn_addr e <= next_conn_addr e1)%nat) \/
  (r = 0 /\
   exists src dst S0 D0 ssh dsh cs cd cls cld,
     jack_get_port_by_name e a = Done (Some src) /\
     jack_get_port_by_name e b = Done (Some dst) /\
     internal_ports e !! src = Some S0 /\ internal_ports e !! dst = Some D0 /\
     shared_ports (ectl e) !! shared S0 = Some ssh /\
     shared_ports (ectl e) !! shared D0 = Some dsh /\
     has_flag (flags ssh) JackPortIsOutput = true /\
     has_flag (flags dsh) JackPortIsInput = true /\
     locked ssh = false /\ locked dsh = false /\
     type_id (type_info ssh) = type_id (type_info dsh) /\
     jack_client_internal_by_id e (client_id ssh) = Done (Some cs) /\
     client_mem e !! cs = Some cls /\ active (control cls) = true /\
     jack_client_internal_by_id e (client_id dsh) = Done (Some cd) /\
     client_mem e !! cd = Some cld /\ active (control cld) = true /\
     (connections D0 = [] \/ mixdown (type_info dsh) = true) /\
     internal_ports e1
     = add_connection {| conn_addr := next_conn_addr e; source := src; destination := dst |}
         src (add_connection
                {| conn_addr := next_conn_addr e; source := src; destination := dst |}
                dst (internal_ports e)) /\
     next_conn_addr e1 = S (next_conn_addr e)).
Proof.
  unfold jack_port_do_connect. intros H.
  assert (Hrefuse : forall n, (next_conn_addr e <= n)%nat ->
            (-1 = -1 /\ ports_of (set_next_conn_addr e n) = ports_of e /\
             clients (set_next_conn_addr e n) = clients e /\
             client_mem (set_next_conn_addr e n) = client_mem e /\
             fifo (set_next_conn_addr e n) = fifo e /\
             clock (set_next_conn_addr e n) = clock e /\
             trace (set_next_conn_addr e n) = trace e /\
             (next_conn_addr e <= next_conn_addr (set_next_conn_addr e n))%nat))
    by (intros n Hn; repeat split; exact Hn).
  assert (Hsame : -1 = -1 /\ ports_of e = ports_of e /\ clients e = clients e /\
                  client_mem e = client_mem e /\ fifo e = fifo e /\ clock e = clock e /\
                  trace e = trace e /\ (next_conn_addr e <= next_conn_addr e)%nat)
    by (repeat split; lia).
  bind_split H as rs Hrs. destruct rs as [src|]; [|inversion H; subst; left; exact Hsame].
  bind_split H as rd Hrd. destruct rd as [dst|]; [|inversion H; subst; left; exact Hsame].
  bind_split H as S0 HS0. bind_split H as D0 HD0.
  bind_split H as ssh Hssh. bind_split H as dsh Hdsh.
  destruct (has_flag (flags dsh) JackPortIsInput) eqn:Hin;
    [|inversion H; subst; left; exact Hsame].
  destruct (has_flag (flags ssh) JackPortIsOutput) eqn:Hout;
    [|inversion H; subst; left; exact Hsame].
  cbn [negb] in H.
  destruct (locked ssh) eqn:Hls; [inversion H; subst; left; exact Hsame|].
  destruct (locked dsh) eqn:Hld; [inversion H; subst; left; exact Hsame|].
  destruct (Nat.eqb_spec (type_id (type_info ssh)) (type_id (type_info dsh))) as [Hty|];
    [|inversion H; subst; left; exact Hsame].
  cbn [negb] in H.
  bind_split H as rc Hrc. destruct rc as [cs|]; [|inversion H; subst; left; exact Hsame].
  bind_split H as cls Hcls.
  destruct (active (control cls)) eqn:Hacts; [|inversion H; subst; left; exact Hsame].
  cbn [negb] in H.
  bind_split H as rc' Hrc'. destruct rc' as [cd|]; [|inversion H; subst; left; exact Hsame].
  bind_split H as cld Hcld.
  destruct (active (control cld)) eqn:Hactd; [|inversion H; subst; left; exact Hsame].
  cbn [negb] in H.
  destruct (negb (match connections D0 with [] => true | _ => false end)
            && negb (mixdown (type_info dsh))) eqn:Hmix.
  { inversion H; subst. left. apply Hrefuse. lia. }
  bind_split H as S1 HS1. bind_split H as eb Hsort.
  bind_split H as S2 HS2. bind_split H as ssh2 Hssh2.
  bind_split H as [r1 e3] Hn1. bind_split H as D2 HD2. bind_split H as dsh2 Hdsh2.
  bind_split H as [r2 e4] Hn2. inversion H; subst r e4; clear H.
  apply send_connection_notification_graph in Hn1, Hn2.
  apply sort_graph_graph in Hsort.
  assert (Hg : graph_of e1 = graph_of eb) by congruence.
  rewrite Hsort in Hg. apply graph_of_inv in Hg as [Hi Hn].
  cbn [internal_ports set_internal_ports next_conn_addr set_next_conn_addr] in Hi, Hn, HS1.
  apply fetch_Done in HS0, HD0, Hssh, Hdsh, HS1, Hcls, Hcld.
  right. split; [reflexivity|].
  exists src, dst, S0, D0, ssh, dsh, cs, cd, cls, cld.
  repeat (split; [assumption|]).
  split.
  { destruct (connections D0); [left; reflexivity|].
    right. destruct (mixdown (type_info dsh)); [reflexivity | discriminate Hmix]. }
  split; [|exact Hn].
  rewrite Hi. unfold add_connection at 2. rewrite HD0.
  unfold add_connection. rewrite HS1. reflexivity.
Qed.

(** A connect request that is refused returns -1 and has changed
    nothing: the port tables, the client list and records, the FIFO
    table are what they were, no system call was made and no event was
    sent. *)
Theorem refused_connect_changes_nothing
    (srt : (nat -> nat -> Z) -> list nat -> list nat) (fuel : nat)
    (e e1 : jack_engine_t) (a b : string) (r : Z) :
  jack_port_do_connect srt fuel e a b = Done (r, e1) -> r <> 0 ->
  r = -1 /\ ports_of e1 = ports_of e /\ clients e1 = clients e /\
  client_mem e1 = client_mem e /\ fifo e1 = fifo e /\ clock e1 = clock e /\
  trace e1 = trace e.
Proof.
  intros H Hr. apply connect_outcome in H as [H|[H _]]; [|contradiction].
  destruct H as (H1 & H2 & H3 & H4 & H5 & H6 & H7 & _). auto 10.
Qed.

Lemma refused_connect_changes_nothing_witness :
  exists e1,
    jack_port_do_connect stable_sort 20 monitored_engine "y:in" "x:out" = Done (-1, e1) /\
    -1 <> 0 /\
    (-1 = -1 /\ ports_of e1 = ports_of monitored_engine /\
     clients e1 = clients monitored_engine /\
     client_mem e1 = client_mem monitored_engine /\ fifo e1 = fifo monitored_engine /\
     clock e1 = clock monitored_engine /\ trace e1 = trace monitored_engine).
Proof.
  eexists.
  match goal with
  | |- ?P /\ _ => assert (H : P) by (vm_compute; reflexivity); split; [exact H|]
  end.
  assert (Hr : -1 <> 0) by discriminate.
  split; [exact Hr|].
  exact (refused_connect_changes_nothing stable_sort 20 monitored_engine _
           "y:in" "x:out" (-1) H Hr).
Defined.

(** A connect request that succeeds has found both names among the ports
    in use, the first an output and the second an input port, neither
    locked, both of one port type, both owned by active clients, and the
    input port either unconnected or of a type with a mixdown function.
    The new connection then stands at the head of both ports' lists and
    no other list has changed.  Nothing looks for an earlier connection
    of the same two ports. *)
Theorem connect_links_only_checked_ports
    (srt : (nat -> nat -> Z) -> list nat -> list nat) (fuel : nat)
    (e e1 : jack_engine_t) (a b : string) :
  jack_port_do_connect srt fuel e a b = Done (0, e1) ->
  exists src dst S0 D0 ssh dsh cs cd cls cld,
    jack_get_port_by_name e a = Done (Some src) /\
    jack_get_port_by_name e b = Done (Some dst) /\
    internal_ports e !! src = Some S0 /\ internal_ports e !! dst = Some D0 /\
    shared_ports (ectl e) !! shared S0 = Some ssh /\
    shared_ports (ectl e) !! shared D0 = Some dsh /\
    has_flag (flags ssh) JackPortIsOutput = true /\
    has_flag (flags dsh) JackPortIsInput = true /\
    locked ssh = false /\ locked dsh = false /\
    type_id (type_info ssh) = type_id (type_info dsh) /\
    jack_client_internal_by_id e (client_id ssh) = Done (Some cs) /\
    client_mem e !! cs = Some cls /\ active (control cls) = true /\
    jack_client_internal_by_id e (client_id dsh) = Done (Some cd) /\
    client_mem e !! cd = Some cld /\ active (control cld) = true /\
    (connections D0 = [] \/ mixdown (type_info dsh) = true) /\
    internal_ports e1
    = add_connection {| conn_addr := next_conn_addr e; source := src; destination := dst |}
        src (add_connection
               {| conn_addr := next_conn_addr e; source := src; destination := dst |}
               dst (internal_ports e)).
Proof.
  intros H. apply connect_outcome in H as [[H _]|[_ H]]; [discriminate|].
  destruct H as (src & dst & S0 & D0 & ssh & dsh & cs & cd & cls & cld & H).
  exists src, dst, S0, D0, ssh, dsh, cs, cd, cls, cld.
  repeat (destruct H as [? H]; split; [assumption|]). destruct H as [H _]. exact H.
Qed.

Lemma connect_links_only_checked_ports_witness :
  exists e1,
    jack_port_do_connect stable_sort 20 monitored_engine "x:out" "y:in" = Done (0, e1) /\
    exists src dst S0 D0 ssh dsh cs cd cls cld,
      jack_get_port_by_name monitored_engine "x:out" = Done (Some src) /\
      jack_get_port_by_name monitored_engine "y:in" = Done (Some dst) /\
      internal_ports monitored_engine !! src = Some S0 /\
      internal_ports monitored_engine !! dst = Some D0 /\
      shared_ports (ectl monitored_engine) !! shared S0 = Some ssh /\
      shared_ports (ectl monitored_engine) !! shared D0 = Some dsh /\
      has_flag (flags ssh) JackPortIsOutput = true /\
      has_flag (flags dsh) JackPortIsInput = true /\
      locked ssh = false /\ locked dsh = false /\
      type_id (type_info ssh) = type_id (type_info dsh) /\
      jack_client_internal_by_id monitored_engine (client_id ssh) = Done (Some cs) /\
      client_mem monitored_engine !! cs = Some cls /\ active (control cls) = true /\
      jack_client_internal_by_id monitored_engine (client_id dsh) = Done (Some cd) /\
      client_mem monitored_engine !! cd = Some cld /\ active (control cld) = true /\
      (connections D0 = [] \/ mixdown (type_info dsh) = true) /\
      internal_ports e1
      = add_connection
          {| conn_addr := next_conn_addr monitored_engine; source := src;
             destination := dst |}
          src (add_connection
                 {| conn_addr := next_conn_addr monitored_engine; source := src;
                    destination := dst |}
                 dst (internal_ports monitored_engine)).
Proof.
  eexists.
  match goal with
  | |- ?P /\ _ => assert (H : P) by (vm_compute; reflexivity); split; [exact H|]
  end.
  exact (connect_links_only_checked_ports stable_sort 20 monitored_engine _
           "x:out" "y:in" H).
Defined.

(** ** The connection lists stay consistent *)

Lemma addr_count_app (a : nat) (l1 l2 : list jack_connection_internal_t) :
  addr_count a (l1 ++ l2) = (addr_count a l1 + addr_count a l2)%nat.
Proof. induction l1 as [|x l1 IH]; simpl; [reflexivity|]. rewrite IH. lia. Qed.

Lemma addr_count_zero (a : nat) (l : list jack_connection_internal_t) :
  (forall x, x ∈ l -> conn_addr x <> a) -> addr_count a l = 0%nat.
Proof.
  induction l as [|x l IH]; intros H; simpl; [reflexivity|].
  destruct (Nat.eqb_spec (conn_addr x) a) as [Heq|_].
  - elim (H x); [left | exact Heq].
  - rewrite IH; [reflexivity|]. intros y Hy. apply H. right. exact Hy.
Qed.

Lemma addr_count_pos (a : nat) (l : list jack_connection_internal_t)
    (x : jack_connection_internal_t) :
  x ∈ l -> conn_addr x = a -> (0 < addr_count a l)%nat.
Proof.
  induction l as [|y l IH]; intros Hx Ha; [inversion Hx|].
  simpl. apply elem_of_cons in Hx as [->|Hx].
  - rewrite Ha, Nat.eqb_refl. lia.
  - specialize (IH Hx Ha). lia.
Qed.


Lemma length_add_connection (c : jack_connection_internal_t) (p : nat)
    (ips : list jack_port_internal_t) :
  length (add_connection c p ips) = length ips.
Proof. unfold add_connection. destruct (ips !! p); [apply length_insert | reflexivity]. Qed.

Lemma lookup_add_connection (c : jack_connection_internal_t) (p q : nat)
    (ips : list jack_port_internal_t) (iq' : jack_port_internal_t) :
  add_connection c p ips !! q = Some iq' ->
  exists iq, ips !! q = Some iq /\
    connections iq' = (if decide (q = p) then [c] else []) ++ connections iq.
Proof.
  unfold add_connection. destruct (ips !! p) as [ip|] eqn:Hip.
  - destruct (decide (q = p)) as [->|Hne].
    + rewrite list_lookup_insert_eq by (eapply lookup_lt_Some; exact Hip).
      intros H. injection H as <-. exists ip. split; [exact Hip | reflexivity].
    + rewrite list_lookup_insert_ne by congruence. intros H. exists iq'. split; [exact H|].
      reflexivity.
  - intros H. exists iq'. split; [exact H|].
    destruct (decide (q = p)) as [->|_]; [congruence | reflexivity].
Qed.

Lemma ends_on_link (c : jack_connection_internal_t) (q : nat) :
  ends_on c q
  = (addr_count (conn_addr c) (if decide (q = source c) then [c] else [])
     + addr_count (conn_addr c) (if decide (q = destination c) then [c] else []))%nat.
Proof.
  unfold ends_on.
  destruct (decide (q = source c)) as [Hs|Hs], (decide (q = destination c)) as [Hd|Hd];
    simpl; rewrite ?Nat.eqb_refl;
    destruct (Nat.eqb_spec (source c) q), (Nat.eqb_spec (destination c) q);
    try congruence; reflexivity.
Qed.

Lemma connections_linked_ext (e e' : jack_engine_t) :
  internal_ports e' = internal_ports e ->
  (next_conn_addr e <= next_conn_addr e')%nat ->
  connections_linked e -> connections_linked e'.
Proof.
  intros Hi Hn H p ip c Hp Hc. rewrite Hi in *.
  destruct (H p ip c Hp Hc) as (H1 & H2 & H3 & H4 & H5).
  split; [lia|]. auto.
Qed.

(** Linking two ports of the table by a connection at a fresh address
    keeps the lists consistent. *)
Lemma link_keeps_connections_linked (e e1 : jack_engine_t) (src dst : nat) :
  connections_linked e ->
  (src < length (internal_ports e))%nat -> (dst < length (internal_ports e))%nat ->
  internal_ports e1
  = add_connection {| conn_addr := next_conn_addr e; source := src; destination := dst |}
      src (add_connection
             {| conn_addr := next_conn_addr e; source := src; destination := dst |}
             dst (internal_ports e)) ->
  next_conn_addr e1 = S (next_conn_addr e) ->
  connections_linked e1.
Proof.
  intros Hl Hsrc Hdst Hi Hn.
  set (c := {| conn_addr := next_conn_addr e; source := src; destination := dst |}) in *.
  assert (Hlook : forall q iq', internal_ports e1 !! q = Some iq' ->
            exists iq, internal_ports e !! q = Some iq /\
              connections iq'
              = (if decide (q = source c) then [c] else [])
                ++ (if decide (q = destination c) then [c] else []) ++ connections iq).
  { intros q iq' H. rewrite Hi in H.
    apply lookup_add_connection in H as (iq1 & H & ->).
    apply lookup_add_connection in H as (iq & H & ->).
    exists iq. split; [exact H | reflexivity]. }
  assert (Hmem : forall q iq' x, internal_ports e1 !! q = Some iq' -> x ∈ connections iq' ->
            x = c \/ exists iq, internal_ports e !! q = Some iq /\ x ∈ connections iq).
  { intros q iq' x Hq Hx. apply Hlook in Hq as (iq & Hq & Heq). rewrite Heq in Hx.
    apply elem_of_app in Hx as [Hx|Hx];
      [|apply elem_of_app in Hx as [Hx|Hx]; [|right; eauto]].
    - destruct (decide (q = source c)); [|inversion Hx].
      apply elem_of_cons in Hx as [->|Hx]; [left; reflexivity | inversion Hx].
    - destruct (decide (q = destination c)); [|inversion Hx].
      apply elem_of_cons in Hx as [->|Hx]; [left; reflexivity | inversion Hx]. }
  assert (Hold : forall q iq x, internal_ports e !! q = Some iq -> x ∈ connections iq ->
            conn_addr x <> conn_addr c).
  { intros q iq x Hq Hx. destruct (Hl q iq x Hq Hx) as (Hlt & _). cbn. lia. }
  assert (Hlen : length (internal_ports e1) = length (internal_ports e))
    by (rewrite Hi, !length_add_connection; reflexivity).
  intros p ip' x Hp Hx. rewrite Hlen, Hn.
  destruct (Hmem p ip' x Hp Hx) as [->|(ip & Hp0 & Hx0)].
  - split; [cbn; lia|]. split; [exact Hsrc|]. split; [exact Hdst|]. split.
    + intros q iq' x' Hq Hx' Ha.
      destruct (Hmem q iq' x' Hq Hx') as [->|(iq & Hq0 & Hx0)]; [reflexivity|].
      elim (Hold q iq x' Hq0 Hx0 Ha).
    + intros q iq' Hq. apply Hlook in Hq as (iq & Hq & ->).
      rewrite !addr_count_app, (addr_count_zero _ (connections iq)), ends_on_link by
        (intros y Hy; apply (Hold q iq y Hq Hy)).
      lia.
  - destruct (Hl p ip x Hp0 Hx0) as (H1 & H2 & H3 & H4 & H5).
    split; [lia|]. split; [exact H2|]. split; [exact H3|]. split.
    + intros q iq' x' Hq Hx' Ha.
      destruct (Hmem q iq' x' Hq Hx') as [->|(iq & Hq0 & Hx0')].
      * elim (Hold p ip x Hp0 Hx0). symmetry. exact Ha.
      * apply (H4 q iq x' Hq0 Hx0' Ha).
    + intros q iq' Hq. apply Hlook in Hq as (iq & Hq & ->).
      rewrite !addr_count_app, <- (H5 q iq Hq).
      assert (Hne : conn_addr c <> conn_addr x)
        by (intros Heq; apply (Hold p ip x Hp0 Hx0); symmetry; exact Heq).
      assert (Hz : forall (t : bool), addr_count (conn_addr x) (if t then [c] else []) = 0%nat).
      { intros [|]; simpl; [|reflexivity].
        destruct (Nat.eqb_spec (next_conn_addr e) (conn_addr x)); [|reflexivity].
        elim Hne. assumption. }
      destruct (decide (q = source c)), (decide (q = destination c));
        rewrite ?(Hz true), ?(Hz false); reflexivity.
Qed.

(** [jack_port_do_connect] keeps the connection lists consistent, whether
    it links the ports or refuses. *)
Theorem connect_keeps_connections_linked
    (srt : (nat -> nat -> Z) -> list nat -> list nat) (fuel : nat)
    (e e1 : jack_engine_t) (a b : string) (r : Z) :
  connections_linked e ->
  jack_port_do_connect srt fuel e a b = Done (r, e1) ->
  connections_linked e1.
Proof.
  intros Hl H. apply connect_outcome in H as [H|[_ H]].
  - destruct H as (_ & Hp & _ & _ & _ & _ & _ & Hn).
    apply ports_of_inv in Hp as (_ & Hi & _).
    exact (connections_linked_ext e e1 Hi Hn Hl).
  - destruct H as (src & dst & S0 & D0 & ssh & dsh & cs & cd & cls & cld & _ & _ & HS0 & HD0
                   & _ & _ & _ & _ & _ & _ & _ & _ & _ & _ & _ & _ & _ & _ & Hi & Hn).
    apply (link_keeps_connections_linked e e1 src dst Hl); try assumption.
    + eapply lookup_lt_Some. exact HS0.
    + eapply lookup_lt_Some. exact HD0.
Qed.

Lemma capture_engine_linked : connections_linked capture_engine.
Proof.
  assert (Hq : forall q iq, internal_ports capture_engine !! q = Some iq ->
                 (q = 0%nat \/ q = 1%nat) /\ connections iq = [a_conn 1 0 1]).
  { intros q iq H. destruct q as [|[|q]]; simpl in H; [| |discriminate];
      injection H as <-; auto. }
  intros p ip c Hp Hc. apply Hq in Hp as [_ Hp]. rewrite Hp in Hc.
  apply elem_of_cons in Hc as [->|Hc]; [|inversion Hc].
  split; [vm_compute; lia|]. split; [vm_compute; lia|]. split; [vm_compute; lia|].
  split.
  - intros q iq c' Hiq Hc' _. apply Hq in Hiq as [_ Hiq]. rewrite Hiq in Hc'.
    apply elem_of_cons in Hc' as [->|Hc']; [reflexivity | inversion Hc'].
  - intros q iq Hiq. apply Hq in Hiq as [[->| ->] ->]; reflexivity.
Qed.

Lemma connect_keeps_connections_linked_witness :
  exists e1,
    connections_linked capture_engine /\
    jack_port_do_connect stable_sort 20 capture_engine "alsa:capture_1" "rec:in"
    = Done (0, e1) /\
    connections_linked e1.
Proof.
  eexists. split; [exact capture_engine_linked|].
  match goal with
  | |- ?P /\ _ => assert (H : P) by (vm_compute; reflexivity); split; [exact H|]
  end.
  exact (connect_keeps_connections_linked stable_sort 20 capture_engine _
           "alsa:capture_1" "rec:in" 0 capture_engine_linked H).
Defined.

(** ** Taking a connection out *)

Lemma find_connection_spec (l : list jack_connection_internal_t) (s d : nat)
    (c : jack_connection_internal_t) :
  find_connection l s d = Some c -> c ∈ l /\ source c = s /\ destination c = d.
Proof.
  induction l as [|x l IH]; simpl; [discriminate|].
  destruct (Nat.eqb_spec (source x) s) as [Hs|Hs];
    [destruct (Nat.eqb_spec (destination x) d) as [Hd|Hd]|]; simpl.
  - intros H. injection H as <-. split; [left | auto].
  - intros H. apply IH in H as (H1 & H2 & H3). split; [right; exact H1 | auto].
  - intros H. apply IH in H as (H1 & H2 & H3). split; [right; exact H1 | auto].
Qed.


Lemma length_remove_connection (c : jack_connection_internal_t) (p : nat)
    (ips : list jack_port_internal_t) :
  length (remove_connection c p ips) = length ips.
Proof. unfold remove_connection. destruct (ips !! p); [apply length_insert | reflexivity]. Qed.

Lemma lookup_remove_connection (c : jack_connection_internal_t) (p q : nat)
    (ips : list jack_port_internal_t) (iq' : jack_port_internal_t) :
  remove_connection c p ips !! q = Some iq' ->
  exists iq, ips !! q = Some iq /\ shared iq' = shared iq /\
    connections iq'
    = (if decide (q = p) then jack_slist_remove same_conn (connections iq) c
       else connections iq).
Proof.
  unfold remove_connection. destruct (ips !! p) as [ip|] eqn:Hip.
  - destruct (decide (q = p)) as [->|Hne].
    + rewrite list_lookup_insert_eq by (eapply lookup_lt_Some; exact Hip).
      intros H. injection H as <-. exists ip. auto.
    + rewrite list_lookup_insert_ne by congruence. intros H. exists iq'. auto.
  - intros H. exists iq'. split; [exact H|].
    destruct (decide (q = p)) as [->|_]; [congruence | auto].
Qed.

Lemma elem_of_slist_remove (l : list jack_connection_internal_t)
    (c x : jack_connection_internal_t) :
  x ∈ jack_slist_remove same_conn l c -> x ∈ l.
Proof.
  induction l as [|y l IH]; simpl; [auto|].
  destruct (same_conn y c); [intros H; right; exact H|].
  intros H. apply elem_of_cons in H as [->|H]; [left | right; auto].
Qed.

Lemma addr_count_remove (a : nat) (l : list jack_connection_internal_t)
    (c : jack_connection_internal_t) :
  addr_count a (jack_slist_remove same_conn l c)
  = (addr_count a l - (if Nat.eqb (conn_addr c) a then 1 else 0))%nat.
Proof.
  induction l as [|y l IH]; [reflexivity|].
  cbn [jack_slist_remove]. unfold same_conn at 1.
  destruct (Nat.eqb_spec (conn_addr y) (conn_addr c)) as [Heq|Hne]; cbn [addr_count].
  - rewrite Heq. destruct (Nat.eqb (conn_addr c) a); simpl; lia.
  - rewrite IH.
    destruct (Nat.eqb_spec (conn_addr c) a) as [Ha|_]; [|lia].
    destruct (Nat.eqb_spec (conn_addr y) a); [congruence | lia].
Qed.

(** What [jack_port_disconnect_internal] does to the connection lists:
    nothing when the source port lists no connection to the destination,
    and otherwise it takes the first such connection off both lists. *)
Lemma disconnect_internal_outcome
    (srt : (nat -> nat -> Z) -> list nat -> list nat) (fuel : nat)
    (e e2 : jack_engine_t) (src dst : nat) (sg : bool) (r : Z) :
  jack_port_disconnect_internal srt fuel e src dst sg = Done (r, e2) ->
  exists S,
    internal_ports e !! src = Some S /\ next_conn_addr e2 = next_conn_addr e /\
    match find_connection (connections S) src dst with
    | None => r = -1 /\ internal_ports e2 = internal_ports e /\ (sg = false -> e2 = e)
    | Some c =>
        r = 0 /\ is_Some (internal_ports e !! dst) /\
        internal_ports e2
        = remove_connection c dst (remove_connection c src (internal_ports e))
    end.
Proof.
  unfold jack_port_disconnect_internal. intros H.
  bind_split H as S HS. apply fetch_Done in HS. exists S. split; [exact HS|].
  bind_split H as [ret e'] Hbody.
  assert (Hend : graph_of e2 = graph_of e' /\ r = ret /\ (sg = false -> e2 = e')).
  { destruct sg.
    - bind_split H as e3 Hsort. inversion H; subst. apply sort_graph_graph in Hsort.
      split; [exact Hsort|]. split; [reflexivity | discriminate].
    - inversion H; subst. auto. }
  destruct Hend as (Hg & -> & Hsame). clear H.
  destruct (find_connection (connections S) src dst) as [c|].
  - bind_split Hbody as D HD. bind_split Hbody as S' HS'. bind_split Hbody as D' HD'.
    bind_split Hbody as ssh Hssh. bind_split Hbody as dsh Hdsh.
    bind_split Hbody as [r1 e3] Hn1. bind_split Hbody as dsh2 Hdsh2.
    bind_split Hbody as [r2 e4] Hn2. inversion Hbody; subst ret e4; clear Hbody.
    apply send_connection_notification_graph in Hn1, Hn2.
    apply fetch_Done in HD. cbn [internal_ports set_internal_ports] in HD.
    assert (Hg' : graph_of e2
                  = (<[dst := set_connections D
                                (jack_slist_remove same_conn (connections D) c)]>
                       (<[src := set_connections S
                                   (jack_slist_remove same_conn (connections S) c)]>
                          (internal_ports e)),
                     next_conn_addr e)).
    { rewrite Hg, Hn2, Hn1. destruct (connections S'); reflexivity. }
    unfold graph_of in Hg'. injection Hg' as Hi Hn.
    split; [exact Hn|]. split; [reflexivity|]. split.
    + apply lookup_lt_is_Some_2. apply lookup_lt_Some in HD.
      rewrite length_insert in HD. exact HD.
    + rewrite Hi. unfold remove_connection at 2. rewrite HS.
      unfold remove_connection. rewrite HD. reflexivity.
  - inversion Hbody; subst ret e'; clear Hbody.
    apply graph_of_inv in Hg as [Hi Hn]. auto.
Qed.

(** Taking a listed connection off the lists of its two ends keeps the
    lists consistent. *)
Lemma unlink_keeps_connections_linked (e e2 : jack_engine_t) (src dst : nat)
    (S : jack_port_internal_t) (c : jack_connection_internal_t) :
  connections_linked e ->
  internal_ports e !! src = Some S -> c ∈ connections S ->
  source c = src -> destination c = dst ->
  internal_ports e2 = remove_connection c dst (remove_connection c src (internal_ports e)) ->
  next_conn_addr e2 = next_conn_addr e ->
  connections_linked e2 /\
  forall q iq2, internal_ports e2 !! q = Some iq2 -> c ∉ connections iq2.
Proof.
  intros Hl HS Hc Hsrc Hdst Hi Hn.
  assert (Hlook : forall q iq', internal_ports e2 !! q = Some iq' ->
            exists iq, internal_ports e !! q = Some iq /\
              (forall x, x ∈ connections iq' -> x ∈ connections iq) /\
              forall a, addr_count a (connections iq')
                        = (addr_count a (connections iq)
                           - (if Nat.eqb (conn_addr c) a then ends_on c q else 0))%nat).
  { intros q iq' H. rewrite Hi in H.
    apply lookup_remove_connection in H as (iq1 & H & _ & E1).
    apply lookup_remove_connection in H as (iq & H & _ & E0).
    exists iq. split; [exact H|]. rewrite E1, E0. unfold ends_on. rewrite Hsrc, Hdst.
    split.
    - intros x Hx.
      destruct (decide (q = dst)); [apply elem_of_slist_remove in Hx|];
        (destruct (decide (q = src)); [apply elem_of_slist_remove in Hx|]); exact Hx.
    - intros a.
      destruct (decide (q = dst)) as [Hd|Hd], (decide (q = src)) as [Hs|Hs];
        rewrite ?addr_count_remove;
        destruct (Nat.eqb_spec src q), (Nat.eqb_spec dst q); try congruence;
        destruct (Nat.eqb (conn_addr c) a); lia. }
  assert (Hgone : forall q iq2, internal_ports e2 !! q = Some iq2 -> c ∉ connections iq2).
  { intros q iq2 Hq Hin.
    pose proof (addr_count_pos _ _ _ Hin eq_refl) as Hpos.
    apply Hlook in Hq as (iq & Hq & _ & Hcount).
    rewrite Hcount, Nat.eqb_refl in Hpos.
    destruct (Hl src S c HS Hc) as (_ & _ & _ & _ & H5).
    rewrite (H5 q iq Hq) in Hpos. lia. }
  split; [|exact Hgone].
  assert (Hlen : length (internal_ports e2) = length (internal_ports e))
    by (rewrite Hi, !length_remove_connection; reflexivity).
  intros p ip' x Hp Hx. rewrite Hlen, Hn.
  pose proof (Hlook p ip' Hp) as (ip & Hp0 & Hsub & _).
  destruct (Hl p ip x Hp0 (Hsub x Hx)) as (H1 & H2 & H3 & H4 & H5).
  split; [exact H1|]. split; [exact H2|]. split; [exact H3|]. split.
  - intros q iq' x' Hq Hx' Ha. apply Hlook in Hq as (iq & Hq & Hsubq & _).
    apply (H4 q iq x' Hq (Hsubq x' Hx') Ha).
  - intros q iq' Hq. pose proof (Hlook q iq' Hq) as (iq & Hq0 & _ & Hcount).
    rewrite Hcount, (H5 q iq Hq0).
    destruct (Nat.eqb_spec (conn_addr c) (conn_addr x)) as [Ha|_]; [|lia].
    assert (x = c).
    { destruct (Hl src S c HS Hc) as (_ & _ & _ & H4c & _).
      apply (H4c p ip x Hp0 (Hsub x Hx)). symmetry. exact Ha. }
    subst x. elim (Hgone p ip' Hp Hx).
Qed.

(** [jack_port_do_disconnect] keeps the connection lists consistent. *)
Theorem disconnect_keeps_connections_linked
    (srt : (nat -> nat -> Z) -> list nat -> list nat) (fuel : nat)
    (e e2 : jack_engine_t) (a b : string) (r : Z) :
  connections_linked e ->
  jack_port_do_disconnect srt fuel e a b = Done (r, e2) ->
  connections_linked e2.
Proof.
  intros Hl H. unfold jack_port_do_disconnect in H.
  bind_split H as rs Hrs. destruct rs as [src|]; [|inversion H; subst; exact Hl].
  bind_split H as rd Hrd. destruct rd as [dst|]; [|inversion H; subst; exact Hl].
  apply disconnect_internal_outcome in H as (S & HS & Hn & H).
  destruct (find_connection (connections S) src dst) as [c|] eqn:Hfind.
  - destruct H as (_ & _ & Hi).
    apply find_connection_spec in Hfind as (Hc & Hsrc & Hdst).
    apply (unlink_keeps_connections_linked e e2 src dst S c Hl HS Hc Hsrc Hdst Hi Hn).
  - destruct H as (_ & Hi & _).
    apply (connections_linked_ext e e2 Hi); [lia | exact Hl].
Qed.

Lemma disconnect_keeps_connections_linked_witness :
  exists e2,
    connections_linked capture_engine /\
    jack_port_do_disconnect stable_sort 20 capture_engine "alsa:capture_1" "rec:in"
    = Done (0, e2) /\
    connections_linked e2.
Proof.
  eexists. split; [exact capture_engine_linked|].
  match goal with
  | |- ?P /\ _ => assert (H : P) by (vm_compute; reflexivity); split; [exact H|]
  end.
  exact (disconnect_keeps_connections_linked stable_sort 20 capture_engine _
           "alsa:capture_1" "rec:in" 0 capture_engine_linked H).
Defined.

(** ** Clearing the connections of a port *)
















Lemma release_outcome (e e2 : jack_engine_t) (p : nat) :
  jack_port_release e p = Done e2 ->
  exists ip sh,
    internal_ports e !! p = Some ip /\ shared_ports (ectl e) !! shared ip = Some sh /\
    shared_ports (ectl e2) = <[shared ip := set_in_use sh false]> (shared_ports (ectl e)) /\
    internal_ports e2 = <[p := set_buffer_info ip None]> (internal_ports e) /\
    next_conn_addr e2 = next_conn_addr e /\
    shapes e2 = shapes e /\ clients e2 = clients e.
Proof.
  unfold jack_port_release. intros H.
  bind_split H as ip Hip. bind_split H as sh Hsh. apply fetch_Done in Hip, Hsh.
  exists ip, sh. split; [exact Hip|]. split; [exact Hsh|].
  destruct (buffer_info ip) as [bi|] eqn:Hbuf.
  - bind_split H as ti Hti. bind_split H as info Hinfo. inversion H; subst e2; clear H.
    cbn. auto.
  - inversion H; subst e2; clear H. cbn. split; [reflexivity|]. split; [|auto].
    symmetry. apply list_insert_id. rewrite Hip. f_equal.
    rewrite <- Hbuf. destruct ip; reflexivity.
Qed.






(** ** Event delivery *)

Lemma client_error_incr_trace (e e' : jack_engine_t) (c : nat) :
  client_error_incr e c = Done e' -> trace e' = trace e.
Proof.
  unfold client_error_incr. intros H. bind_split H as cl Hcl.
  apply put_client_Done in H as [_ ->]. reflexivity.
Qed.

(** One delivery: the status is always 0, and the trace grows by what
    [event_seen_by] says. *)
Lemma deliver_event_outcome (e e' : jack_engine_t) (c : nat) (ev : jack_event_t) (r : Z) :
  jack_deliver_event e c ev = Done (r, e') ->
  exists cl,
    client_mem e !! c = Some cl /\ r = 0 /\
    trace e' = trace e ++ event_seen_by (control cl) c ev /\
    (dead (control cl) = true -> e' = e).
Proof.
  unfold jack_deliver_event. intros H. bind_split H as cl Hcl.
  apply fetch_Done in Hcl. exists cl. split; [exact Hcl|].
  unfold event_seen_by. rewrite <- jack_client_is_internal_control.
  destruct (dead (control cl)).
  { inversion H; subst. rewrite app_nil_r. auto. }
  destruct (jack_client_is_internal cl).
  - destruct (internal_handles _ _); inversion H; subst;
      (split; [reflexivity|]); (split; [|discriminate]);
      [reflexivity | rewrite app_nil_r; reflexivity].
  - unfold os_call in H. cbn beta iota zeta in H.
    bind_split H as e1 H1. bind_split H as cl1 Hcl1.
    bind_split H as e2 H2. bind_split H as e3 H3. inversion H; subst r e3; clear H.
    split; [reflexivity|]. split; [|discriminate].
    assert (S1 : trace e1 = trace e ++ [EventWritten c ev]).
    { destruct (negb (ok _)); [apply client_error_incr_trace in H1; rewrite H1|inversion H1];
        reflexivity. }
    assert (S2 : trace e2 = trace e1).
    { destruct (_ && _); [apply client_error_incr_trace in H2; rewrite H2|inversion H2];
        reflexivity. }
    assert (S3 : trace e' = trace e2).
    { destruct (negb (_ =? 0)); [apply client_error_incr_trace in H3; exact H3|].
      inversion H3; reflexivity. }
    congruence.
Qed.

(** [jack_send_connection_notification] reports a failure only for a
    client id that no client of the list carries, and then it has done
    nothing: a delivery that goes wrong is counted in the client's error
    field and still answers 0.  An inactive client is not told. *)
Theorem connection_notification_fails_only_for_unknown_client
    (e e' : jack_engine_t) (cid : Z) (self_id other_id : nat) (connected : bool) (r : Z) :
  jack_send_connection_notification e cid self_id other_id connected = Done (r, e') ->
  (r = 0 \/ r = -1) /\
  (r = -1 <-> jack_client_internal_by_id e cid = Done None) /\
  (r = -1 -> e' = e) /\
  (forall c cl, jack_client_internal_by_id e cid = Done (Some c) ->
                client_mem e !! c = Some cl -> active (control cl) = false -> e' = e).
Proof.
  unfold jack_send_connection_notification. intros H. bind_split H as rc Hrc.
  destruct rc as [c|].
  - bind_split H as cl Hcl. apply fetch_Done in Hcl.
    assert (Hr : r = 0 /\ (active (control cl) = false -> e' = e)).
    { destruct (active (control cl)).
      - bind_split H as [r1 e1] H1. apply deliver_event_outcome in H1 as (_ & _ & -> & _).
        cbn in H. inversion H. split; [reflexivity | discriminate].
      - inversion H. auto. }
    destruct Hr as [-> Hinactive].
    split; [left; reflexivity|]. split; [split; intros; congruence|].
    split; [discriminate|].
    intros c' cl' Hc' Hcl' Hact. rewrite Hrc in Hc'. inversion Hc'; subst c'.
    assert (cl' = cl) by congruence. subst cl'. auto.
  - inversion H; subst. split; [right; reflexivity|]. split; [tauto|].
    split; [reflexivity|]. intros; congruence.
Qed.

Lemma connection_notification_fails_only_for_unknown_client_witness :
  exists e',
    jack_send_connection_notification capture_engine 5 0 1 true = Done (-1, e') /\
    ((-1 = 0 \/ -1 = -1) /\
     (-1 = -1 <-> jack_client_internal_by_id capture_engine 5 = Done None) /\
     (-1 = -1 -> e' = capture_engine) /\
     (forall c cl, jack_client_internal_by_id capture_engine 5 = Done (Some c) ->
                   client_mem capture_engine !! c = Some cl ->
                   active (control cl) = false -> e' = capture_engine)).
Proof.
  eexists.
  match goal with
  | |- ?P /\ _ => assert (H : P) by (vm_compute; reflexivity); split; [exact H|]
  end.
  exact (connection_notification_fails_only_for_unknown_client
           capture_engine _ 5 0%nat 1%nat true (-1) H).
Defined.





(** ** What processing a cycle leaves alone *)

(** Any view of the engine that does not look at the client records, the
    error count, the current client, the clock or the trace is the same
    after [jack_engine_process]. *)
Section ProcessFrame.

Context {X : Type} (view : jack_engine_t -> X).
Hypothesis view_client_mem : forall e v, view (set_client_mem e v) = view e.
Hypothesis view_process_errors : forall e v, view (set_process_errors e v) = view e.
Hypothesis view_current_client : forall e v, view (set_current_client e v) = view e.
Hypothesis view_clock : forall e v, view (set_clock e v) = view e.
Hypothesis view_trace : forall e v, view (set_trace e v) = view e.

Lemma process_internal_frame (e e' : jack_engine_t) (node node' : list nat) (nframes : Z) :
  jack_process_internal e node nframes = Done (node', e') -> view e' = view e.
Proof.
  unfold jack_process_internal. destruct node as [|c rest]; [discriminate|]. intros H.
  bind_split H as cl Hcl. destruct (process (control cl)).
  - bind_split H as e1 H1. apply (put_client_frame view view_client_mem) in H1.
    unfold os_call, emit in H. cbn beta iota zeta in H.
    destruct (negb (ret _ =? 0)).
    + inversion H; subst.
      rewrite view_process_errors, view_trace, view_clock, view_current_client. exact H1.
    + bind_split H as cl2 Hcl2. bind_split H as e2 H2. inversion H; subst.
      apply (put_client_frame view view_client_mem) in H2.
      rewrite H2, view_trace, view_clock, view_current_client. exact H1.
  - bind_split H as e1 H1. inversion H; subst. apply (put_client_frame view view_client_mem) in H1. exact H1.
Qed.

Lemma trigger_subgraph_frame (e e' : jack_engine_t) (c : nat) (started : bool) :
  trigger_subgraph e c = Done (started, e') -> view e' = view e.
Proof.
  unfold trigger_subgraph, os_call, emit. intros H. bind_split H as cl Hcl.
  cbn beta iota zeta in H. bind_split H as e1 H1. apply (put_client_frame view view_client_mem) in H1.
  cbn beta iota zeta in H. inversion H; subst.
  rewrite view_trace, view_clock, view_current_client, H1, view_clock. reflexivity.
Qed.

Lemma wait_for_subgraph_frame (e e' : jack_engine_t) (c : nat) (status : Z) :
  wait_for_subgraph e c = Done (status, e') -> view e' = view e.
Proof.
  unfold wait_for_subgraph, os_call, emit. intros H. bind_split H as cl Hcl.
  destruct (asio_mode e); cbn beta iota zeta in H.
  - bind_split H as e1 H1. apply (put_client_frame view view_client_mem) in H1. inversion H; subst.
    rewrite H1, view_trace, view_clock. reflexivity.
  - bind_split H as e1 H1. apply (put_client_frame view view_client_mem) in H1.
    destruct (has_flag _ _); inversion H; subst;
      rewrite H1, view_trace, view_clock; reflexivity.
Qed.

Lemma finish_subgraph_frame (e e' : jack_engine_t) (node node' : list nat) (c : nat)
    (status : Z) :
  finish_subgraph e node c status = Done (node', e') -> view e' = view e.
Proof.
  unfold finish_subgraph, os_call. intros H. destruct (negb (status =? 0)).
  - bind_split H as cl Hcl. bind_split H as e1 H1. inversion H; subst.
    rewrite view_process_errors.
    destruct (awake_at (control cl) >? 0); [apply (put_client_frame view view_client_mem) in H1; exact H1|].
    inversion H1; reflexivity.
  - cbn beta iota zeta in H. destruct (negb (ok _)).
    + bind_split H as e1 H1. inversion H; subst.
      apply (client_error_incr_frame view view_client_mem) in H1.
      rewrite H1. apply view_clock.
    + bind_split H as n1 Hn1. inversion H; subst. apply view_clock.
Qed.

Lemma process_external_frame (e e' : jack_engine_t) (node node' : list nat) :
  jack_process_external e node = Done (node', e') -> view e' = view e.
Proof.
  unfold jack_process_external. destruct node as [|c rest]; [discriminate|]. intros H.
  bind_split H as [started e1] H1. apply trigger_subgraph_frame in H1.
  destruct (negb started).
  - inversion H; subst. rewrite view_process_errors. exact H1.
  - bind_split H as [status e2] H2. apply wait_for_subgraph_frame in H2.
    apply finish_subgraph_frame in H. congruence.
Qed.

Lemma engine_process_loop_frame (fuel : nat) (nframes : Z) :
  forall e e' node, engine_process_loop fuel e node nframes = Done e' -> view e' = view e.
Proof.
  induction fuel as [|fuel IH]; intros e e' node H.
  - cbn [engine_process_loop] in H.
    destruct (negb (process_errors e =? 0)); [inversion H; reflexivity|].
    destruct node; [inversion H; reflexivity | discriminate].
  - cbn [engine_process_loop] in H.
    destruct (negb (process_errors e =? 0)); [inversion H; reflexivity|].
    destruct node as [|c rest]; [inversion H; reflexivity|].
    bind_split H as cl Hcl.
    destruct (negb (active (control cl)) || dead (control cl)); [apply (IH _ _ _ H)|].
    destruct (jack_client_is_internal cl).
    + bind_split H as [node' e1] H1. apply process_internal_frame in H1.
      apply IH in H. congruence.
    + bind_split H as [node' e1] H1. apply process_external_frame in H1.
      apply IH in H. congruence.
Qed.

Lemma engine_process_frame (e e' : jack_engine_t) (nframes : Z) (r : Z) :
  jack_engine_process e nframes = Done (r, e') -> view e' = view e.
Proof.
  unfold jack_engine_process. intros H.
  bind_split H as e1 H1. bind_split H as e2 H2. inversion H; subst e2; clear H.
  apply engine_process_loop_frame in H2.
  apply (for_each_frame view) in H1.
  - rewrite H2, H1. apply view_process_errors.
  - intros e0 c e0' H0. bind_split H0 as cl Hcl. apply (put_client_frame view view_client_mem) in H0. exact H0.
Qed.

End ProcessFrame.

(** ** At most one process error per cycle *)

Lemma skip_to_internal_suffix (e : jack_engine_t) (node node' : list nat) :
  skip_to_internal e node = Done node' -> (length node' <= length node)%nat.
Proof.
  revert node'. induction node as [|c node IH]; intros node' H; simpl in H.
  - inversion H. reflexivity.
  - bind_split H as cl Hcl. destruct (jack_client_is_internal cl).
    + inversion H. reflexivity.
    + apply IH in H. simpl. lia.
Qed.

Lemma skip_to_internal_has_fuel (e : jack_engine_t) (node : list nat) :
  skip_to_internal e node <> OutOfFuel.
Proof.
  induction node as [|c node IH]; simpl; [discriminate|].
  unfold get_client, fetch. destruct (client_mem e !! c) as [cl|]; [|discriminate].
  cbn. destruct (jack_client_is_internal cl); [discriminate | exact IH].
Qed.

Lemma put_client_has_fuel (e : jack_engine_t) (c : nat) (v : jack_client_internal_t) :
  put_client e c v <> OutOfFuel.
Proof.
  unfold put_client, store. destruct (client_mem e !! c); cbn; discriminate.
Qed.

Lemma get_client_has_fuel (e : jack_engine_t) (c : nat) : get_client e c <> OutOfFuel.
Proof. apply fetch_has_fuel. Qed.

Lemma bind_has_fuel {A B : Type} (m : outcome A) (f : A -> outcome B) :
  m <> OutOfFuel -> (forall a, m = Done a -> f a <> OutOfFuel) -> m ≫= f <> OutOfFuel.
Proof. destruct m; cbn; intros H1 H2; [apply H2; reflexivity | discriminate | congruence]. Qed.

Lemma client_error_incr_has_fuel (e : jack_engine_t) (c : nat) :
  client_error_incr e c <> OutOfFuel.
Proof.
  unfold client_error_incr. apply bind_has_fuel; [apply get_client_has_fuel|].
  intros cl _. apply put_client_has_fuel.
Qed.

(** One step of the loop on an in-process client: it hands back the rest
    of the list, or it has counted one error and hands back [NULL]. *)
Lemma process_internal_step (e e' : jack_engine_t) (c : nat) (rest node' : list nat)
    (nframes : Z) :
  jack_process_internal e (c :: rest) nframes = Done (node', e') ->
  (node' = rest /\ process_errors e' = process_errors e) \/
  (node' = [] /\ process_errors e' = process_errors e + 1).
Proof.
  intros H. unfold jack_process_internal in H.
  bind_split H as cl Hcl. destruct (process (control cl)).
  - bind_split H as e1 H1. apply put_client_Done in H1 as [_ ->].
    unfold os_call, emit in H. cbn beta iota zeta in H.
    destruct (negb (ret _ =? 0)).
    + inversion H; subst. right. auto.
    + bind_split H as cl2 Hcl2. bind_split H as e2 H2. inversion H; subst.
      apply put_client_Done in H2 as [_ ->]. left. auto.
  - bind_split H as e1 H1. inversion H; subst. apply put_client_Done in H1 as [_ ->].
    left. auto.
Qed.

Ltac no_fuel :=
  repeat first
    [ apply get_client_has_fuel | apply put_client_has_fuel | apply fetch_has_fuel
    | apply client_error_incr_has_fuel | apply skip_to_internal_has_fuel
    | discriminate
    | apply bind_has_fuel; [|intros ? _]
    | match goal with
      | |- (let '(_, _) := os_call _ in _) <> OutOfFuel =>
          unfold os_call; cbn beta iota zeta
      | |- (if ?b then _ else _) <> OutOfFuel => destruct b
      | |- (match ?x with _ => _ end) <> OutOfFuel => destruct x
      end ].

Lemma process_internal_has_fuel (e : jack_engine_t) (node : list nat) (nframes : Z) :
  jack_process_internal e node nframes <> OutOfFuel.
Proof. unfold jack_process_internal. no_fuel. Qed.

Lemma process_external_has_fuel (e : jack_engine_t) (node : list nat) :
  jack_process_external e node <> OutOfFuel.
Proof.
  unfold jack_process_external. destruct node as [|c rest]; [discriminate|].
  apply bind_has_fuel.
  - unfold trigger_subgraph. no_fuel.
  - intros [started e1] _. destruct (negb started); [discriminate|].
    apply bind_has_fuel.
    + unfold wait_for_subgraph. no_fuel.
    + intros [status e2] _. unfold finish_subgraph. no_fuel.
Qed.

Lemma trigger_subgraph_kind (e e1 : jack_engine_t) (c : nat) (started : bool)
    (cl : jack_client_internal_t) :
  trigger_subgraph e c = Done (started, e1) -> client_mem e !! c = Some cl ->
  exists cl1, client_mem e1 !! c = Some cl1 /\
              jack_client_is_internal cl1 = jack_client_is_internal cl.
Proof.
  unfold trigger_subgraph, os_call, emit. intros H Hcl. bind_split H as cl0 Hcl0.
  apply fetch_Done in Hcl0. assert (cl0 = cl) by congruence. subst cl0.
  cbn beta iota zeta in H. bind_split H as e2 H2. apply put_client_Done in H2 as [Hlt ->].
  cbn beta iota zeta in H. inversion H; subst. eexists. split.
  - cbn. apply list_lookup_insert_eq. exact Hlt.
  - reflexivity.
Qed.

Lemma wait_for_subgraph_kind (e e1 : jack_engine_t) (c : nat) (status : Z)
    (cl : jack_client_internal_t) :
  wait_for_subgraph e c = Done (status, e1) -> client_mem e !! c = Some cl ->
  exists cl1, client_mem e1 !! c = Some cl1 /\
              jack_client_is_internal cl1 = jack_client_is_internal cl.
Proof.
  unfold wait_for_subgraph, os_call, emit. intros H Hcl. bind_split H as cl0 Hcl0.
  apply fetch_Done in Hcl0. assert (cl0 = cl) by congruence. subst cl0.
  destruct (asio_mode e); cbn beta iota zeta in H.
  - bind_split H as e2 H2. apply put_client_Done in H2 as [Hlt ->].
    inversion H; subst. eexists. split; [apply list_lookup_insert_eq; exact Hlt|].
    reflexivity.
  - bind_split H as e2 H2. apply put_client_Done in H2 as [Hlt ->].
    destruct (has_flag _ _); inversion H; subst; eexists;
      (split; [apply list_lookup_insert_eq; exact Hlt | reflexivity]).
Qed.

(** One step of the loop on an external client: it hands back a part of
    the rest of the list with the error count as it was, or it has
    counted one error and hands back [NULL]. *)
Lemma process_external_step (e e' : jack_engine_t) (c : nat) (rest node' : list nat)
    (cl : jack_client_internal_t) :
  client_mem e !! c = Some cl -> jack_client_is_internal cl = false ->
  jack_process_external e (c :: rest) = Done (node', e') ->
  ((length node' <= length rest)%nat /\ process_errors e' = process_errors e) \/
  (node' = [] /\ process_errors e' = process_errors e + 1).
Proof.
  intros Hcl Hext H. unfold jack_process_external in H.
  bind_split H as [started e1] H1.
  pose proof (trigger_subgraph_process_errors _ _ _ _ H1) as Hp1.
  destruct (trigger_subgraph_kind _ _ _ _ _ H1 Hcl) as (cl1 & Hcl1 & Hk1).
  destruct (negb started).
  { inversion H; subst. right. cbn. split; [reflexivity | lia]. }
  bind_split H as [status e2] H2.
  pose proof (wait_for_subgraph_process_errors _ _ _ _ H2) as Hp2.
  destruct (wait_for_subgraph_kind _ _ _ _ _ H2 Hcl1) as (cl2 & Hcl2 & Hk2).
  unfold finish_subgraph, os_call in H. destruct (negb (status =? 0)).
  - bind_split H as cl3 Hcl3. bind_split H as e3 H3. inversion H; subst.
    right. split; [reflexivity|]. cbn.
    assert (process_errors e3 = process_errors e2); [|lia].
    destruct (awake_at (control cl3) >? 0); [|inversion H3; reflexivity].
    apply put_client_Done in H3 as [_ ->]. reflexivity.
  - cbn beta iota zeta in H. destruct (negb (ok _)).
    + bind_split H as e3 H3. inversion H; subst. left. split; [simpl; lia|].
      unfold client_error_incr in H3. bind_split H3 as cl3 Hcl3.
      apply put_client_Done in H3 as [_ ->]. cbn. lia.
    + bind_split H as n1 Hn1. inversion H; subst. left. split; [|cbn; lia].
      cbn [skip_to_internal] in Hn1. unfold get_client in Hn1.
      cbn [client_mem set_clock] in Hn1.
      rewrite (fetch_lookup _ _ _ Hcl2) in Hn1. cbn [mbind outcome_bind] in Hn1.
      rewrite Hk2, Hk1, Hext in Hn1. apply skip_to_internal_suffix in Hn1. exact Hn1.
Qed.

Lemma engine_process_loop_has_fuel (nframes : Z) (fuel : nat) :
  forall e node, (length node <= fuel)%nat ->
    engine_process_loop fuel e node nframes <> OutOfFuel.
Proof.
  induction fuel as [|fuel IH]; intros e node Hlen; cbn [engine_process_loop].
  - destruct (negb (process_errors e =? 0)); [discriminate|].
    destruct node; [discriminate | simpl in Hlen; lia].
  - destruct (negb (process_errors e =? 0)); [discriminate|].
    destruct node as [|c rest]; [discriminate|]. simpl in Hlen.
    apply bind_has_fuel; [apply get_client_has_fuel|]. intros cl Hcl.
    apply fetch_Done in Hcl.
    destruct (negb (active (control cl)) || dead (control cl)); [apply IH; lia|].
    destruct (jack_client_is_internal cl) eqn:Hk.
    + apply bind_has_fuel; [apply process_internal_has_fuel|].
      intros [node' e1] H1. apply IH.
      apply process_internal_step in H1 as [[-> _]|[-> _]]; simpl; lia.
    + apply bind_has_fuel; [apply process_external_has_fuel|].
      intros [node' e1] H1. apply IH.
      apply (process_external_step _ _ _ _ _ cl Hcl Hk) in H1 as [[Hle _]|[-> _]];
        simpl; lia.
Qed.

Lemma engine_process_loop_errors (nframes : Z) (fuel : nat) :
  forall e e' node,
    process_errors e = 0 \/ process_errors e = 1 ->
    engine_process_loop fuel e node nframes = Done e' ->
    process_errors e' = 0 \/ process_errors e' = 1.
Proof.
  induction fuel as [|fuel IH]; intros e e' node He H; cbn [engine_process_loop] in H.
  - destruct (negb (process_errors e =? 0)); [inversion H; subst; exact He|].
    destruct node; [inversion H; subst; exact He | discriminate].
  - destruct (Z.eqb_spec (process_errors e) 0) as [Hz|Hnz]; cbn [negb] in H;
      [|inversion H; subst; exact He].
    destruct node as [|c rest]; [inversion H; subst; exact He|].
    bind_split H as cl Hcl. apply fetch_Done in Hcl.
    destruct (negb (active (control cl)) || dead (control cl)); [apply (IH _ _ _ He H)|].
    destruct (jack_client_is_internal cl) eqn:Hk.
    + bind_split H as [node' e1] H1.
      apply process_internal_step in H1 as [[_ Hp]|[_ Hp]];
        (apply (IH e1 e' node'); [lia | exact H]).
    + bind_split H as [node' e1] H1.
      apply (process_external_step _ _ _ _ _ cl Hcl Hk) in H1 as [[_ Hp]|[_ Hp]];
        (apply (IH e1 e' node'); [lia | exact H]).
Qed.

(** [jack_engine_process] always comes back.  Its status is 0 or 1 and is
    the number of process errors it leaves in the engine: the loop stops
    at the first client that fails, so a cycle counts at most one error.
    It touches no port table, connection list, client list or FIFO. *)
Theorem engine_process_counts_at_most_one_error (e : jack_engine_t) (nframes : Z) :
  jack_engine_process e nframes <> OutOfFuel /\
  forall r e', jack_engine_process e nframes = Done (r, e') ->
    (r = 0 \/ r = 1) /\ process_errors e' = r /\
    ports_of e' = ports_of e /\ graph_of e' = graph_of e /\
    clients e' = clients e /\ fifo e' = fifo e.
Proof.
  split.
  - unfold jack_engine_process. apply bind_has_fuel.
    + cbn zeta.
      generalize (clients (set_process_errors e 0)) as l.
      generalize (set_process_errors e 0) as e0. intros e0 l. revert e0.
      induction l as [|c l IH]; intros e0; cbn [for_each]; [discriminate|].
      apply bind_has_fuel; [|intros e1 _; apply IH].
      apply bind_has_fuel; [apply get_client_has_fuel|]. intros cl _.
      apply put_client_has_fuel.
    + intros e1 _. apply bind_has_fuel; [|discriminate].
      apply engine_process_loop_has_fuel. reflexivity.
  - intros r e' H.
    pose proof (engine_process_frame ports_of ltac:(reflexivity) ltac:(reflexivity)
                  ltac:(reflexivity) ltac:(reflexivity) ltac:(reflexivity) _ _ _ _ H) as Hp.
    pose proof (engine_process_frame graph_of ltac:(reflexivity) ltac:(reflexivity)
                  ltac:(reflexivity) ltac:(reflexivity) ltac:(reflexivity) _ _ _ _ H) as Hg.
    pose proof (engine_process_frame clients ltac:(reflexivity) ltac:(reflexivity)
                  ltac:(reflexivity) ltac:(reflexivity) ltac:(reflexivity) _ _ _ _ H) as Hc.
    pose proof (engine_process_frame fifo ltac:(reflexivity) ltac:(reflexivity)
                  ltac:(reflexivity) ltac:(reflexivity) ltac:(reflexivity) _ _ _ _ H) as Hf.
    unfold jack_engine_process in H.
    bind_split H as e1 H1. bind_split H as e2 H2. inversion H; subst e2; clear H.
    assert (Hz : process_errors e1 = 0).
    { assert (Hfr : forall l e0 e0',
                for_each (fun e c =>
                            client ← get_client e c;
                            put_client e c (set_control client
                                              (reset_control (control client) nframes)))
                  l e0 = Done e0' -> process_errors e0' = process_errors e0).
      { induction l as [|c l IH]; intros e0 e0' H0; cbn [for_each] in H0.
        - inversion H0; reflexivity.
        - bind_split H0 as e3 Hbody. bind_split Hbody as cl Hcl.
          apply put_client_Done in Hbody as [_ ->]. apply IH in H0. exact H0. }
      apply Hfr in H1. exact H1. }
    apply engine_process_loop_errors in H2; [|left; exact Hz].
    split; [|split; [|auto]].
    + destruct H2 as [-> | ->]; [left | right]; reflexivity.
    + destruct H2 as [-> | ->]; reflexivity.
Qed.

(** ** The heartbeat and the frame time *)

Lemma driver_call_view {X : Type} (view : jack_engine_t -> X) (what : io_event)
    (e e' : jack_engine_t) (r : Z) :
  (forall e v, view (set_clock e v) = view e) ->
  (forall e v, view (set_trace e v) = view e) ->
  driver_call what e = (r, e') -> view e' = view e.
Proof.
  intros Hc Ht H. unfold driver_call, os_call, emit in H. cbn beta iota zeta in H.
  inversion H; subst. rewrite Ht, Hc. reflexivity.
Qed.

Lemma notify_about_delay_view {X : Type} (view : jack_engine_t -> X) (e e' : jack_engine_t) :
  (forall e v, view (set_client_mem e v) = view e) ->
  (forall e v, view (set_clock e v) = view e) ->
  (forall e v, view (set_trace e v) = view e) ->
  jack_engine_notify_clients_about_delay e = Done e' -> view e' = view e.
Proof.
  intros Hm Hc Ht. unfold jack_engine_notify_clients_about_delay.
  apply for_each_frame. intros e0 c e0' H. bind_split H as [r e1] Hd.
  inversion H; subst. apply (deliver_event_frame view Hm Hc Ht _ _ _ _ _ Hd).
Qed.

(** Every call of [jack_run_cycle] that returns gives 0 or -1.  A cycle
    taken for an excessive delay counts one more consecutive delay, sets
    the watchdog flag and leaves the frame timer alone.  Any other cycle
    resets the count and, before it tries the graph lock, sets the
    watchdog flag and advances the frame timer once: both guards by one
    (they wrap), [frames] by [nframes] modulo 2^32, the stamp to the
    driver's last wait time.  Nothing in [jack_run_cycle] itself touches
    the flag or the timer after that, whether the lock is busy, the
    driver fails or the clients do: on return they hold these values, or
    what [jack_engine_post_process] made of them if it was reached. *)
Theorem run_cycle_sets_heartbeat_and_frame_time
    (post : jack_engine_t -> outcome jack_engine_t) (guard_modulus : Z)
    (e e' : jack_engine_t) (k k' nframes : Z) (d : Q) (r : Z) :
  jack_run_cycle post guard_modulus e k nframes d = Done (r, e', k') ->
  (r = 0 \/ r = -1) /\
  (if excessive_delay e d
   then k' = k + 1 /\ watchdog_check e' = 1 /\
        frame_timer (ectl e') = frame_timer (ectl e)
   else k' = 0 /\
        exists ep,
          watchdog_check ep = 1 /\
          frames (frame_timer (ectl ep))
          = (frames (frame_timer (ectl e)) + nframes) mod 2 ^ 32 /\
          guard1 (frame_timer (ectl ep))
          = (guard1 (frame_timer (ectl e)) + 1) mod guard_modulus /\
          guard2 (frame_timer (ectl ep))
          = (guard2 (frame_timer (ectl e)) + 1) mod guard_modulus /\
          stamp (frame_timer (ectl ep)) = last_wait_ust e /\
          ((frame_timer (ectl e') = frame_timer (ectl ep) /\
            watchdog_check e' = watchdog_check ep) \/
           exists ep',
             post ep = Done ep' /\
             frame_timer (ectl e') = frame_timer (ectl ep') /\
             watchdog_check e' = watchdog_check ep')).
Proof.
  intros H.
  set (beat := fun e0 : jack_engine_t => (frame_timer (ectl e0), watchdog_check e0)).
  assert (Hbeat : forall e0 e1, beat e1 = beat e0 ->
            frame_timer (ectl e1) = frame_timer (ectl e0) /\
            watchdog_check e1 = watchdog_check e0)
    by (unfold beat; intros e0 e1 Hb; inversion Hb; auto).
  assert (Hdrv : forall what e0 e1 r0, driver_call what e0 = (r0, e1) -> beat e1 = beat e0)
    by (intros what e0 e1 r0; apply driver_call_view; reflexivity).
  unfold jack_run_cycle in H. cbn zeta in H.
  change (real_time (ectl (set_watchdog_check e 1))
          && negb (Qeq_bool (spare_usecs (set_watchdog_check e 1)) 0)
          && Qle_bool (WORK_SCALE * spare_usecs (set_watchdog_check e 1)) d)
    with (excessive_delay e d) in H.
  destruct (excessive_delay e d).
  - destruct (k + 1 >? 10).
    { inversion H; subst. cbn. auto. }
    destruct (driver_call DriverStop (set_watchdog_check e 1)) as [r1 e1] eqn:Hstop.
    apply Hdrv in Hstop.
    destruct (negb (r1 =? 0)).
    { inversion H; subst. apply Hbeat in Hstop as [Hf Hw]. cbn in Hf, Hw. auto. }
    bind_split H as e2 Hnot.
    apply (notify_about_delay_view beat) in Hnot; try reflexivity.
    destruct (driver_call DriverStart e2) as [r3 e3] eqn:Hstart. apply Hdrv in Hstart.
    assert (Hb : beat e3 = beat (set_watchdog_check e 1)) by congruence.
    apply Hbeat in Hb as [Hf Hw]. cbn in Hf, Hw.
    destruct (negb (r3 =? 0)); inversion H; subst; auto.
  - set (e0 := jack_inc_frame_time guard_modulus (set_watchdog_check e 1) nframes) in *.
    assert (Hadv : forall ex, beat ex = beat e0 ->
              watchdog_check ex = 1 /\
              frames (frame_timer (ectl ex))
              = (frames (frame_timer (ectl e)) + nframes) mod 2 ^ 32 /\
              guard1 (frame_timer (ectl ex))
              = (guard1 (frame_timer (ectl e)) + 1) mod guard_modulus /\
              guard2 (frame_timer (ectl ex))
              = (guard2 (frame_timer (ectl e)) + 1) mod guard_modulus /\
              stamp (frame_timer (ectl ex)) = last_wait_ust e).
    { intros ex Hx. apply Hbeat in Hx as [Hf Hw]. rewrite Hf, Hw.
      repeat split; reflexivity. }
    assert (Hstay : forall ex, beat ex = beat e0 ->
              (r = 0 \/ r = -1) -> k' = 0 -> e' = ex ->
              (r = 0 \/ r = -1) /\ k' = 0 /\
              exists ep,
                watchdog_check ep = 1 /\
                frames (frame_timer (ectl ep))
                = (frames (frame_timer (ectl e)) + nframes) mod 2 ^ 32 /\
                guard1 (frame_timer (ectl ep))
                = (guard1 (frame_timer (ectl e)) + 1) mod guard_modulus /\
                guard2 (frame_timer (ectl ep))
                = (guard2 (frame_timer (ectl e)) + 1) mod guard_modulus /\
                stamp (frame_timer (ectl ep)) = last_wait_ust e /\
                ((frame_timer (ectl e') = frame_timer (ectl ep) /\
                  watchdog_check e' = watchdog_check ep) \/
                 exists ep',
                   post ep = Done ep' /\
                   frame_timer (ectl e') = frame_timer (ectl ep') /\
                   watchdog_check e' = watchdog_check ep')).
    { intros ex Hx Hr Hk ->. split; [exact Hr|]. split; [exact Hk|].
      exists ex. destruct (Hadv ex Hx) as (A1 & A2 & A3 & A4 & A5). auto 10. }
    assert (Hpost : forall ex ex' ey, beat ex = beat e0 -> post ex = Done ex' ->
              beat ey = beat ex' ->
              (r = 0 \/ r = -1) -> k' = 0 -> e' = ey ->
              (r = 0 \/ r = -1) /\ k' = 0 /\
              exists ep,
                watchdog_check ep = 1 /\
                frames (frame_timer (ectl ep))
                = (frames (frame_timer (ectl e)) + nframes) mod 2 ^ 32 /\
                guard1 (frame_timer (ectl ep))
                = (guard1 (frame_timer (ectl e)) + 1) mod guard_modulus /\
                guard2 (frame_timer (ectl ep))
                = (guard2 (frame_timer (ectl e)) + 1) mod guard_modulus /\
                stamp (frame_timer (ectl ep)) = last_wait_ust e /\
                ((frame_timer (ectl e') = frame_timer (ectl ep) /\
                  watchdog_check e' = watchdog_check ep) \/
                 exists ep',
                   post ep = Done ep' /\
                   frame_timer (ectl e') = frame_timer (ectl ep') /\
                   watchdog_check e' = watchdog_check ep')).
    { intros ex ex' ey Hx Hp Hy Hr Hk ->. split; [exact Hr|]. split; [exact Hk|].
      exists ex. destruct (Hadv ex Hx) as (A1 & A2 & A3 & A4 & A5).
      apply Hbeat in Hy as [Hyf Hyw].
      repeat (split; [assumption|]). right. exists ex'. auto. }
    destruct (os_call e0) as [busy e1] eqn:Hlock.
    assert (Hb1 : beat e1 = beat e0)
      by (unfold os_call in Hlock; inversion Hlock; reflexivity).
    destruct (negb (ret busy =? 0)).
    { destruct (driver_call DriverNullCycle e1) as [r2 e2] eqn:Hnull. apply Hdrv in Hnull.
      inversion H; subst. apply (Hstay e'); auto; congruence. }
    destruct (driver_call DriverRead e1) as [r2 e2] eqn:Hread. apply Hdrv in Hread.
    destruct (negb (r2 =? 0)).
    { inversion H; subst. apply (Hstay e'); auto; congruence. }
    bind_split H as [failed e3] Hproc.
    apply (engine_process_frame beat) in Hproc; try reflexivity.
    destruct (negb (failed =? 0)).
    + destruct (driver_call DriverStop e3) as [r4 e4] eqn:Hstop. apply Hdrv in Hstop.
      bind_split H as e5 Hp.
      destruct (driver_call DriverStart e5) as [r6 e6] eqn:Hstart. apply Hdrv in Hstart.
      inversion H; subst. apply (Hpost e4 e5 e'); auto; congruence.
    + destruct (driver_call DriverWrite e3) as [r4 e4] eqn:Hwrite. apply Hdrv in Hwrite.
      destruct (negb (r4 =? 0)).
      { inversion H; subst. apply (Hstay e'); auto; congruence. }
      bind_split H as e5 Hp.
      inversion H; subst. apply (Hpost e4 e' e'); auto; congruence.
Qed.

Lemma run_cycle_sets_heartbeat_and_frame_time_witness :
  exists e',
    jack_run_cycle idle_post_process (2 ^ 64) fresh_engine 3 64 5 = Done (0, e', 0) /\
    ((0 = 0 \/ 0 = -1) /\
     (if excessive_delay fresh_engine 5
      then 0 = 3 + 1 /\ watchdog_check e' = 1 /\
           frame_timer (ectl e') = frame_timer (ectl fresh_engine)
      else 0 = 0 /\
           exists ep,
             watchdog_check ep = 1 /\
             frames (frame_timer (ectl ep))
             = (frames (frame_timer (ectl fresh_engine)) + 64) mod 2 ^ 32 /\
             guard1 (frame_timer (ectl ep))
             = (guard1 (frame_timer (ectl fresh_engine)) + 1) mod 2 ^ 64 /\
             guard2 (frame_timer (ectl ep))
             = (guard2 (frame_timer (ectl fresh_engine)) + 1) mod 2 ^ 64 /\
             stamp (frame_timer (ectl ep)) = last_wait_ust fresh_engine /\
             ((frame_timer (ectl e') = frame_timer (ectl ep) /\
               watchdog_check e' = watchdog_check ep) \/
              exists ep',
                idle_post_process ep = Done ep' /\
                frame_timer (ectl e') = frame_timer (ectl ep') /\
                watchdog_check e' = watchdog_check ep'))).
Proof.
  eexists.
  match goal with
  | |- ?P /\ _ => assert (H : P) by (vm_compute; reflexivity); split; [exact H|]
  end.
  exact (run_cycle_sets_heartbeat_and_frame_time idle_post_process (2 ^ 64) fresh_engine _
           3 0 64 5 0 H).
Defined.

(** ** Who feeds whom *)

Lemma connection_feeds_spec (e : jack_engine_t) (might_id target_id : Z)
    (l : list jack_connection_internal_t) (b : bool) :
  connection_feeds e l might_id target_id = Done b ->
  (b = true <-> exists c, c ∈ l /\ conn_joins e c might_id target_id).
Proof.
  revert b. induction l as [|c l IH]; intros b H; simpl in H.
  - inversion H; subst. split; [discriminate|]. intros (c & Hc & _). inversion Hc.
  - bind_split H as src Hsrc. bind_split H as ssh Hssh. apply fetch_Done in Hsrc, Hssh.
    assert (Hrest : connection_feeds e l might_id target_id = Done b ->
              ~ conn_joins e c might_id target_id ->
              (b = true <-> exists c0, c0 ∈ c :: l /\ conn_joins e c0 might_id target_id)).
    { intros Hl Hno. rewrite (IH b Hl). split.
      - intros (c0 & Hc0 & Hj). exists c0. split; [right; exact Hc0 | exact Hj].
      - intros (c0 & Hc0 & Hj). apply elem_of_cons in Hc0 as [->|Hc0]; [contradiction|].
        exists c0. auto. }
    destruct (Z.eqb_spec (client_id ssh) might_id) as [Hm|Hm].
    + bind_split H as dst Hdst. bind_split H as dsh Hdsh. apply fetch_Done in Hdst, Hdsh.
      destruct (Z.eqb_spec (client_id dsh) target_id) as [Ht|Ht].
      * inversion H; subst b. split; [|reflexivity]. intros _. exists c.
        split; [left|]. exists src, dst, ssh, dsh. auto 10.
      * apply (Hrest H). intros (src' & dst' & ssh' & dsh' & H1 & H2 & H3 & H4 & H5 & H6).
        congruence.
    + apply (Hrest H). intros (src' & dst' & ssh' & dsh' & H1 & H2 & H3 & H4 & H5 & H6).
      congruence.
Qed.

Lemma port_feeds_spec (e : jack_engine_t) (might_id target_id : Z)
    (ps : list nat) (b : bool) :
  port_feeds e ps might_id target_id = Done b ->
  (b = true <->
   exists p ip c, p ∈ ps /\ internal_ports e !! p = Some ip /\ c ∈ connections ip /\
                  conn_joins e c might_id target_id).
Proof.
  revert b. induction ps as [|p ps IH]; intros b H; simpl in H.
  - inversion H; subst. split; [discriminate|]. intros (p & ip & c & Hp & _). inversion Hp.
  - bind_split H as ip Hip. apply fetch_Done in Hip.
    bind_split H as r Hr. apply connection_feeds_spec in Hr. destruct r.
    + inversion H; subst b. split; [|reflexivity]. intros _.
      destruct (proj1 Hr eq_refl) as (c & Hc & Hj). exists p, ip, c.
      split; [left|]. auto.
    + rewrite (IH b H). split.
      * intros (p0 & ip0 & c & Hp0 & H'). exists p0, ip0, c. split; [right; exact Hp0 | exact H'].
      * intros (p0 & ip0 & c & Hp0 & Hip0 & Hc & Hj).
        apply elem_of_cons in Hp0 as [->|Hp0]; [|exists p0, ip0, c; auto].
        assert (ip0 = ip) by congruence. subst ip0.
        assert (false = true); [|discriminate]. apply Hr. exists c. auto.
Qed.

(** [jack_client_feeds (might, target)] answers 1 exactly when one of the
    ports on the port list of [might] lists a connection that runs from a
    port owned by [might] to a port owned by [target]. *)
Theorem client_feeds_iff_owned_connection (e : jack_engine_t) (might target : nat)
    (b : bool) (m t : jack_client_internal_t) :
  client_mem e !! might = Some m -> client_mem e !! target = Some t ->
  jack_client_feeds e might target = Done b ->
  (b = true <->
   exists p ip c, p ∈ ports m /\ internal_ports e !! p = Some ip /\ c ∈ connections ip /\
                  conn_joins e c (c_id (control m)) (c_id (control t))).
Proof.
  intros Hm Ht H. unfold jack_client_feeds, get_client in H.
  rewrite (fetch_lookup _ _ _ Hm), (fetch_lookup _ _ _ Ht) in H.
  cbn [mbind outcome_bind] in H. apply port_feeds_spec in H. exact H.
Qed.

Lemma client_feeds_iff_owned_connection_witness :
  client_mem capture_engine !! 0%nat = Some (new_client 1 "alsa" ClientDriver true [0%nat]) /\
  client_mem capture_engine !! 1%nat = Some (new_client 2 "rec" ClientExternal true [1%nat]) /\
  jack_client_feeds capture_engine 0 1 = Done true /\
  (true = true <->
   exists p ip c,
     p ∈ ports (new_client 1 "alsa" ClientDriver true [0%nat]) /\
     internal_ports capture_engine !! p = Some ip /\ c ∈ connections ip /\
     conn_joins capture_engine c
       (c_id (control (new_client 1 "alsa" ClientDriver true [0%nat])))
       (c_id (control (new_client 2 "rec" ClientExternal true [1%nat])))).
Proof.
  assert (H1 : client_mem capture_engine !! 0%nat
               = Some (new_client 1 "alsa" ClientDriver true [0%nat])) by reflexivity.
  assert (H2 : client_mem capture_engine !! 1%nat
               = Some (new_client 2 "rec" ClientExternal true [1%nat])) by reflexivity.
  assert (H3 : jack_client_feeds capture_engine 0 1 = Done true) by (vm_compute; reflexivity).
  split; [exact H1|]. split; [exact H2|]. split; [exact H3|].
  exact (client_feeds_iff_owned_connection capture_engine 0%nat 1%nat true _ _ H1 H2 H3).
Defined.

(** ** The comparator *)

(** [jack_client_sort] is antisymmetric on every pair of clients but one
    kind: two clients that are on each other's fed-by list and are both,
    or neither, of type [ClientDriver].  For those it gives the same
    answer both ways round: each comes after the other (1 and 1), or,
    between two drivers, each before the other. *)
Theorem client_sort_antisymmetric_outside_feedback (e : jack_engine_t) (a b : nat)
    (ca cb : jack_client_internal_t) :
  client_mem e !! a = Some ca -> client_mem e !! b = Some cb ->
  exists x y,
    jack_client_sort e a b = Done x /\ jack_client_sort e b a = Done y /\
    (x = -1 \/ x = 0 \/ x = 1) /\
    (x + y = 0 <->
     ~ (jack_slist_find (fed_by ca) b = true /\ jack_slist_find (fed_by cb) a = true /\
        (c_type (control ca) = ClientDriver <-> c_type (control cb) = ClientDriver))) /\
    (x + y <> 0 -> x = y).
Proof.
  intros Ha Hb.
  rewrite (jack_client_sort_table e a b ca cb Ha Hb),
          (jack_client_sort_table e b a cb ca Hb Ha).
  eexists _, _. split; [reflexivity|]. split; [reflexivity|].
  destruct (jack_slist_find (fed_by ca) b), (jack_slist_find (fed_by cb) a);
    cbn [andb];
    destruct (bool_decide_reflect (c_type (control ca) = ClientDriver)) as [Da|Da],
             (bool_decide_reflect (c_type (control cb) = ClientDriver)) as [Db|Db];
    (split; [lia|]); (split; [|lia]);
    (split; [try lia; try (intros _ (_ & _ & Hiff); tauto); intros _; tauto
            | try lia; try (intros Hn; exfalso; apply Hn; tauto); intros Hn; tauto]).
Qed.

Lemma client_sort_antisymmetric_outside_feedback_witness :
  client_mem capture_engine !! 0%nat = Some (new_client 1 "alsa" ClientDriver true [0%nat]) /\
  client_mem capture_engine !! 1%nat = Some (new_client 2 "rec" ClientExternal true [1%nat]) /\
  exists x y,
    jack_client_sort capture_engine 0 1 = Done x /\
    jack_client_sort capture_engine 1 0 = Done y /\
    (x = -1 \/ x = 0 \/ x = 1) /\
    (x + y = 0 <->
     ~ (jack_slist_find (fed_by (new_client 1 "alsa" ClientDriver true [0%nat])) 1 = true /\
        jack_slist_find (fed_by (new_client 2 "rec" ClientExternal true [1%nat])) 0 = true /\
        (c_type (control (new_client 1 "alsa" ClientDriver true [0%nat])) = ClientDriver <->
         c_type (control (new_client 2 "rec" ClientExternal true [1%nat])) = ClientDriver))) /\
    (x + y <> 0 -> x = y).
Proof.
  assert (H1 : client_mem capture_engine !! 0%nat
               = Some (new_client 1 "alsa" ClientDriver true [0%nat])) by reflexivity.
  assert (H2 : client_mem capture_engine !! 1%nat
               = Some (new_client 2 "rec" ClientExternal true [1%nat])) by reflexivity.
  split; [exact H1|]. split; [exact H2|].
  exact (client_sort_antisymmetric_outside_feedback capture_engine 0%nat 1%nat _ _ H1 H2).
Defined.

(** ** Who hears of a registration *)

Lemma registration_seen_ext (e e' : jack_engine_t) (ev : jack_event_t) (l : list nat) :
  shapes e' = shapes e -> registration_seen e' ev l = registration_seen e ev l.
Proof.
  intros Hs. unfold registration_seen. induction l as [|c l IH]; [reflexivity|].
  cbn [flat_map]. rewrite IH, (control_of_shapes_eq e e' Hs c). reflexivity.
Qed.

Lemma registration_each_trace (ev : jack_event_t) (l : list nat) :
  forall e e',
    for_each (fun e c =>
      client ← get_client e c;
      if negb (active (control client)) then mret e
      else if port_register (control client) then
        '(_, e) ← jack_deliver_event e c ev; mret e
      else mret e) l e = Done e' ->
    trace e' = trace e ++ registration_seen e ev l.
Proof.
  induction l as [|c l IH]; intros e e' H; cbn [for_each] in H.
  - inversion H. cbn. rewrite app_nil_r. reflexivity.
  - bind_split H as e1 H1. bind_split H1 as cl Hcl. apply fetch_Done in Hcl.
    apply IH in H. unfold registration_seen at 1. cbn [flat_map].
    fold (registration_seen e ev l). rewrite (control_of_lookup e c cl Hcl).
    destruct (active (control cl)); cbn [negb andb] in *.
    + destruct (port_register (control cl)).
      * bind_split H1 as [r e1'] Hd. inversion H1; subst e1'; clear H1.
        pose proof (deliver_event_shapes _ _ _ _ _ Hd) as [Hs _].
        apply deliver_event_outcome in Hd as (cl' & Hcl' & _ & Ht & _).
        assert (cl' = cl) by congruence. subst cl'.
        rewrite H, Ht, (registration_seen_ext e e1 ev l Hs), <- app_assoc. reflexivity.
      * inversion H1; subst e1. exact H.
    + inversion H1; subst e1. exact H.
Qed.

(** [jack_port_registration_notify] tells the clients of the list that
    are active and have a port-registration callback, each once and in
    list order, and nobody else.  It changes no port and no client record
    apart from the error counters. *)
Theorem registration_notify_tells_active_subscribers
    (e e' : jack_engine_t) (port_id : nat) (yn : bool) :
  jack_port_registration_notify e port_id yn = Done e' ->
  trace e' = trace e ++ registration_seen e (registration_event port_id yn) (clients e) /\
  shapes e' = shapes e /\ clients e' = clients e /\ ports_of e' = ports_of e.
Proof.
  intros H. split; [|split; [|split]].
  - unfold jack_port_registration_notify in H.
    apply (registration_each_trace (registration_event port_id yn) (clients e) e e' H).
  - apply (registration_notify_shapes _ _ _ _ H).
  - apply (registration_notify_shapes _ _ _ _ H).
  - apply (registration_notify_ports _ _ _ _ H).
Qed.

Lemma registration_notify_tells_active_subscribers_witness :
  exists e',
    jack_port_registration_notify capture_engine 1 true = Done e' /\
    (trace e'
     = trace capture_engine
       ++ registration_seen capture_engine (registration_event 1 true)
            (clients capture_engine) /\
     shapes e' = shapes capture_engine /\ clients e' = clients capture_engine /\
     ports_of e' = ports_of capture_engine).
Proof.
  eexists.
  match goal with
  | |- ?P /\ _ => assert (H : P) by (vm_compute; reflexivity); split; [exact H|]
  end.
  exact (registration_notify_tells_active_subscribers capture_engine _ 1%nat true H).
Defined.

(** ** The FIFO table *)

Lemma fifo_fd_open_table (e e' : jack_engine_t) (w : nat) (r : Z) :
  fifo_fd_open e w = Done (r, e') ->
  (forall i, i <> w -> fifo e' !! i = fifo e !! i) /\
  (0 <= r -> fifo e' !! w = Some r) /\
  (forall fd, fifo e !! w = Some fd -> 0 <= fd -> fifo e' = fifo e /\ r = fd).
Proof.
  unfold fifo_fd_open. destruct (Nat.leb_spec (length (fifo e)) w) as [|Hlt]; [discriminate|].
  intros H. bind_split H as cur Hcur. apply fetch_Done in Hcur.
  destruct (Z.ltb_spec cur 0) as [Hneg|Hpos].
  - unfold os_call in H. cbn beta iota zeta in H.
    assert (Hf : fifo e' = <[w := ret (os e (clock e))]> (fifo e) /\
                 (0 <= r -> r = ret (os e (clock e)))).
    { destruct (Z.ltb_spec (ret (os e (clock e))) 0); inversion H; subst; cbn; split; auto; lia. }
    destruct Hf as [Hf Hr]. rewrite Hf. split; [|split].
    + intros i Hi. apply list_lookup_insert_ne. congruence.
    + intros H0. rewrite <- (Hr H0). apply list_lookup_insert_eq. exact Hlt.
    + intros fd Hfd H0. assert (fd = cur) by congruence. lia.
  - inversion H; subst. split; [auto|]. split; [auto|].
    intros fd Hfd _. split; [reflexivity | congruence].
Qed.

(** A descriptor that [jack_get_fifo_fd] returns is the one that slot
    [which_fifo] of the table holds afterwards, and no other slot has
    changed.  A slot that is open already is never opened again: the table
    is left as it was and the answer is the stored descriptor, or -1 when
    the check of the path fails. *)
Theorem get_fifo_fd_opens_a_slot_once (e e' : jack_engine_t) (which_fifo : nat) (r : Z) :
  jack_get_fifo_fd e which_fifo = Done (r, e') ->
  (forall i, i <> which_fifo -> fifo e' !! i = fifo e !! i) /\
  (0 <= r -> fifo e' !! which_fifo = Some r) /\
  (forall fd, fifo e !! which_fifo = Some fd -> 0 <= fd ->
              fifo e' = fifo e /\ (r = fd \/ r = -1)).
Proof.
  assert (Hfail : forall e0 : jack_engine_t, fifo e0 = fifo e -> r = -1 ->
            (forall i, i <> which_fifo -> fifo e0 !! i = fifo e !! i) /\
            (0 <= r -> fifo e0 !! which_fifo = Some r) /\
            (forall fd, fifo e !! which_fifo = Some fd -> 0 <= fd ->
                        fifo e0 = fifo e /\ (r = fd \/ r = -1))).
  { intros e0 Hf Hr. rewrite Hf. split; [auto|]. split; [lia|]. auto. }
  assert (Hopen : forall e0 : jack_engine_t, fifo e0 = fifo e ->
            fifo_fd_open e0 which_fifo = Done (r, e') ->
            (forall i, i <> which_fifo -> fifo e' !! i = fifo e !! i) /\
            (0 <= r -> fifo e' !! which_fifo = Some r) /\
            (forall fd, fifo e !! which_fifo = Some fd -> 0 <= fd ->
                        fifo e' = fifo e /\ (r = fd \/ r = -1))).
  { intros e0 Hf H. apply fifo_fd_open_table in H as (H1 & H2 & H3). rewrite Hf in *.
    split; [exact H1|]. split; [exact H2|].
    intros fd Hfd H0. destruct (H3 fd Hfd H0) as [-> ->]. auto. }
  unfold jack_get_fifo_fd, os_call. cbn beta iota zeta.
  destruct (negb (ok _)).
  - destruct (enoent _).
    + cbn beta iota zeta. destruct (negb (ok _)).
      * intros H; inversion H; subst. apply Hfail; reflexivity.
      * apply Hopen. reflexivity.
    + intros H; inversion H; subst. apply Hfail; reflexivity.
  - destruct (negb (is_fifo _)).
    + intros H; inversion H; subst. apply Hfail; reflexivity.
    + apply Hopen. reflexivity.
Qed.

Lemma get_fifo_fd_opens_a_slot_once_witness :
  exists r e',
    jack_get_fifo_fd (set_fifo fresh_engine (<[2%nat := 9]> (fifo fresh_engine))) 2 = Done (r, e') /\
    ((forall i, i <> 2%nat ->
        fifo e' !! i = fifo (set_fifo fresh_engine (<[2%nat := 9]> (fifo fresh_engine))) !! i) /\
     (0 <= r -> fifo e' !! 2%nat = Some r) /\
     (forall fd, fifo (set_fifo fresh_engine (<[2%nat := 9]> (fifo fresh_engine))) !! 2%nat = Some fd ->
                 0 <= fd ->
                 fifo e' = fifo (set_fifo fresh_engine (<[2%nat := 9]> (fifo fresh_engine))) /\
                 (r = fd \/ r = -1))).
Proof.
  eexists _, _.
  match goal with
  | |- ?P /\ _ => assert (H : P) by (vm_compute; reflexivity); split; [exact H|]
  end.
  exact (get_fifo_fd_opens_a_slot_once _ _ 2%nat _ H).
Defined.

(** [jack_clear_fifos] makes one read for every open descriptor of the
    table and none for a closed slot; nothing of the engine changes but
    the environment's clock, which has advanced by the number of reads. *)
Theorem clear_fifos_reads_each_open_fifo_once (e : jack_engine_t) :
  jack_clear_fifos e = set_clock e (clock e + open_fifos (fifo e))%nat.
Proof.
  unfold jack_clear_fifos. generalize (fifo e) as l. intros l.
  revert e. induction l as [|fd l IH]; intros e; cbn [fold_left].
  - unfold open_fifos; cbn. rewrite Nat.add_0_r. destruct e; reflexivity.
  - rewrite IH. unfold open_fifos. rewrite filter_cons.
    destruct (Z.leb_spec 0 fd) as [H|H].
    + rewrite decide_True by exact H. cbn [length snd os_call].
      destruct e; cbn. f_equal. lia.
    + rewrite decide_False by lia. reflexivity.
Qed.

(** ** Lookups by name *)

(** [jack_client_by_name] returns the first client of the list whose name
    is the one asked for: every client before it in the list has another
    name.  It returns NULL exactly when no client of the list has the
    name. *)
Theorem client_by_name_finds_first_in_list (e : jack_engine_t) (nm : string)
    (r : option nat) :
  jack_client_by_name e nm = Done r ->
  match r with
  | Some c =>
      exists pre post cl,
        clients e = pre ++ c :: post /\ client_mem e !! c = Some cl /\
        c_name (control cl) = nm /\
        forall x, x ∈ pre -> exists cx, client_mem e !! x = Some cx /\
                                        c_name (control cx) <> nm
  | None =>
      forall x, x ∈ clients e -> exists cx, client_mem e !! x = Some cx /\
                                            c_name (control cx) <> nm
  end.
Proof.
  unfold jack_client_by_name. generalize (clients e) as l. intros l.
  revert r. induction l as [|c l IH]; intros r H; simpl in H.
  - inversion H; subst. intros x Hx. inversion Hx.
  - bind_split H as cl Hcl. apply fetch_Done in Hcl.
    destruct (String.eqb_spec (c_name (control cl)) nm) as [Heq|Hne].
    + inversion H; subst r. exists [], l, cl. split; [reflexivity|].
      split; [exact Hcl|]. split; [exact Heq|]. intros x Hx. inversion Hx.
    + specialize (IH r H). destruct r as [c'|].
      * destruct IH as (pre & post & cl' & -> & H1 & H2 & H3).
        exists (c :: pre), post, cl'. split; [reflexivity|]. split; [exact H1|].
        split; [exact H2|]. intros x Hx. apply elem_of_cons in Hx as [->|Hx]; [eauto|auto].
      * intros x Hx. apply elem_of_cons in Hx as [->|Hx]; [eauto|auto].
Qed.

Lemma client_by_name_finds_first_in_list_witness :
  jack_client_by_name capture_engine "rec" = Done (Some 1%nat) /\
  exists pre post cl,
    clients capture_engine = pre ++ 1%nat :: post /\
    client_mem capture_engine !! 1%nat = Some cl /\
    c_name (control cl) = "rec"%string /\
    forall x, x ∈ pre -> exists cx, client_mem capture_engine !! x = Some cx /\
                                    c_name (control cx) <> "rec"%string.
Proof.
  assert (H : jack_client_by_name capture_engine "rec" = Done (Some 1%nat))
    by (vm_compute; reflexivity).
  split; [exact H|].
  exact (client_by_name_finds_first_in_list capture_engine "rec" (Some 1%nat) H).
Defined.

Lemma port_internal_by_name_from_spec (tbl : list jack_port_shared_t) (nm : string)
    (n i : nat) (r : option nat) :
  port_internal_by_name_from tbl nm i n = Done r ->
  match r with
  | Some k =>
      (i <= k < i + n)%nat /\
      (exists p, tbl !! k = Some p /\ name p = nm) /\
      forall j p, (i <= j < k)%nat -> tbl !! j = Some p -> name p <> nm
  | None =>
      forall j p, (i <= j < i + n)%nat -> tbl !! j = Some p -> name p <> nm
  end.
Proof.
  revert i r. induction n as [|n IH]; intros i r H; simpl in H.
  - inversion H; subst. intros j p Hj. lia.
  - bind_split H as p Hp. apply fetch_Done in Hp.
    destruct (String.eqb_spec (name p) nm) as [Heq|Hne].
    + inversion H; subst r. split; [lia|]. split; [eauto|]. intros j q Hj. lia.
    + specialize (IH (S i) r H). destruct r as [k|].
      * destruct IH as (Hk & Hfound & Hbefore). split; [lia|]. split; [exact Hfound|].
        intros j q Hj Hq. destruct (decide (j = i)) as [->|Hji]; [congruence|].
        apply (Hbefore j q); [lia | exact Hq].
      * intros j q Hj Hq. destruct (decide (j = i)) as [->|Hji]; [congruence|].
        apply (IH j q); [lia | exact Hq].
Qed.

Lemma port_internal_by_name_from_names (t1 t2 : list jack_port_shared_t) (nm : string)
    (n i : nat) :
  name <$> t1 = name <$> t2 ->
  port_internal_by_name_from t1 nm i n = port_internal_by_name_from t2 nm i n.
Proof.
  intros Hn. revert i. induction n as [|n IH]; intros i; simpl; [reflexivity|].
  assert (Hi : name <$> (t1 !! i) = name <$> (t2 !! i)).
  { rewrite <- !list_lookup_fmap, Hn. reflexivity. }
  unfold fetch. destruct (t1 !! i) as [p|], (t2 !! i) as [q|]; try discriminate; [|reflexivity].
  cbn [mbind outcome_bind]. injection Hi as ->. rewrite IH. reflexivity.
Qed.

(** [jack_get_port_internal_by_name] returns the lowest slot below
    [port_max] whose name is the one asked for, whether the slot is in use
    or not, and NULL exactly when no slot has the name.  So a port that
    [jack_port_release] has given up is found as before: releasing a port
    changes no answer of this lookup. *)
Theorem internal_lookup_by_name_ignores_in_use (e : jack_engine_t) (nm : string)
    (r : option nat) :
  jack_get_port_internal_by_name e nm = Done r ->
  match r with
  | Some k =>
      (k < port_max e)%nat /\
      (exists p, shared_ports (ectl e) !! k = Some p /\ name p = nm) /\
      forall j p, (j < k)%nat -> shared_ports (ectl e) !! j = Some p -> name p <> nm
  | None =>
      forall j p, (j < port_max e)%nat -> shared_ports (ectl e) !! j = Some p -> name p <> nm
  end /\
  forall port e', jack_port_release e port = Done e' ->
                  jack_get_port_internal_by_name e' nm = Done r.
Proof.
  intros H. split.
  - unfold jack_get_port_internal_by_name in H.
    apply port_internal_by_name_from_spec in H. destruct r as [k|].
    + destruct H as (Hk & Hf & Hb). split; [lia|]. split; [exact Hf|].
      intros j p Hj. apply Hb. lia.
    + intros j p Hj. apply H. lia.
  - intros port e' Hrel. rewrite <- H. unfold jack_get_port_internal_by_name.
    assert (Hmax : port_max e' = port_max e).
    { unfold jack_port_release in Hrel.
      bind_split Hrel as ip Hip. bind_split Hrel as sh Hsh.
      destruct (buffer_info ip).
      - bind_split Hrel as ti Hti. bind_split Hrel as info Hinfo.
        inversion Hrel; reflexivity.
      - inversion Hrel; reflexivity. }
    apply release_outcome in Hrel as (ip & sh & Hip & Hsh & Hsp & _).
    rewrite Hmax. apply port_internal_by_name_from_names.
    rewrite Hsp, list_fmap_insert. apply list_insert_id.
    rewrite list_lookup_fmap, Hsh. reflexivity.
Qed.

Lemma internal_lookup_by_name_ignores_in_use_witness :
  jack_get_port_internal_by_name capture_engine "rec:in" = Done (Some 1%nat) /\
  (((1 < port_max capture_engine)%nat /\
    (exists p, shared_ports (ectl capture_engine) !! 1%nat = Some p /\ name p = "rec:in"%string) /\
    forall j p, (j < 1)%nat -> shared_ports (ectl capture_engine) !! j = Some p ->
                name p <> "rec:in"%string) /\
   forall port e', jack_port_release capture_engine port = Done e' ->
                   jack_get_port_internal_by_name e' "rec:in" = Done (Some 1%nat)).
Proof.
  assert (H : jack_get_port_internal_by_name capture_engine "rec:in" = Done (Some 1%nat))
    by (vm_compute; reflexivity).
  split; [exact H|].
  exact (internal_lookup_by_name_ignores_in_use capture_engine "rec:in" (Some 1%nat) H).
Defined.


(** ** Optional arguments *)

(** [jack_varargs_parse] takes one argument for each of the four options
    that is set, and no more: with that many arguments or more it
    returns, and its result is the same whatever follows them; with fewer
    it reads an argument that was not passed. *)
Theorem varargs_parse_takes_one_argument_per_option
    (JackServerName JackLoadName JackLoadInit JackSessionID : Z)
    (default : option string) (options : Z) (ap : list (option string)) :
  let n := options_with_argument JackServerName JackLoadName JackLoadInit JackSessionID
             options in
  ((n <= length ap)%nat ->
   exists va,
     jack_varargs_parse JackServerName JackLoadName JackLoadInit JackSessionID default
       options ap = Done va /\
     forall rest,
       jack_varargs_parse JackServerName JackLoadName JackLoadInit JackSessionID default
         options (take n ap ++ rest) = Done va) /\
  ((length ap < n)%nat ->
   jack_varargs_parse JackServerName JackLoadName JackLoadInit JackSessionID default
     options ap = Undefined).
Proof.
  unfold options_with_argument, jack_varargs_parse.
  destruct (has_flag options JackServerName), (has_flag options JackLoadName),
           (has_flag options JackLoadInit), (has_flag options JackSessionID);
    cbn zeta; (split; intros Hlen);
    destruct ap as [|[a|] [|b [|c [|d l]]]]; cbn in Hlen; try lia;
    try reflexivity;
    (eexists; split; [reflexivity | intros rest; reflexivity]).
Qed.

Lemma varargs_parse_takes_one_argument_per_option_witness :
  (options_with_argument 4 8 16 32 12 <= length [Some "studio"; Some "meter"]%string)%nat /\
  exists va,
    jack_varargs_parse 4 8 16 32 (Some "default"%string) 12
      [Some "studio"; Some "meter"]%string = Done va /\
    forall rest,
      jack_varargs_parse 4 8 16 32 (Some "default"%string) 12
        (take (options_with_argument 4 8 16 32 12) [Some "studio"; Some "meter"]%string
         ++ rest) = Done va.
Proof.
  assert (H : (options_with_argument 4 8 16 32 12
               <= length [Some "studio"; Some "meter"]%string)%nat)
    by (vm_compute; lia).
  split; [exact H|].
  exact (proj1 (varargs_parse_takes_one_argument_per_option 4 8 16 32
                  (Some "default"%string) 12 [Some "studio"; Some "meter"]%string) H).
Defined.

(** The result of [jack_varargs_parse] names a server whenever
    [jack_default_server_name] does: a NULL server-name argument leaves
    the default in place.  The server name is the default unless the
    option is set and the first argument is not NULL, and then it is that
    argument.  An option that is not set leaves its field NULL. *)
Theorem varargs_parse_keeps_default_server_name
    (JackServerName JackLoadName JackLoadInit JackSessionID : Z)
    (default : option string) (options : Z) (ap : list (option string))
    (va : jack_varargs_t) :
  jack_varargs_parse JackServerName JackLoadName JackLoadInit JackSessionID default
    options ap = Done va ->
  (default <> None -> server_name va <> None) /\
  server_name va
  = (if has_flag options JackServerName
     then match ap with Some sn :: _ => Some sn | _ => default end
     else default) /\
  (has_flag options JackLoadName = false -> load_name va = None) /\
  (has_flag options JackLoadInit = false -> load_init va = None) /\
  (has_flag options JackSessionID = false -> sess_uuid va = None).
Proof.
  unfold jack_varargs_parse.
  destruct (has_flag options JackServerName), (has_flag options JackLoadName),
           (has_flag options JackLoadInit), (has_flag options JackSessionID);
    cbn zeta; intros H;
    destruct ap as [|[a|] [|b [|c [|d l]]]]; cbn in H; try discriminate;
    inversion H; subst va; cbn;
    (split; [try discriminate; auto|]); (split; [reflexivity|]);
    (split; [try discriminate; auto|]); (split; try discriminate; auto).
Qed.

Lemma varargs_parse_keeps_default_server_name_witness :
  exists va,
    jack_varargs_parse 4 8 16 32 (Some "default"%string) 12 [None; Some "meter"%string]
    = Done va /\
    ((Some "default"%string <> None -> server_name va <> None) /\
     server_name va
     = (if has_flag 12 4
        then match [None; Some "meter"%string] with
             | Some sn :: _ => Some sn
             | _ => Some "default"%string
             end
        else Some "default"%string) /\
     (has_flag 12 8 = false -> load_name va = None) /\
     (has_flag 12 16 = false -> load_init va = None) /\
     (has_flag 12 32 = false -> sess_uuid va = None)).
Proof.
  eexists.
  match goal with
  | |- ?P /\ _ => assert (H : P) by (vm_compute; reflexivity); split; [exact H|]
  end.
  exact (varargs_parse_keeps_default_server_name 4 8 16 32 (Some "default"%string) 12
           [None; Some "meter"%string] _ H).
Defined.

(** ** Where a disconnect can fail to return *)

(** The sort is the last thing [jack_port_disconnect_internal] does, and
    the only thing in which the fuel counts. *)
Lemma disconnect_internal_sort_last
    (srt : (nat -> nat -> Z) -> list nat -> list nat) (fuel : nat)
    (e : jack_engine_t) (src dst : nat) :
  jack_port_disconnect_internal srt fuel e src dst true
  = jack_port_disconnect_internal srt 0 e src dst false
    ≫= (fun '(r, ec) => jack_sort_graph srt fuel ec ≫= (fun e2 => mret (r, e2))).
Proof.
  unfold jack_port_disconnect_internal.
  destruct (fetch (internal_ports e) src) as [S| |]; cbn [mbind outcome_bind]; try reflexivity.
  match goal with
  | |- mbind _ ?body = _ => destruct body as [[r ec]| |]; reflexivity
  end.
Qed.

(** A disconnect that follows a successful connect need not return.  On
    [return_engine] the sort of the graph returns, and so does the
    connect of "R:out" to "A:in", which leaves R at the head of the
    client list.  The disconnect of the same two ports takes the
    connection out again and sorts the graph, and that sort starts its
    walk at R, outside the ring: it never returns, whatever the fuel. *)
Lemma disconnect_after_connect_never_returns :
  exists e0 e1,
    jack_sort_graph stable_sort 20 return_engine = Done e0 /\
    jack_port_do_connect stable_sort 20 return_engine "R:out" "A:in" = Done (0, e1) /\
    forall fuel, jack_port_do_disconnect stable_sort fuel e1 "R:out" "A:in" = OutOfFuel.
Proof.
  assert (S1 : exists e0 e1 ec ed,
             jack_sort_graph stable_sort 20 return_engine = Done e0 /\
             jack_port_do_connect stable_sort 20 return_engine "R:out" "A:in" = Done (0, e1) /\
             jack_get_port_by_name e1 "R:out" = Done (Some 7%nat) /\
             jack_get_port_by_name e1 "A:in" = Done (Some 1%nat) /\
             jack_port_disconnect_internal stable_sort 0 e1 7 1 false = Done (0, ec) /\
             for_each direct_feeders (clients ec) ec = Done ed /\
             clients ed = [0; 3; 2; 1]%nat /\
             fed_in_a_ring ed /\
             exists r, client_mem ed !! 0%nat = Some r /\ fed_by r = [1%nat]).
  { eexists. eexists. eexists. eexists.
    split; [vm_compute; reflexivity|]. split; [vm_compute; reflexivity|].
    split; [vm_compute; reflexivity|]. split; [vm_compute; reflexivity|].
    split; [vm_compute; reflexivity|]. split; [vm_compute; reflexivity|].
    split; [reflexivity|]. split.
    - do 4 eexists. repeat split.
    - eexists. split; reflexivity. }
  destruct S1 as (e0 & e1 & ec & ed & H0 & H1 & Ha & Hb & Hu & Hd & Hc & Hring & r & Hr & Fr).
  exists e0, e1. split; [exact H0|]. split; [exact H1|].
  intros fuel. unfold jack_port_do_disconnect.
  rewrite Ha. cbn [mbind outcome_bind]. rewrite Hb. cbn [mbind outcome_bind].
  rewrite disconnect_internal_sort_last, Hu. cbn [mbind outcome_bind].
  unfold jack_sort_graph. rewrite Hd. cbn [mbind outcome_bind]. rewrite Hc.
  cbn [for_each]. rewrite (trace_terminal_into_ring_never_returns fuel ed r) by assumption.
  reflexivity.
Qed.













(** ** One disconnect, one connection *)




